(** * CPU-scheduling simulator (main.go): a shallow embedding and its properties

    The Go program simulates scheduling policies over a list of processes
    and hands rows, a Gantt timeline and three averages to its output
    helpers.  Each policy is embedded below as a function of the process
    list that returns the values the policy passes to [outputGantt] and
    [outputSchedule] (or prints with [fmt.Printf]).

    - [int64] values are integers of [Z] kept in range by [Int64.wrap];
    - [float64] values are IEEE 754 binary64 numbers ([spec_float] with
      precision 53 and maximal exponent 1024);
    - a Go slice is a window on a backing array that the caller shares;
    - a Go string is a string of bytes; a call that can panic or end the
      program returns a [Completion], and a helper that writes returns the
      text written with it.

    The loader ([loadProcesses], [mustStrToInt]), the output helpers
    ([outputTitle], [outputGantt], [outputSchedule]) and the wiring of
    [main] and [openProcessingFile] follow the policies. *)

From Stdlib Require Import Ascii String.
From Stdlib Require Import ZArith List Bool Lia Permutation SpecFloat.
Import ListNotations.
Local Open Scope Z_scope.

(** ** Machine integers *)

Module Int64.

Definition modulus : Z := 2 ^ 64.
Definition min_int : Z := - 2 ^ 63.
Definition max_int : Z := 2 ^ 63 - 1.

(** Two's complement wrap-around of a mathematical integer. *)
Definition wrap (z : Z) : Z := (z + 2 ^ 63) mod modulus - 2 ^ 63.

Definition add (a b : Z) : Z := wrap (a + b).
Definition sub (a b : Z) : Z := wrap (a - b).

Definition in_range (z : Z) : Prop := min_int <= z <= max_int.

End Int64.

(** ** Floating point: Go's float64 *)

Module Float64.

Definition prec : Z := 53.
Definition emax : Z := 1024.

Definition float64 : Type := spec_float.

Definition zero : float64 := S754_zero false.
Definition nan : float64 := S754_nan.
Definition pinf : float64 := S754_infinity false.

(** The conversion [float64(n)] of an integer, rounding to nearest even. *)
Definition of_int (n : Z) : float64 := binary_normalize prec emax n 0 false.

Definition add (x y : float64) : float64 := SFadd prec emax x y.
Definition div (x y : float64) : float64 := SFdiv prec emax x y.

Definition is_nan (x : float64) : bool :=
  match x with S754_nan => true | _ => false end.

Definition is_inf (x : float64) : bool :=
  match x with S754_infinity _ => true | _ => false end.

Definition is_zero (x : float64) : bool :=
  match x with S754_zero _ => true | _ => false end.

(** A float that denotes a real number. *)
Definition is_finite (x : float64) : bool := negb (is_nan x || is_inf x).

(** [x] as the exact fraction [num / 2 ^ sh] for a finite [x]: the pair
    [(num, sh)]. *)
Definition to_fraction (x : float64) : option (Z * Z) :=
  match x with
  | S754_zero _ => Some (0, 0)
  | S754_finite s m e =>
      let n := if s then Z.neg m else Z.pos m in
      if 0 <=? e then Some (n * 2 ^ e, 0) else Some (n, - e)
  | _ => None
  end.

(** [round2 x c]: [x] lies strictly between [c - 1/2] and [c + 1/2]
    hundredths, so its two-decimal rendering (verb [%.2f]) shows [c]
    hundredths. *)
Definition round2 (x : float64) (c : Z) : Prop :=
  match to_fraction x with
  | Some (n, sh) => (2 * c - 1) * 2 ^ sh < 200 * n < (2 * c + 1) * 2 ^ sh
  | None => False
  end.

End Float64.

Import Float64.

(** ** Data model (main.go, lines 58-70) *)

Record Process := mkProcess {
  ProcessID : Z;
  ArrivalTime : Z;
  BurstDuration : Z;
  Priority : Z
}.

Record TimeSlice := mkTimeSlice {
  PID : Z;
  Start : Z;
  Stop : Z
}.

(** One line of the schedule table.  The source builds it as a [[]string]
    of seven [fmt.Sprint]ed [int64] values, in the order of the table
    header of [outputSchedule]:
    ID, Priority, Burst, Arrival, Wait, Turnaround, Exit.  The row keeps
    the seven integers. *)
Record ScheduleRow := mkRow {
  rowID : Z;
  rowPriority : Z;
  rowBurst : Z;
  rowArrival : Z;
  rowWait : Z;
  rowTurnaround : Z;
  rowExit : Z
}.

(** What a policy hands to [outputGantt] and [outputSchedule]. *)
Record Report := mkReport {
  schedule : list ScheduleRow;
  gantt : list TimeSlice;
  aveWait : float64;
  aveTurnaround : float64;
  aveThroughput : float64
}.

(** A process as the CSV loader reads it: [(id, burst, arrival)], priority 0. *)
Definition proc (id burst arrival : Z) : Process :=
  mkProcess id arrival burst 0.

(** The input invariant of the data model. *)
Definition valid_process (p : Process) : Prop :=
  0 <= ArrivalTime p /\ 0 < BurstDuration p.

Definition valid_processes (ps : list Process) : Prop := Forall valid_process ps.

(** ** First-come, first-served (main.go, lines 78-128) *)

Module FCFS.

(** The variables declared at lines 79-87 that the loop updates.
    The [float64] accumulator [turnaround] of line 82 is part of the
    state although no statement of the loop assigns it: the
    [turnaround := ...] of line 96 declares a new loop-local variable
    that hides it until the end of the loop body. *)
Record State := mkState {
  serviceTime : Z;
  totalWait : float64;
  turnaroundAcc : float64;
  lastCompletion : float64;
  waitingTime : Z;
  rows : list ScheduleRow;
  slices : list TimeSlice
}.

Definition init : State :=
  mkState 0 zero zero zero 0 [] [].

Section Policy.

(** Line 97, [turnaround += float64(turnaround)], names the loop-local
    [int64] of line 96 on both sides.  Go's type checker refuses an
    [int64 += float64], so the language gives the statement no
    meaning; the value it leaves in the local (printed by line 108) is
    the parameter [mixed_add] applied to the two operands. *)
Variable mixed_add : Z -> float64 -> Z.

(** One iteration of the loop of lines 88-118 for [processes[i] = p]. *)
Definition step (st : State) (p : Process) : State :=
  let waitingTime :=
    if 0 <? ArrivalTime p
    then Int64.sub (serviceTime st) (ArrivalTime p)
    else waitingTime st in
  let totalWait := add (totalWait st) (of_int waitingTime) in
  let start := Int64.add waitingTime (ArrivalTime p) in
  let turnaround := Int64.add (BurstDuration p) waitingTime in
  let turnaround := mixed_add turnaround (of_int turnaround) in
  let completion :=
    Int64.add (Int64.add (BurstDuration p) (ArrivalTime p)) waitingTime in
  let lastCompletion := of_int completion in
  let row :=
    mkRow (ProcessID p) (Priority p) (BurstDuration p) (ArrivalTime p)
          waitingTime turnaround completion in
  let serviceTime := Int64.add (serviceTime st) (BurstDuration p) in
  mkState serviceTime totalWait (turnaroundAcc st) lastCompletion
          waitingTime
          (rows st ++ [row])
          (slices st ++ [mkTimeSlice (ProcessID p) start serviceTime]).

(** [for i := range processes]; [schedule[i] = ...] fills the rows in
    the order of the loop. *)
Definition run (processes : list Process) : State :=
  fold_left step processes init.

(** Lines 120-127. *)
Definition FCFSSchedule (processes : list Process) : Report :=
  let st := run processes in
  let count := of_int (Z.of_nat (length processes)) in
  mkReport (rows st) (slices st)
           (div (totalWait st) count)
           (div (turnaroundAcc st) count)
           (div count (lastCompletion st)).

End Policy.

End FCFS.

(** ** Slices that share the caller's backing array *)

Module Slice.

(** A slice [processes] whose window starts at the head of its backing
    array: [view] holds [processes[0:len]] and [beyond] the cells of the
    array past [len], which the caller's longer slice still reads. *)
Record t := mk { view : list Process; beyond : list Process }.

Definition backing (s : t) : list Process := view s ++ beyond s.

(** The slice a caller passes when length and capacity agree, as after
    [make([]Process, len(rows))] in [loadProcesses]. *)
Definition of_list (ps : list Process) : t := mk ps [].

(** [processes = append(processes[:i], processes[i+1:]...)] for
    [i < len(processes)]: the capacity suffices, so [append] moves
    [processes[i+1:]] one cell down inside the backing array and leaves
    the old last cell where it was. *)
Definition remove_at (i : nat) (s : t) : t :=
  mk (firstn i (view s) ++ skipn (S i) (view s))
     (skipn (length (view s) - 1) (view s) ++ beyond s).

(** The inner loop of lines 196-203 and 258-266:
    [for i := 0; i < len(processes); { if ready(processes[i]) { push;
    remove; continue }; i++ }].  [k] bounds the iterations left, which
    is [len(processes) - i]; [out] is the heap or queue pushed to. *)
Fixpoint drain (ready : Process -> bool) (k i : nat) (s : t)
    (out : list Process) : t * list Process :=
  match k with
  | O => (s, out)
  | S k' =>
      match nth_error (view s) i with
      | None => (s, out)
      | Some p =>
          if ready p
          then drain ready k' i (remove_at i s) (out ++ [p])
          else drain ready k' (S i) s out
      end
  end.

Definition drain_all (ready : Process -> bool) (s : t) (out : list Process)
    : t * list Process :=
  drain ready (length (view s)) 0 s out.

End Slice.

(** ** The priority queue of SJFSchedule *)

Module Heap.

(** Modelled from the spec: the type [PriorityHeap] with its methods
    [Len], [Less], [Swap], [Push] and [Pop] is not in the source, and
    neither is the import of [container/heap].  Section 9 of the spec
    describes the heap as a "pick minimum by key" ordered-extraction
    container parameterised by a comparator.  The heap is the list of the
    elements pushed and not yet popped, oldest first. *)
Definition Push (h : list Process) (p : Process) : list Process := h ++ [p].

(** Modelled from the spec: [heap.Pop] over the missing [PriorityHeap]
    extracts a minimum for the comparator [less], the oldest one among
    equals; [None] stands for the empty heap, which the source tests with
    [h.Len() > 0] before it pops. *)
Fixpoint Pop (less : Process -> Process -> bool) (h : list Process)
    : option (Process * list Process) :=
  match h with
  | [] => None
  | x :: t =>
      match Pop less t with
      | None => Some (x, [])
      | Some (m, t') => if less m x then Some (m, x :: t') else Some (x, t)
      end
  end.

(** Modelled from the spec: the comparator of section 4.2, smallest
    burst duration first, ties broken by earliest arrival, then lowest
    processID.  It stands for the missing [Less] method. *)
Definition sjf_less (p q : Process) : bool :=
  (BurstDuration p <? BurstDuration q)
  || ((BurstDuration p =? BurstDuration q)
      && ((ArrivalTime p <? ArrivalTime q)
          || ((ArrivalTime p =? ArrivalTime q)
              && (ProcessID p <? ProcessID q)))).

End Heap.

(** The three numbers that the policies without a table print with
    [fmt.Printf] (lines 177-179 and 292-294). *)
Record Metrics := mkMetrics {
  avgTurnaround : float64;
  avgWait : float64;
  throughput : float64
}.

(** What a policy leaves behind: the values reported, and the caller's
    slice (same length as before the call) read again after the return. *)
Record Outcome (A : Type) := mkOutcome {
  reported : A;
  callers_slice : list Process
}.
Arguments mkOutcome {A}.
Arguments reported {A}.
Arguments callers_slice {A}.

(** ** Shortest job first (main.go, lines 182-244)

    The source declares [SJFSchedule] twice.  This is the declaration that
    records rows and a timeline and reports through the output helpers. *)

Module SJF.

Record State := mkState {
  processes : Slice.t;
  h : list Process;
  currentTime : Z;
  totalWait : float64;
  totalTurnaround : float64;
  rows : list ScheduleRow;
  slices : list TimeSlice
}.

Definition init (ps : list Process) : State :=
  mkState (Slice.of_list ps) [] 0 zero zero [] [].

(** Line 197. *)
Definition ready (now : Z) (p : Process) : bool :=
  (ArrivalTime p <=? now) && (0 <? BurstDuration p).

(** Line 195: the heap or [processes] is not empty. *)
Definition continues (st : State) : bool :=
  negb (Nat.eqb (length (h st)) 0)
  || negb (Nat.eqb (length (Slice.view (processes st))) 0).

Section Policy.

(** The [Less] method of the missing [PriorityHeap]. *)
Variable less : Process -> Process -> bool.

(** One iteration of the outer loop, lines 196-232. *)
Definition body (st : State) : State :=
  let '(ps, h1) :=
    Slice.drain_all (ready (currentTime st)) (processes st) (h st) in
  match Heap.Pop less h1 with
  | Some (p, h2) =>
      let startTime := currentTime st in
      let currentTime := Int64.add (currentTime st) (BurstDuration p) in
      let waitTime := Int64.sub startTime (ArrivalTime p) in
      let turnaroundTime := Int64.sub currentTime (ArrivalTime p) in
      mkState ps h2 currentTime
              (add (totalWait st) (of_int waitTime))
              (add (totalTurnaround st) (of_int turnaroundTime))
              (rows st ++
               [mkRow (ProcessID p) (Priority p)
                      (Int64.add (BurstDuration p) waitTime)
                      (ArrivalTime p) waitTime turnaroundTime currentTime])
              (slices st ++ [mkTimeSlice (ProcessID p) startTime currentTime])
  | None =>
      mkState ps h1 (Int64.add (currentTime st) 1)
              (totalWait st) (totalTurnaround st) (rows st) (slices st)
  end.

(** The outer loop; [None] when [fuel] iterations did not end it. *)
Fixpoint loop (fuel : nat) (st : State) : option State :=
  if continues st then
    match fuel with
    | O => None
    | S fuel' => loop fuel' (body st)
    end
  else Some st.

(** Lines 236-243. *)
Definition report (st : State) : Report :=
  let n := of_int (Z.of_nat (length (rows st))) in
  mkReport (rows st) (slices st)
           (div (totalWait st) n)
           (div (totalTurnaround st) n)
           (div n (of_int (currentTime st))).

Definition SJFSchedule (fuel : nat) (ps : list Process)
    : option (Outcome Report) :=
  match loop fuel (init ps) with
  | Some st =>
      Some (mkOutcome (report st)
                      (firstn (length ps) (Slice.backing (processes st))))
  | None => None
  end.

End Policy.

End SJF.

(** ** The other declaration of SJFSchedule (main.go, lines 130-180)

    Go refuses the second declaration of a name.  This one steps the clock
    one unit at a time over a heap of type [IntHeap], which the source does
    not declare, and prints three averages. *)

Module SJFUnitStep.

Record State := mkState {
  h : list Process;
  currentTime : Z;
  turnaround : Z;
  totalWait : Z;
  completed : Z
}.

Definition init : State := mkState [] 0 0 0 0.

(** Line 149. *)
Definition ready (now : Z) (p : Process) : bool :=
  (ArrivalTime p <=? now) && (0 <? BurstDuration p).

(** Line 156: [p.BurstDuration--] on the popped copy. *)
Definition tick (p : Process) : Process :=
  mkProcess (ProcessID p) (ArrivalTime p)
            (Int64.sub (BurstDuration p) 1) (Priority p).

Section Policy.

(** The [Less] method of the missing [IntHeap]. *)
Variable less : Process -> Process -> bool.

(** The slice as [sort.Slice] leaves it at line 132, which the loop only
    reads: [p] of [range processes] is a copy. *)
Variable processes : list Process.

(** Line 147. *)
Definition continues (st : State) : bool :=
  (completed st <? Z.of_nat (length processes))
  || negb (Nat.eqb (length (h st)) 0).

(** One iteration of the loop, lines 148-168. *)
Definition body (st : State) : State :=
  let h1 :=
    fold_left (fun h p => if ready (currentTime st) p then Heap.Push h p else h)
              processes (h st) in
  match Heap.Pop less h1 with
  | Some (p, h2) =>
      let p := tick p in
      let currentTime := Int64.add (currentTime st) 1 in
      if BurstDuration p =? 0 then
        mkState h2 currentTime
                (Int64.add (turnaround st)
                   (Int64.sub currentTime (ArrivalTime p)))
                (Int64.add (totalWait st)
                   (Int64.sub (Int64.sub currentTime (ArrivalTime p))
                              (BurstDuration p)))
                (Int64.add (completed st) 1)
      else
        mkState (Heap.Push h2 p) currentTime
                (turnaround st) (totalWait st) (completed st)
  | None =>
      mkState h1 (Int64.add (currentTime st) 1)
              (turnaround st) (totalWait st) (completed st)
  end.

Fixpoint loop (fuel : nat) (st : State) : option State :=
  if continues st then
    match fuel with
    | O => None
    | S fuel' => loop fuel' (body st)
    end
  else Some st.

(** Lines 172-174. *)
Definition metrics (st : State) : Metrics :=
  let n := of_int (Z.of_nat (length processes)) in
  mkMetrics (div (of_int (turnaround st)) n)
            (div (of_int (totalWait st)) n)
            (div n (of_int (currentTime st))).

Definition run (fuel : nat) : option Metrics :=
  option_map metrics (loop fuel init).

End Policy.

End SJFUnitStep.

(** ** Round robin (main.go, lines 246-295) *)

Module RR.

Record State := mkState {
  processes : Slice.t;
  queue : list Process;
  totalWait : Z;
  turnaround : Z;
  currentTime : Z
}.

Definition init (ps : list Process) : State :=
  mkState (Slice.of_list ps) [] 0 0 0.

(** Line 259. *)
Definition ready (now : Z) (p : Process) : bool := ArrivalTime p <=? now.

(** Line 257: [len(queue) > 0 || len(processes) > 0]. *)
Definition continues (st : State) : bool :=
  negb (Nat.eqb (length (queue st)) 0)
  || negb (Nat.eqb (length (Slice.view (processes st))) 0).

(** Line 274: [p.BurstDuration -= int64(timeQuantum)] on the local copy. *)
Definition spend (q : Z) (p : Process) : Process :=
  mkProcess (ProcessID p) (ArrivalTime p)
            (Int64.sub (BurstDuration p) q) (Priority p).

Section Loop.

(** The local [timeQuantum] that the loop reads. *)
Variable quantum : Z.

(** One iteration of the outer loop, lines 258-283. *)
Definition body (st : State) : State :=
  let '(ps, queue) :=
    Slice.drain_all (ready (currentTime st)) (processes st) (queue st) in
  match queue with
  | p :: queue =>
      if quantum <? BurstDuration p then
        mkState ps (queue ++ [spend quantum p])
                (totalWait st) (turnaround st)
                (Int64.add (currentTime st) quantum)
      else
        let currentTime := Int64.add (currentTime st) (BurstDuration p) in
        mkState ps queue
                (Int64.add (totalWait st)
                   (Int64.sub (Int64.sub currentTime (ArrivalTime p))
                              (BurstDuration p)))
                (Int64.add (turnaround st)
                   (Int64.sub currentTime (ArrivalTime p)))
                currentTime
  | [] =>
      mkState ps [] (totalWait st) (turnaround st)
              (Int64.add (currentTime st) 1)
  end.

Fixpoint loop (fuel : nat) (st : State) : option State :=
  if continues st then
    match fuel with
    | O => None
    | S fuel' => loop fuel' (body st)
    end
  else Some st.

(** Lines 287-289: the divisions use [len(processes)] as the loop left
    it. *)
Definition metrics (st : State) : Metrics :=
  let n := of_int (Z.of_nat (length (Slice.view (processes st)))) in
  mkMetrics (div (of_int (turnaround st)) n)
            (div (of_int (totalWait st)) n)
            (div n (of_int (currentTime st))).

(** Lines 248-294 for a given value of the local [timeQuantum]. *)
Definition run (fuel : nat) (ps : list Process) : option (Outcome Metrics) :=
  match loop fuel (init ps) with
  | Some st =>
      Some (mkOutcome (metrics st)
                      (firstn (length ps) (Slice.backing (processes st))))
  | None => None
  end.

End Loop.

(** Line 247. *)
Definition timeQuantum : Z := 2.

Definition RRSchedule (fuel : nat) (ps : list Process)
    : option (Outcome Metrics) :=
  run timeQuantum fuel ps.

End RR.

(** The worked example: processes 1, 2, 3 with bursts 5, 3, 1 arriving at
    0, 1, 2. *)
Definition spec_example : list Process := [proc 1 5 0; proc 2 3 1; proc 3 1 2].

(** The example of section 8 of the spec for Round-Robin. *)
Definition rr_example : list Process := [proc 1 4 0; proc 2 2 0].

(** ** Sums and bounds over process lists *)

Definition total_burst (ps : list Process) : Z :=
  fold_right (fun p acc => BurstDuration p + acc) 0 ps.

Definition max_arrival (ps : list Process) : Z :=
  fold_right (fun p acc => Z.max (ArrivalTime p) acc) 0 ps.

(** The latest instant a run over a valid [ps] can reach: every process
    arrived, every burst served. *)
Definition horizon (ps : list Process) : Z := max_arrival ps + total_burst ps.

(** Total length of the slices of the timeline that carry [pid]. *)
Definition slice_total (pid : Z) (tl : list TimeSlice) : Z :=
  fold_right (fun s acc => if PID s =? pid then (Stop s - Start s) + acc else acc)
             0 tl.

(** The invariant of a ScheduleRow (section 3 of the spec) as a test:
    wait and turnaround are not negative, turnaround is completion minus
    arrival, and wait is turnaround minus the burst column. *)
Definition row_ok (r : ScheduleRow) : bool :=
  (0 <=? rowWait r) && (0 <=? rowTurnaround r)
  && (rowTurnaround r =? rowExit r - rowArrival r)
  && (rowWait r =? rowTurnaround r - rowBurst r).

(** How one process was served: what its row and its slice say. *)
Record Service := mkService {
  svcID : Z;
  svcWait : Z;
  svcStart : Z;
  svcCompletion : Z
}.

Definition row_services (rows : list ScheduleRow) (slices : list TimeSlice)
    : list Service :=
  map (fun rs => mkService (rowID (fst rs)) (rowWait (fst rs))
                           (Start (snd rs)) (rowExit (fst rs)))
      (combine rows slices).

Definition services (r : Report) : list Service :=
  row_services (schedule r) (gantt r).

(** Follows the spec's words (section 4.1), not the source: the clock
    starts at 0; for each process in order, if the clock is already past
    its arrival the waiting time is the clock minus the arrival, else it is
    0 and the clock advances to the arrival; the start is the waiting time
    plus the arrival; the clock advances by the burst, and the completion
    is the clock. *)
Definition fcfs_clock_rule (ps : list Process) : list Service :=
  snd (fold_left
         (fun (acc : Z * list Service) p =>
            let clock := fst acc in
            let waitingTime :=
              if ArrivalTime p <? clock then clock - ArrivalTime p else 0 in
            let clock := if ArrivalTime p <? clock then clock else ArrivalTime p in
            let start := waitingTime + ArrivalTime p in
            let clock := clock + BurstDuration p in
            (clock, snd acc ++ [mkService (ProcessID p) waitingTime start clock]))
         ps (0, [])).

(** The bursts of the processes of [ps] that carry [pid], summed. *)
Definition pid_burst (pid : Z) (ps : list Process) : Z :=
  fold_right (fun p acc => if ProcessID p =? pid then BurstDuration p + acc else acc)
             0 ps.

(** The float64 sum that a loop accumulates with [+= float64(x)], from 0. *)
Definition float_sum (xs : list Z) : float64 :=
  fold_left (fun acc x => add acc (of_int x)) xs zero.

(** The completion time in the last row, 0 when there is no row. *)
Definition last_exit (rows : list ScheduleRow) : Z :=
  fold_left (fun _ r => rowExit r) rows 0.

(** Service back to back in list order from the instant [clock]: each
    slice starts where the one before it stops and lasts one burst. *)
Fixpoint back_to_back (clock : Z) (ps : list Process) : list TimeSlice :=
  match ps with
  | [] => []
  | p :: ps' =>
      let stop := Int64.add clock (BurstDuration p) in
      mkTimeSlice (ProcessID p) clock stop :: back_to_back stop ps'
  end.

(** No process of [ps] arrives after the clock has reached it, when
    service starts at [clock] and runs back to back: the processor is
    never idle. *)
Fixpoint no_idle (clock : Z) (ps : list Process) : Prop :=
  match ps with
  | [] => True
  | p :: ps' => ArrivalTime p <= clock /\ no_idle (clock + BurstDuration p) ps'
  end.

(** The services of back-to-back service from [clock]: each process
    waits from its arrival to the clock and completes one burst later. *)
Fixpoint served (clock : Z) (ps : list Process) : list Service :=
  match ps with
  | [] => []
  | p :: ps' =>
      mkService (ProcessID p) (clock - ArrivalTime p) clock
                (clock + BurstDuration p)
      :: served (clock + BurstDuration p) ps'
  end.

(** The complement of a readiness test. *)
Definition waiting (ready : Process -> bool) (p : Process) : bool :=
  negb (ready p).

(** ** Definitions used in the proofs *)

(** What [container/heap] asks of a [Less] method: a strict weak order. *)
Record strict_weak_order (less : Process -> Process -> bool) : Prop := mkSWO {
  swo_irrefl : forall p, less p p = false;
  swo_asym : forall p q, less p q = true -> less q p = false;
  swo_incomp : forall p q r, less p q = false -> less q r = false -> less p r = false
}.

Module RRState.

Import RR.

(** The processes still to be served: queued, or not yet arrived. *)
Definition pool (st : State) : list Process :=
  queue st ++ Slice.view (processes st).

(** What every state of a run over a valid set satisfies; [B] is the
    horizon of the set. *)
Record Inv (B : Z) (st : State) : Prop := mkInv {
  inv_burst : Forall (fun p => 0 < BurstDuration p) (pool st);
  inv_now : 0 <= currentTime st;
  inv_total : currentTime st + total_burst (pool st) <= B;
  inv_arrival : forall p, In p (Slice.view (processes st)) ->
                          ArrivalTime p + total_burst (pool st) <= B;
  inv_bound : B <= Int64.max_int
}.

End RRState.

Module SJFOrder.

Import SJF.

(** The processes not yet run: in the heap, or still in [processes]. *)
Definition pool (st : State) : list Process :=
  h st ++ Slice.view (processes st).

Record Inv (B : Z) (st : State) : Prop := mkInv {
  inv_valid : Forall valid_process (pool st);
  inv_arrived : Forall (fun p => ArrivalTime p <= currentTime st) (h st);
  inv_now : 0 <= currentTime st;
  inv_total : currentTime st + total_burst (pool st) <= B;
  inv_arrival : forall p, In p (Slice.view (processes st)) ->
                          ArrivalTime p + total_burst (pool st) <= B;
  inv_bound : B <= Int64.max_int
}.

(** The slice that serving the whole burst of a process from [start] gives. *)
Definition slice_of (e : Process * Z) : TimeSlice :=
  mkTimeSlice (ProcessID (fst e)) (snd e) (snd e + BurstDuration (fst e)).

(** The row that lines 215-223 write for a process served from [start]:
    its burst column holds the burst plus the wait. *)
Definition row_of (e : Process * Z) : ScheduleRow :=
  let p := fst e in
  let start := snd e in
  mkRow (ProcessID p) (Priority p)
        (BurstDuration p + (start - ArrivalTime p))
        (ArrivalTime p)
        (start - ArrivalTime p)
        (start + BurstDuration p - ArrivalTime p)
        (start + BurstDuration p).

(** Follows the spec's words (section 4.2), not the source: a service
    order, each process with the instant its service starts, is
    non-preemptive shortest-job-first from the instant [now] on when, at
    each decision point [start]:
    - [start] is not before the end of the burst served before it;
    - the process selected has arrived;
    - the processor did not idle past the arrival of a process still to be
      run ([start] is [now], or the first arrival after it);
    - no process still to be run that has arrived by [start] comes before
      the selected one in the comparator;
    - the selected process runs its whole burst: the next decision point is
      not before [start] plus the burst. *)
Inductive sjf_order (less : Process -> Process -> bool)
  : Z -> list (Process * Z) -> Prop :=
| sjf_order_nil : forall now, sjf_order less now []
| sjf_order_cons : forall now p start rest,
    now <= start ->
    ArrivalTime p <= start ->
    (forall q t, In (q, t) ((p, start) :: rest) ->
                 start <= Z.max now (ArrivalTime q)) ->
    (forall q t, In (q, t) rest -> ArrivalTime q <= start -> less q p = false) ->
    sjf_order less (start + BurstDuration p) rest ->
    sjf_order less now ((p, start) :: rest).

End SJFOrder.

(** ** Timelines and arrays *)

(** The slices of a timeline follow one another from the instant [now]:
    none starts before the one before it stops, and each lasts a positive
    time. *)
Fixpoint in_sequence (now : Z) (tl : list TimeSlice) : Prop :=
  match tl with
  | [] => True
  | s :: tl' => now <= Start s /\ Start s < Stop s /\ in_sequence (Stop s) tl'
  end.

(** How an array changes when its cells are only ever overwritten by the
    cell to their right: it keeps its length, and each cell holds what a
    cell at the same index or further to the right held before. *)
Definition moved_down (old new : list Process) : Prop :=
  length new = length old
  /\ forall j, exists k, (j <= k)%nat /\ nth_error new j = nth_error old k.

(** ** Text: Go strings are byte strings *)

Module Text.

(** [len(s)], the number of bytes. *)
Definition len (s : string) : Z := Z.of_nat (String.length s).

Definition newline : string := String "010"%char EmptyString.
Definition tab : string := String "009"%char EmptyString.

(** [strings.Repeat(s, count)]; a negative count panics ([None]). *)
Definition Repeat (s : string) (count : Z) : option string :=
  if count <? 0 then None
  else Some (Nat.iter (Z.to_nat count) (String.append s) EmptyString).

(** The byte of the decimal digit [d]. *)
Definition digit (d : Z) : ascii := ascii_of_nat (Z.to_nat (48 + d)).

(** The decimal digits of [n >= 0], most significant first, written
    before [acc]: the last digit is [n mod 10], and the digits of
    [n / 10] come before it while [n >= 10].  [fuel] bounds the number of
    digits after the first. *)
Fixpoint digits (fuel : nat) (n : Z) (acc : string) : string :=
  let acc := String (digit (n mod 10)) acc in
  match fuel with
  | O => acc
  | S fuel' => if n <? 10 then acc else digits fuel' (n / 10) acc
  end.

(** [fmt.Sprint(i)] of an [int64]: a minus sign for a negative number,
    then the digits of the magnitude, which are 19 at most. *)
Definition Sprint (i : Z) : string :=
  if i <? 0 then String "-"%char (digits 19 (- i) EmptyString)
  else digits 19 i EmptyString.

End Text.

(** ** strconv.ParseInt(s, 10, 64) *)

Module Strconv.

Inductive Cause := ErrSyntax | ErrRange.

(** [*strconv.NumError]: the function, the text it was given, the cause. *)
Record NumError := mkNumError {
  Func : string;
  Num : string;
  Err : Cause
}.

Definition maxUint64 : Z := 2 ^ 64 - 1.

Definition is_digit (c : ascii) : bool :=
  (48 <=? nat_of_ascii c)%nat && (nat_of_ascii c <=? 57)%nat.

(** The loop of [ParseUint] in base 10 over 64 bits: a byte that is not
    a digit is a syntax error; [n >= cutoff] (the product would overflow)
    and a sum past the largest [uint64] are range errors. *)
Fixpoint ParseUint_loop (s : string) (n : Z) : Z + Cause :=
  match s with
  | EmptyString => inl n
  | String c s' =>
      if is_digit c then
        if maxUint64 / 10 + 1 <=? n then inr ErrRange
        else
          let n1 := n * 10 + (Z.of_nat (nat_of_ascii c) - 48) in
          if maxUint64 <? n1 then inr ErrRange else ParseUint_loop s' n1
      else inr ErrSyntax
  end.

Definition ParseUint (s : string) : Z + Cause :=
  match s with
  | EmptyString => inr ErrSyntax
  | _ => ParseUint_loop s 0
  end.

(** [ParseInt]: the empty string is a syntax error; a leading [+] or [-]
    is picked off; the rest goes through [ParseUint]; a magnitude past
    [2^63 - 1] (past [2^63] after a minus sign) is a range error. *)
Definition ParseInt (s : string) : Z + NumError :=
  match s with
  | EmptyString => inr (mkNumError "ParseInt" s ErrSyntax)
  | String c rest =>
      let neg := Ascii.eqb c "-" in
      let s1 := if Ascii.eqb c "+" || neg then rest else s in
      match ParseUint s1 with
      | inr ErrSyntax => inr (mkNumError "ParseInt" s ErrSyntax)
      | r =>
          let un := match r with inl un => un | inr _ => maxUint64 end in
          let cutoff := 2 ^ 63 in
          if negb neg && (cutoff <=? un)
          then inr (mkNumError "ParseInt" s ErrRange)
          else if neg && (cutoff <? un)
          then inr (mkNumError "ParseInt" s ErrRange)
          else inl (if neg then - un else un)
      end
  end.

End Strconv.

(** ** Errors, panics and exits *)

(** The error values of the program.  A value made by [fmt.Errorf]
    keeps its operand and the rest of its format; only the verb [%w]
    makes the operand what [Unwrap] returns. *)
Inductive error :=
| ErrInvalidArgs
| Foreign (text : string)
| NumErr (e : Strconv.NumError)
| Errorf_w (cause : error) (rest : string)
| Errorf_v (cause : error) (rest : string).

Definition Unwrap (e : error) : option error :=
  match e with
  | Errorf_w cause _ => Some cause
  | _ => None
  end.

(** [errors.Is(e, target)] for a target that is [ErrInvalidArgs] or an
    error of another package (known by its text): the chain of [Unwrap]
    is searched for the target.  The values [fmt.Errorf] makes are fresh
    pointers, equal to no target. *)
Fixpoint Is (e target : error) : bool :=
  match e, target with
  | ErrInvalidArgs, ErrInvalidArgs => true
  | Foreign a, Foreign b => String.eqb a b
  | Errorf_w cause _, _ => Is cause target
  | _, _ => false
  end.

Inductive Panic :=
| IndexOutOfRange (index length : nat)
| NegativeRepeatCount.

(** How a call ends: it returns, it panics, or it ends the program with
    [os.Exit(code)] after printing an error on the standard error. *)
Inductive Completion (A : Type) :=
| Returns (a : A)
| Panics (p : Panic)
| Exits (printed : error) (code : Z).
Arguments Returns {A}.
Arguments Panics {A}.
Arguments Exits {A}.

Definition bind {A B} (m : Completion A) (f : A -> Completion B)
    : Completion B :=
  match m with
  | Returns a => f a
  | Panics p => Panics p
  | Exits e c => Exits e c
  end.

Notation "x <- m ;; k" := (bind m (fun x => k))
  (at level 61, m at next level, right associativity).

(** ** Loading processes (main.go, lines 343-370) *)

(** Lines 362-370. *)
Definition mustStrToInt (s : string) : Completion Z :=
  match Strconv.ParseInt s with
  | inl i => Returns i
  | inr err => Exits (NumErr err) 1
  end.

(** The index expression [rows[i][j]]. *)
Definition index (row : list string) (j : nat) : Completion string :=
  match nth_error row j with
  | Some s => Returns s
  | None => Panics (IndexOutOfRange j (length row))
  end.

(** Lines 351-356 for [rows[i] = row]. *)
Definition loadRow (row : list string) : Completion Process :=
  id <- (s <- index row 0 ;; mustStrToInt s) ;;
  burst <- (s <- index row 1 ;; mustStrToInt s) ;;
  arrival <- (s <- index row 2 ;; mustStrToInt s) ;;
  if Nat.eqb (length row) 4
  then priority <- (s <- index row 3 ;; mustStrToInt s) ;;
       Returns (mkProcess id arrival burst priority)
  else Returns (mkProcess id arrival burst 0).

(** The loop of lines 350-357. *)
Fixpoint loadRows (rows : list (list string)) : Completion (list Process) :=
  match rows with
  | [] => Returns []
  | row :: rows' =>
      p <- loadRow row ;;
      ps <- loadRows rows' ;;
      Returns (p :: ps)
  end.

(** [loadProcesses(r)], given what [csv.NewReader(r).ReadAll()] returns
    on [r].  The result is the pair the function returns, the nil slice
    being the empty list. *)
Definition loadProcesses (ReadAll : list (list string) + error)
    : Completion (list Process * option error) :=
  match ReadAll with
  | inr err => Returns ([], Some (Errorf_w err ": reading CSV"))
  | inl rows =>
      processes <- loadRows rows ;;
      Returns (processes, None)
  end.

(** The record that [loadProcesses] reads a process back from. *)
Definition csv_record (p : Process) : list string :=
  [Text.Sprint (ProcessID p); Text.Sprint (BurstDuration p);
   Text.Sprint (ArrivalTime p); Text.Sprint (Priority p)].

(** The four fields of a process are [int64] values. *)
Definition int64_process (p : Process) : Prop :=
  Int64.in_range (ProcessID p) /\ Int64.in_range (ArrivalTime p)
  /\ Int64.in_range (BurstDuration p) /\ Int64.in_range (Priority p).

(** Field [j] of [row] is there and is the decimal text of [i]. *)
Definition field_reads (row : list string) (j : nat) (i : Z) : Prop :=
  exists s, nth_error row j = Some s /\ Strconv.ParseInt s = inl i.

(** [row] reads as the process [p]: processID, burst and arrival in the
    first three fields, in this order; the priority in the fourth when the
    record has exactly four fields, and 0 otherwise. *)
Definition reads_as (row : list string) (p : Process) : Prop :=
  field_reads row 0 (ProcessID p)
  /\ field_reads row 1 (BurstDuration p)
  /\ field_reads row 2 (ArrivalTime p)
  /\ (if Nat.eqb (length row) 4 then field_reads row 3 (Priority p)
      else Priority p = 0).

(** ** Output helpers (main.go, lines 301-323) *)

(** What a call wrote on its writer, in order, and how it ended.  The
    helpers drop the error of every write. *)
Definition Writes (A : Type) : Type := string * Completion A.

Definition wbind {A B} (m : Writes A) (f : A -> Writes B) : Writes B :=
  match m with
  | (out, Returns a) => let (out', c) := f a in ((out ++ out')%string, c)
  | (out, Panics p) => (out, Panics p)
  | (out, Exits e c) => (out, Exits e c)
  end.

Notation "x <~ m ;; k" := (wbind m (fun x => k))
  (at level 61, m at next level, right associativity).

(** [fmt.Fprint(w, s)] of one string, or of strings side by side. *)
Definition Fprint (s : string) : Writes unit := (s, Returns tt).

(** [strings.Repeat] as a step of a helper. *)
Definition Repeat (s : string) (count : Z) : Writes string :=
  match Text.Repeat s count with
  | Some r => (EmptyString, Returns r)
  | None => (EmptyString, Panics NegativeRepeatCount)
  end.

(** Lines 301-305.  [Fprintln] puts a space between its operands and a
    newline after them; the quotient [len(title)/2] truncates. *)
Definition outputTitle (title : string) : Writes unit :=
  rule <~ Repeat "-" (Text.len title * 2) ;;
  _ <~ Fprint (rule ++ Text.newline) ;;
  indent <~ Repeat " " (Z.quot (Text.len title) 2) ;;
  _ <~ Fprint (indent ++ " " ++ title ++ Text.newline) ;;
  rule <~ Repeat "-" (Text.len title * 2) ;;
  Fprint (rule ++ Text.newline).

(** The loop of lines 310-314: one cell per slice, the processID between
    two paddings of [(8 - len(pid)) / 2] spaces, then a bar. *)
Fixpoint gantt_cells (gantt : list TimeSlice) : Writes unit :=
  match gantt with
  | [] => (EmptyString, Returns tt)
  | s :: rest =>
      let pid := Text.Sprint (PID s) in
      padding <~ Repeat " " (Z.quot (8 - Text.len pid) 2) ;;
      _ <~ Fprint (padding ++ pid ++ padding ++ "|") ;;
      gantt_cells rest
  end.

(** The loop of lines 316-321: the start of each slice and a tab, and
    after the last one its stop. *)
Fixpoint gantt_times (gantt : list TimeSlice) : string :=
  match gantt with
  | [] => EmptyString
  | s :: rest =>
      (Text.Sprint (Start s) ++ Text.tab
       ++ match rest with
          | [] => Text.Sprint (Stop s)
          | _ => gantt_times rest
          end)%string
  end.

(** Lines 307-323. *)
Definition outputGantt (gantt : list TimeSlice) : Writes unit :=
  _ <~ Fprint ("Gantt schedule" ++ Text.newline) ;;
  _ <~ Fprint "|" ;;
  _ <~ gantt_cells gantt ;;
  _ <~ Fprint Text.newline ;;
  _ <~ Fprint (gantt_times gantt) ;;
  Fprint (Text.newline ++ Text.newline).

(** The bytes of the cell of a processID [pid] in the first line of the
    chart, the bar included: 8 when the text of [pid] has an odd number
    of bytes up to 7, 9 when it has an even number up to 8, and 10 when
    it has 9. *)
Definition cell_width (pid : Z) : Z :=
  let n := Text.len (Text.Sprint pid) in
  if n =? 9 then 10 else if Z.even n then 9 else 8.

(** The processIDs whose text has 9 bytes at most. *)
Definition narrow (pid : Z) : Prop := - 10 ^ 8 < pid < 10 ^ 9.

(** ** The program around the policies (main.go, lines 16-56, 325-335) *)

(** What the program finds outside its source: the files that [os.Open]
    opens and [Close] closes, the records that [csv.NewReader(f).ReadAll()]
    reads from a file, the verb [%.2f] of [fmt.Sprintf], and the text the
    table of package tablewriter renders for a header, rows and a
    footer. *)
Record World := mkWorld {
  File : Type;
  os_Open : string -> File + error;
  ReadAll : File -> list (list string) + error;
  Close : File -> option error;
  Sprintf_2f : float64 -> string;
  Render : list string -> list (list string) -> list string -> string
}.

Section Program.

Variable W : World.

(** The ill-typed statement of line 97 and the [Less] method of the
    missing heap, as in [FCFS] and [SJF]. *)
Variable mixed_add : Z -> float64 -> Z.
Variable less : Process -> Process -> bool.

(** What calling the [closeFn] of lines 49-53 on [f] does: [log.Fatalf]
    prints and exits with code 1. *)
Definition closeFn (f : File W) : Completion unit :=
  match Close W f with
  | None => Returns tt
  | Some err => Exits (Errorf_v err ": error closing scheduling file") 1
  end.

(** Lines 40-56: the file and what its [closeFn] does, or the error. *)
Definition openProcessingFile (args : list string)
    : File W * Completion unit + error :=
  match args with
  | [_; path] =>
      match os_Open W path with
      | inr err => inr (Errorf_v err ": error opening scheduling file")
      | inl f => inl (f, closeFn f)
      end
  | _ => inr (Errorf_w ErrInvalidArgs
                       ": must give a scheduling file to process")
  end.

(** The seven cells of a row (lines 102-110 and 215-223). *)
Definition row_cells (r : ScheduleRow) : list string :=
  map Text.Sprint
      [rowID r; rowPriority r; rowBurst r; rowArrival r; rowWait r;
       rowTurnaround r; rowExit r].

(** Lines 325-335. *)
Definition outputSchedule (rows : list ScheduleRow)
    (wait turnaround throughput : float64) : Writes unit :=
  _ <~ Fprint ("Schedule table" ++ Text.newline) ;;
  Fprint (Render W
            ["ID"; "Priority"; "Burst"; "Arrival"; "Wait"; "Turnaround";
             "Exit"]%string
            (map row_cells rows)
            [EmptyString; EmptyString; EmptyString; EmptyString;
             "Average" ++ Text.newline ++ Sprintf_2f W wait;
             "Average" ++ Text.newline ++ Sprintf_2f W turnaround;
             "Throughput" ++ Text.newline ++ Sprintf_2f W throughput
               ++ "/t"]%string).

(** Lines 125-127 and 241-243: the three calls that print a report. *)
Definition output (title : string) (r : Report) : Writes unit :=
  _ <~ outputTitle title ;;
  _ <~ outputGantt (gantt r) ;;
  outputSchedule (schedule r) (aveWait r) (aveTurnaround r) (aveThroughput r).

(** A deferred call runs when the function returns or panics, not when
    the program exits; an exit inside it replaces the panic. *)
Definition deferred (call : Completion unit) (c : Completion unit)
    : Completion unit :=
  match c with
  | Exits e code => Exits e code
  | Returns tt => call
  | Panics p =>
      match call with
      | Exits e code => Exits e code
      | _ => Panics p
      end
  end.

(** Lines 16-38: what main writes on the standard output and how it
    ends; [log.Fatal] prints the error and exits with code 1.  [None]
    when SJFSchedule is still running after [fuel] iterations. *)
Definition main (fuel : nat) (args : list string) : option (Writes unit) :=
  match openProcessingFile args with
  | inr err => Some (EmptyString, Exits err 1)
  | inl (f, closeFile) =>
      match loadProcesses (ReadAll W f) with
      | Returns (_, Some err) => Some (EmptyString, Exits err 1)
      | Returns (processes, None) =>
          match output "First-come, first-serve"
                       (FCFS.FCFSSchedule mixed_add processes) with
          | (out1, Returns _) =>
              match SJF.SJFSchedule less fuel processes with
              | Some sjf =>
                  let (out2, c) :=
                    output "Shortest-job-first" (reported sjf) in
                  Some ((out1 ++ out2)%string, deferred closeFile c)
              | None => None
              end
          | (out1, c) => Some (out1, deferred closeFile c)
          end
      | Panics p => Some (EmptyString, deferred closeFile (Panics p))
      | Exits e code => Some (EmptyString, Exits e code)
      end
  end.

End Program.

(** A world in which every path opens, the file holds the records of
    [ps], and closing succeeds; the table renders as nothing. *)
Definition example_world (ps : list Process) : World :=
  mkWorld unit (fun _ => inl tt) (fun _ => inl (map csv_record ps))
          (fun _ => None) (fun _ => EmptyString)
          (fun _ _ _ => EmptyString).

(** ** Accounts of a round-robin run *)

(** The length of the last slice that round robin with the quantum [q]
    gives to a burst: what is left of the burst after the full quanta. *)
Definition last_slice (quantum burst : Z) : Z := (burst - 1) mod quantum + 1.

Definition last_slices (quantum : Z) (ps : list Process) : Z :=
  fold_right (fun p acc => last_slice quantum (BurstDuration p) + acc) 0 ps.

(** * Properties *)

(** ** Machine integers and floats *)

Lemma int64_wrap_small z : Int64.in_range z -> Int64.wrap z = z.
Proof.
  unfold Int64.in_range, Int64.wrap, Int64.min_int, Int64.max_int, Int64.modulus. intros H.
  rewrite Z.mod_small; lia.
Qed.

Lemma int64_wrap_range z : Int64.in_range (Int64.wrap z).
Proof.
  unfold Int64.in_range, Int64.wrap, Int64.min_int, Int64.max_int, Int64.modulus.
  pose proof (Z.mod_pos_bound (z + 2 ^ 63) (2 ^ 64) ltac:(lia)). lia.
Qed.

Lemma int64_add_small a b : Int64.in_range (a + b) -> Int64.add a b = a + b.
Proof. apply int64_wrap_small. Qed.

Lemma int64_sub_small a b : Int64.in_range (a - b) -> Int64.sub a b = a - b.
Proof. apply int64_wrap_small. Qed.

Lemma int64_wrap_add_l x y : Int64.wrap (Int64.wrap x + y) = Int64.wrap (x + y).
Proof.
  unfold Int64.wrap, Int64.modulus.
  replace ((x + 2 ^ 63) mod 2 ^ 64 - 2 ^ 63 + y + 2 ^ 63)
    with ((x + 2 ^ 63) mod 2 ^ 64 + y) by lia.
  rewrite Z.add_mod_idemp_l by lia.
  f_equal. f_equal. lia.
Qed.

Lemma int64_wrap_add_r x y : Int64.wrap (x + Int64.wrap y) = Int64.wrap (x + y).
Proof. rewrite Z.add_comm, int64_wrap_add_l. f_equal. lia. Qed.

(** [(clock - a) + a] is the clock again, also when the difference wraps. *)
Lemma int64_sub_add_cancel clock a :
  Int64.in_range clock -> Int64.add (Int64.sub clock a) a = clock.
Proof.
  intros H. unfold Int64.add, Int64.sub. rewrite int64_wrap_add_l.
  replace (clock - a + a) with clock by lia. apply int64_wrap_small, H.
Qed.

(** [(b + a) + (clock - a)] is [clock + b] in wrapping arithmetic. *)
Lemma int64_completion clock a b :
  Int64.add (Int64.add b a) (Int64.sub clock a) = Int64.add clock b.
Proof.
  unfold Int64.add, Int64.sub.
  rewrite int64_wrap_add_l, int64_wrap_add_r. f_equal. lia.
Qed.

Lemma float64_div_by_zero_not_finite x s : is_finite (div x (S754_zero s)) = false.
Proof. destruct x; reflexivity. Qed.

(** SpecFloat's binary iterator is the unary one. *)
Lemma iter_pos_nat {A} (f : A -> A) n : forall x,
  iter_pos f n x = Nat.iter (Pos.to_nat n) f x.
Proof.
  induction n as [n IH|n IH|]; intros x; cbn [iter_pos].
  - rewrite Pos2Nat.inj_xI, Nat.iter_succ_r, !IH.
    replace (2 * Pos.to_nat n)%nat with (Pos.to_nat n + Pos.to_nat n)%nat by lia.
    rewrite Nat.iter_add. reflexivity.
  - rewrite Pos2Nat.inj_xO, !IH.
    replace (2 * Pos.to_nat n)%nat with (Pos.to_nat n + Pos.to_nat n)%nat by lia.
    rewrite Nat.iter_add. reflexivity.
  - reflexivity.
Qed.

(** Shifting right by fewer bits than the mantissa has leaves it positive. *)
Lemma shr_1_keeps_positive k : forall r m,
  shr_m r = Zpos m -> Z.of_nat k < Zpos (digits2_pos m) ->
  exists m', shr_m (Nat.iter k shr_1 r) = Zpos m'.
Proof.
  induction k as [|k IH]; intros r m Hm Hk.
  - exists m. exact Hm.
  - rewrite Nat.iter_succ_r. destruct r as [mr rr sr]. cbn in Hm. subst mr.
    destruct m as [p|p|]; cbn [digits2_pos] in Hk.
    + apply (IH _ p); [reflexivity|lia].
    + apply (IH _ p); [reflexivity|lia].
    + lia.
Qed.

(** Away from the subnormal range the rounding shift keeps at most 53 bits
    of a positive mantissa, and at least one. *)
Lemma shr_fexp_keeps_positive mx ex l :
  -1021 <= ex ->
  exists m' e', shr_m (fst (shr_fexp 53 1024 (Zpos mx) ex l)) = Zpos m'
                /\ snd (shr_fexp 53 1024 (Zpos mx) ex l) = e' /\ ex <= e'.
Proof.
  intros He. unfold shr_fexp, fexp, emin, Zdigits2.
  pose proof (Pos2Z.is_pos (digits2_pos mx)) as Hd.
  rewrite Z.max_l by lia.
  replace (Z.pos (digits2_pos mx) + ex - 53 - ex) with (Z.pos (digits2_pos mx) - 53) by lia.
  unfold shr.
  destruct (Z.pos (digits2_pos mx) - 53) as [|p|p] eqn:Hn.
  - exists mx, ex. destruct l as [|[]]; cbn; repeat split; lia.
  - destruct (shr_1_keeps_positive (Pos.to_nat p) (shr_record_of_loc (Z.pos mx) l) mx) as [m' Hm'].
    + destruct l as [|[]]; reflexivity.
    + rewrite positive_nat_Z. lia.
    + exists m', (ex + Z.pos p). cbn [fst snd]. rewrite iter_pos_nat.
      repeat split; [exact Hm'|lia].
  - exists mx, ex. destruct l as [|[]]; cbn; repeat split; lia.
Qed.

Lemma round_nearest_even_positive m l :
  exists m', round_nearest_even (Zpos m) l = Zpos m'.
Proof.
  unfold round_nearest_even.
  destruct l as [|[]]; try (exists m; reflexivity).
  - destruct (Z.even (Z.pos m)); [exists m; reflexivity|].
    exists (m + 1)%positive. reflexivity.
  - exists (m + 1)%positive. reflexivity.
Qed.

Lemma binary_round_aux_positive mx ex :
  -1021 <= ex ->
  (exists m e, binary_round_aux 53 1024 false (Zpos mx) ex loc_Exact = S754_finite false m e)
  \/ binary_round_aux 53 1024 false (Zpos mx) ex loc_Exact = S754_infinity false.
Proof.
  intros He. unfold binary_round_aux.
  destruct (shr_fexp_keeps_positive mx ex loc_Exact He) as (m1 & e1 & Hm1 & He1 & Hle1).
  destruct (shr_fexp 53 1024 (Z.pos mx) ex loc_Exact) as [mrs' e'].
  cbn [fst snd] in Hm1, He1. subst e'. rewrite Hm1.
  destruct (round_nearest_even_positive m1 (loc_of_shr_record mrs')) as [m2 Hm2].
  rewrite Hm2.
  destruct (shr_fexp_keeps_positive m2 e1 loc_Exact ltac:(lia)) as (m3 & e3 & Hm3 & He3 & Hle3).
  destruct (shr_fexp 53 1024 (Z.pos m2) e1 loc_Exact) as [mrs'' e''].
  cbn [fst snd] in Hm3, He3. subst e''. rewrite Hm3.
  destruct (e3 <=? 1024 - 53); eauto.
Qed.

(** [float64(z)] of a positive integer is a positive float: rounding does
    not reach zero. *)
Lemma float64_of_int_positive z :
  0 < z ->
  (exists m e, of_int z = S754_finite false m e)
  \/ of_int z = S754_infinity false.
Proof.
  intros Hz. destruct z as [|m|m]; try lia.
  unfold of_int, prec, emax, binary_normalize, binary_round.
  destruct (shl_align m 0 (fexp 53 1024 (Z.pos (digits2_pos m) + 0))) as [mz ez] eqn:Hs.
  apply binary_round_aux_positive.
  assert (Hf : -52 <= fexp 53 1024 (Z.pos (digits2_pos m) + 0)).
  { unfold fexp, emin. pose proof (Pos2Z.is_pos (digits2_pos m)).
    apply Z.le_trans with (Z.pos (digits2_pos m) + 0 - 53); [lia | apply Z.le_max_l]. }
  unfold shl_align in Hs.
  destruct (fexp 53 1024 (Z.pos (digits2_pos m) + 0) - 0) eqn:Hn;
    inversion Hs; subst; rewrite ?Z.add_0_r in *; lia.
Qed.

(** The float64 quotient of zero by a positive integer is zero. *)
Lemma float64_zero_div_positive z : 0 < z -> div zero (of_int z) = zero.
Proof.
  intros Hz.
  destruct (float64_of_int_positive z Hz) as [(m & e & ->) | ->]; reflexivity.
Qed.

(** ** Lists of processes *)

Section ProcessLists.

Lemma total_burst_cons p l :
  total_burst (p :: l) = BurstDuration p + total_burst l.
Proof. reflexivity. Qed.

Lemma total_burst_app l1 l2 :
  total_burst (l1 ++ l2) = total_burst l1 + total_burst l2.
Proof. induction l1 as [|p l1 IH]; simpl; lia. Qed.

Lemma total_burst_filter (f : Process -> bool) l :
  total_burst (filter f l) + total_burst (filter (waiting f) l)
  = total_burst l.
Proof.
  induction l as [|p l IH]; simpl; [reflexivity|].
  unfold waiting at 1. destruct (f p); simpl; lia.
Qed.

Lemma total_burst_perm l1 l2 :
  Permutation l1 l2 -> total_burst l1 = total_burst l2.
Proof. induction 1; simpl; lia. Qed.

Lemma total_burst_pos l :
  Forall (fun p => 0 < BurstDuration p) l -> l <> [] -> 0 < total_burst l.
Proof.
  intros H. induction H as [|p l Hp Hl IH]; intros Hne; [congruence|].
  simpl. destruct l as [|q l]; simpl in *; [lia|].
  assert (0 < BurstDuration q + total_burst l) by (apply IH; discriminate).
  lia.
Qed.

Lemma total_burst_nonneg l :
  Forall (fun p => 0 < BurstDuration p) l -> 0 <= total_burst l.
Proof. induction 1; simpl; lia. Qed.

Lemma total_burst_In p l :
  Forall (fun p => 0 < BurstDuration p) l -> In p l ->
  BurstDuration p <= total_burst l.
Proof.
  induction 1 as [|q l Hq Hl IH]; simpl; [tauto|].
  pose proof (total_burst_nonneg l Hl).
  intros [->|Hin]; [lia|]. specialize (IH Hin). lia.
Qed.

Lemma max_arrival_In p l : In p l -> ArrivalTime p <= max_arrival l.
Proof.
  induction l as [|q l IH]; simpl; [tauto|].
  intros [->|Hin]; [lia|]. specialize (IH Hin). lia.
Qed.

Lemma max_arrival_nonneg l : 0 <= max_arrival l.
Proof. induction l; simpl; lia. Qed.

Lemma valid_burst_pos ps :
  valid_processes ps -> Forall (fun p => 0 < BurstDuration p) ps.
Proof. apply Forall_impl. intros p [_ H]. exact H. Qed.

Lemma Forall_filter_keep {A} (P : A -> Prop) f (l : list A) :
  Forall P l -> Forall P (filter f l).
Proof.
  rewrite !Forall_forall. intros H x Hx.
  apply filter_In in Hx. apply H, Hx.
Qed.

Lemma length_zero_iff {A} (l : list A) : Nat.eqb (length l) 0 = true <-> l = [].
Proof. destruct l; simpl; split; congruence. Qed.

End ProcessLists.

(** ** The draining loop *)

Section Drain.

Variable ready : Process -> bool.

Lemma split_at_length {A} (l1 l2 : list A) (x : A) :
  firstn (length l1) (l1 ++ x :: l2) = l1
  /\ skipn (length l1) (l1 ++ x :: l2) = x :: l2
  /\ skipn (S (length l1)) (l1 ++ x :: l2) = l2.
Proof.
  induction l1 as [|y l1 (IH1 & IH2 & IH3)]; simpl; [auto|].
  repeat split; [f_equal; exact IH1 | exact IH2 | exact IH3].
Qed.

Lemma firstn_skipn_length {A} (l1 l2 : list A) :
  firstn (length l1) (l1 ++ l2) = l1 /\ skipn (length l1) (l1 ++ l2) = l2.
Proof. induction l1 as [|y l1 [IH1 IH2]]; simpl; [auto|]. split; congruence. Qed.

Lemma remove_at_split l1 p l2 b :
  Slice.view (Slice.remove_at (length l1) (Slice.mk (l1 ++ p :: l2) b))
  = l1 ++ l2.
Proof.
  unfold Slice.remove_at. cbn [Slice.view].
  destruct (split_at_length l1 l2 p) as (-> & _ & ->). reflexivity.
Qed.

(** The loop keeps the processes that are not ready, in order, and pushes
    the ready ones, in order. *)
Lemma drain_spec k : forall i s out,
  (length (Slice.view s) <= k + i)%nat ->
  Slice.view (fst (Slice.drain ready k i s out))
  = firstn i (Slice.view s) ++ filter (waiting ready) (skipn i (Slice.view s))
  /\ snd (Slice.drain ready k i s out)
     = out ++ filter ready (skipn i (Slice.view s)).
Proof.
  induction k as [|k IH]; intros i [v b] out Hlen; cbn [Slice.drain Slice.view] in *.
  - rewrite skipn_all2, firstn_all2 by lia. simpl. rewrite !app_nil_r. auto.
  - destruct (nth_error v i) as [p|] eqn:Hnth.
    + destruct (nth_error_split _ _ Hnth) as (l1 & l2 & -> & <-).
      destruct (split_at_length l1 l2 p) as (H1 & H2 & H3).
      destruct (firstn_skipn_length l1 l2) as [H4 H5].
      rewrite length_app in Hlen. cbn [length] in Hlen.
      rewrite H1, H2. cbn [filter]. change (waiting ready p) with (negb (ready p)).
      destruct (ready p) eqn:Hr; cbn [negb].
      * pose proof (IH (length l1)
          (Slice.remove_at (length l1) (Slice.mk (l1 ++ p :: l2) b))
          (out ++ [p])) as IH'.
        rewrite remove_at_split, H4, H5, length_app in IH'.
        destruct (IH' ltac:(lia)) as [-> ->].
        rewrite <- app_assoc. auto.
      * pose proof (IH (S (length l1)) (Slice.mk (l1 ++ p :: l2) b) out) as IH'.
        cbn [Slice.view] in IH'. rewrite H3, length_app in IH'.
        cbn [length] in IH'.
        destruct (IH' ltac:(lia)) as [-> ->]. split; [|reflexivity].
        replace (S (length l1)) with (length (l1 ++ [p]))
          by (rewrite length_app; simpl; lia).
        change (l1 ++ p :: l2) with (l1 ++ [p] ++ l2). rewrite app_assoc.
        destruct (firstn_skipn_length (l1 ++ [p]) l2) as [-> _].
        rewrite <- !app_assoc. reflexivity.
    + apply nth_error_None in Hnth.
      rewrite skipn_all2, firstn_all2 by lia. simpl. rewrite !app_nil_r. auto.
Qed.

Lemma drain_all_spec s out s' out' :
  Slice.drain_all ready s out = (s', out') ->
  Slice.view s' = filter (waiting ready) (Slice.view s)
  /\ out' = out ++ filter ready (Slice.view s).
Proof.
  unfold Slice.drain_all. intros H.
  pose proof (drain_spec (length (Slice.view s)) 0 s out ltac:(lia)) as [H1 H2].
  rewrite H in H1, H2. simpl in H1, H2. auto.
Qed.

End Drain.

(** ** The priority queue: [Pop] extracts a minimum *)

Lemma Pop_None less h : Heap.Pop less h = None <-> h = [].
Proof.
  destruct h as [|x t]; simpl; [tauto|].
  split; [|discriminate].
  destruct (Heap.Pop less t) as [[m t']|]; [destruct (less m x)|]; discriminate.
Qed.

Lemma Pop_perm less h : forall m r,
  Heap.Pop less h = Some (m, r) -> Permutation h (m :: r).
Proof.
  induction h as [|x t IH]; simpl; intros m r; [discriminate|].
  destruct (Heap.Pop less t) as [[m' t']|] eqn:Hp.
  - destruct (less m' x); intros [= <- <-].
    + rewrite (IH _ _ eq_refl). apply perm_swap.
    + reflexivity.
  - apply Pop_None in Hp. subst t. intros [= <- <-]. reflexivity.
Qed.

Lemma Pop_min less h : strict_weak_order less -> forall m r,
  Heap.Pop less h = Some (m, r) -> forall y, In y h -> less y m = false.
Proof.
  intros [Hirr Hasym Hinc].
  induction h as [|x t IH]; simpl; intros m r; [discriminate|].
  destruct (Heap.Pop less t) as [[m' t']|] eqn:Hp.
  - specialize (IH _ _ eq_refl).
    destruct (less m' x) eqn:Hl; intros [= <- <-] y [<-|Hy]; auto.
    apply (Hinc y m' x); auto.
  - apply Pop_None in Hp. subst t. intros [= <- <-] y [<-|[]]. apply Hirr.
Qed.

Lemma sjf_less_spec p q :
  Heap.sjf_less p q = true <->
  BurstDuration p < BurstDuration q
  \/ (BurstDuration p = BurstDuration q
      /\ (ArrivalTime p < ArrivalTime q
          \/ (ArrivalTime p = ArrivalTime q /\ ProcessID p < ProcessID q))).
Proof.
  unfold Heap.sjf_less.
  rewrite !orb_true_iff, !andb_true_iff, !orb_true_iff, !andb_true_iff,
    !Z.ltb_lt, !Z.eqb_eq.
  tauto.
Qed.

Lemma sjf_less_false p q :
  Heap.sjf_less p q = false <-> ~ (Heap.sjf_less p q = true).
Proof. destruct (Heap.sjf_less p q); split; congruence. Qed.

Lemma sjf_less_swo : strict_weak_order Heap.sjf_less.
Proof.
  split; intros *; rewrite ?sjf_less_false, ?sjf_less_spec; lia.
Qed.

Lemma filter_split_perm (f : Process -> bool) l :
  Permutation (filter f l ++ filter (waiting f) l) l.
Proof.
  induction l as [|x l IH]; simpl; [constructor|].
  unfold waiting at 1. destruct (f x); simpl.
  - constructor. exact IH.
  - rewrite <- Permutation_middle. constructor. exact IH.
Qed.

(** ** Round robin: the loop ends, and how it ends *)

Module RRFacts.

Import RR RRState.

Lemma rr_continues_pool st : continues st = true <-> pool st <> [].
Proof.
  unfold continues, pool. rewrite orb_true_iff, !negb_true_iff.
  destruct (queue st), (Slice.view (processes st)); simpl;
    intuition congruence.
Qed.

Lemma rr_stops_empty st :
  continues st = false ->
  queue st = [] /\ Slice.view (processes st) = [].
Proof.
  unfold continues. rewrite orb_false_iff, !negb_false_iff, !length_zero_iff.
  auto.
Qed.

Lemma rr_init_inv ps :
  valid_processes ps -> horizon ps <= Int64.max_int ->
  Inv (horizon ps) (init ps).
Proof.
  intros Hv Hb. pose proof (max_arrival_nonneg ps).
  pose proof (total_burst_nonneg ps (valid_burst_pos ps Hv)).
  split; unfold pool, horizon in *; cbn [init queue processes currentTime
    Slice.of_list Slice.view app].
  - apply valid_burst_pos, Hv.
  - lia.
  - lia.
  - intros p Hp. pose proof (max_arrival_In p ps Hp). lia.
  - exact Hb.
Qed.

Section Quantum.

Variable quantum : Z.
Hypothesis quantum_pos : 0 < quantum.

(** One iteration keeps the invariant and moves the clock forward. *)
Lemma rr_body_inv B st :
  Inv B st -> continues st = true ->
  Inv B (body quantum st) /\ currentTime st < currentTime (body quantum st).
Proof.
  intros [Hb Hn Ht Ha HB] Hc. apply rr_continues_pool in Hc.
  unfold body.
  destruct (Slice.drain_all (ready (currentTime st)) (processes st) (queue st))
    as [ps q] eqn:Hd.
  apply drain_all_spec in Hd. destruct Hd as [Hview Hq].
  set (now := currentTime st) in *.
  set (v := Slice.view (processes st)) in *.
  assert (Hsum : total_burst (q ++ Slice.view ps) = total_burst (pool st)).
  { unfold pool. fold v. rewrite Hview, Hq, !total_burst_app.
    pose proof (total_burst_filter (ready now) v). lia. }
  assert (Hall : Forall (fun p => 0 < BurstDuration p) (q ++ Slice.view ps)).
  { unfold pool in Hb. fold v in Hb. apply Forall_app in Hb.
    destruct Hb as [Hb1 Hb2]. rewrite Hview, Hq.
    repeat (apply Forall_app; split); auto using Forall_filter_keep. }
  assert (Hin : forall p, In p (Slice.view ps) ->
              In p v /\ now < ArrivalTime p).
  { intros p Hp. rewrite Hview in Hp. apply filter_In in Hp.
    destruct Hp as [Hp Hw]. split; [exact Hp|].
    unfold waiting, ready in Hw. apply negb_true_iff in Hw.
    apply Z.leb_gt in Hw. exact Hw. }
  unfold Int64.max_int in HB.
  destruct q as [|p q'].
  - (* nothing is ready: the clock ticks *)
    assert (Hv : Slice.view ps <> []).
    { intros He. apply Hc. unfold pool. fold v.
      destruct (queue st); [|simpl in Hq; discriminate].
      simpl in Hq. rewrite Hview in He. symmetry in Hq.
      clear - Hq He. induction v as [|x v IH]; [reflexivity|].
      simpl in *. unfold waiting in He.
      destruct (ready now x); simpl in *; discriminate. }
    destruct (Slice.view ps) as [|x vs] eqn:Hvs; [congruence|].
    destruct (Hin x (or_introl eq_refl)) as [Hx Hlate].
    pose proof (Ha x Hx) as Hax.
    pose proof (total_burst_nonneg _ Hb).
    rewrite int64_add_small
      by (unfold Int64.in_range, Int64.min_int, Int64.max_int; lia).
    split; [split|]; unfold pool; cbn [queue processes currentTime];
      rewrite ?Hvs, ?Hsum.
    + exact Hall.
    + lia.
    + lia.
    + intros y Hy. destruct (Hin y Hy) as [Hy' _]. auto.
    + unfold Int64.max_int. lia.
    + lia.
  - inversion Hall as [|? ? Hp Hrest]; subst.
    simpl in Hsum.
    pose proof (total_burst_nonneg _ Hrest) as Hnn.
    destruct (quantum <? BurstDuration p) eqn:Hlt.
    + (* a full quantum, then back to the tail of the queue *)
      apply Z.ltb_lt in Hlt.
      rewrite int64_add_small
        by (unfold Int64.in_range, Int64.min_int, Int64.max_int; lia).
      assert (Hsp : BurstDuration (spend quantum p) = BurstDuration p - quantum).
      { unfold spend. cbn. apply int64_sub_small.
        unfold Int64.in_range, Int64.min_int, Int64.max_int. lia. }
      assert (Hsum' : total_burst ((q' ++ [spend quantum p]) ++ Slice.view ps)
                      = total_burst (pool st) - quantum).
      { rewrite <- Hsum, !total_burst_app, !total_burst_cons, Hsp.
        change (total_burst []) with 0. lia. }
      split; [split|]; unfold pool; cbn [queue processes currentTime];
        rewrite ?Hsum'.
      * apply Forall_app in Hrest. destruct Hrest as [H1 H2].
        repeat (apply Forall_app; split); auto.
        constructor; [lia|constructor].
      * lia.
      * lia.
      * intros y Hy. destruct (Hin y Hy) as [Hy' _].
        specialize (Ha y Hy'). lia.
      * unfold Int64.max_int. lia.
      * lia.
    + (* the last slice of p *)
      apply Z.ltb_ge in Hlt.
      rewrite !(int64_add_small now)
        by (unfold Int64.in_range, Int64.min_int, Int64.max_int; lia).
      split; [split|]; unfold pool; cbn [queue processes currentTime].
      * exact Hrest.
      * lia.
      * lia.
      * intros y Hy. destruct (Hin y Hy) as [Hy' _].
        specialize (Ha y Hy'). lia.
      * unfold Int64.max_int. lia.
      * lia.
Qed.

(** Enough fuel ends the loop. *)
Lemma rr_loop_ends B : forall fuel st,
  Inv B st -> B - currentTime st <= Z.of_nat fuel ->
  exists st', loop quantum fuel st = Some st'.
Proof.
  induction fuel as [|fuel IH]; intros st HI Hf.
  - simpl. destruct (continues st) eqn:Hc; [|eauto].
    exfalso. apply rr_continues_pool in Hc.
    pose proof (total_burst_pos _ (inv_burst _ _ HI) Hc).
    pose proof (inv_total _ _ HI). lia.
  - simpl. destruct (continues st) eqn:Hc; [|eauto].
    destruct (rr_body_inv B st HI Hc) as [HI' Hlt].
    apply IH; [exact HI'|lia].
Qed.

Lemma rr_loop_stops : forall fuel st st',
  loop quantum fuel st = Some st' -> continues st' = false.
Proof.
  induction fuel as [|fuel IH]; intros st st'; simpl;
    destruct (continues st) eqn:Hc; try discriminate.
  - intros [= <-]. exact Hc.
  - apply IH.
  - intros [= <-]. exact Hc.
Qed.

(** A run that went through at least one iteration ends at a positive
    instant. *)
Lemma rr_loop_clock B : forall fuel st st',
  Inv B st -> loop quantum fuel st = Some st' ->
  currentTime st <= currentTime st'
  /\ (continues st = true -> currentTime st < currentTime st').
Proof.
  induction fuel as [|fuel IH]; intros st st' HI; simpl;
    destruct (continues st) eqn:Hc; try discriminate.
  - intros [= <-]. split; [lia|discriminate].
  - intros Hl. destruct (rr_body_inv B st HI Hc) as [HI' Hlt].
    destruct (IH _ _ HI' Hl) as [Hle _]. split; intros; lia.
  - intros [= <-]. split; [lia|discriminate].
Qed.

End Quantum.

End RRFacts.

(** ** Shortest job first: the service order *)

Module SJFFacts.

Import SJF SJFOrder.

(** Idle time before the first decision is allowed when no process of the
    order had arrived. *)
Lemma sjf_order_idle less now now' order :
  now <= now' ->
  (forall q t, In (q, t) order -> now' <= ArrivalTime q) ->
  sjf_order less now' order -> sjf_order less now order.
Proof.
  intros Hle Hlate H. destruct H; constructor; auto; [lia|].
  intros q t Hq. specialize (H1 q t Hq). specialize (Hlate q t Hq). lia.
Qed.

Lemma sjf_order_suffix less : forall pre now e post,
  sjf_order less now (pre ++ e :: post) ->
  exists now', sjf_order less now' (e :: post).
Proof.
  induction pre as [|x pre IH]; intros now e post H; simpl in H.
  - eauto.
  - inversion H; subst. eapply IH; eauto.
Qed.

Lemma sjf_continues_pool st : continues st = true <-> pool st <> [].
Proof.
  unfold continues, pool. rewrite orb_true_iff, !negb_true_iff.
  destruct (h st), (Slice.view (processes st)); simpl;
    intuition congruence.
Qed.

Lemma sjf_stops_empty st :
  continues st = false -> h st = [] /\ Slice.view (processes st) = [].
Proof.
  unfold continues. rewrite orb_false_iff, !negb_false_iff, !length_zero_iff.
  auto.
Qed.

Lemma sjf_init_inv ps :
  valid_processes ps -> horizon ps <= Int64.max_int ->
  Inv (horizon ps) (init ps).
Proof.
  intros Hv Hb. pose proof (max_arrival_nonneg ps).
  pose proof (total_burst_nonneg ps (valid_burst_pos ps Hv)).
  split; unfold pool, horizon in *;
    cbn [init h processes currentTime Slice.of_list Slice.view app].
  - exact Hv.
  - constructor.
  - lia.
  - lia.
  - intros p Hp. pose proof (max_arrival_In p ps Hp). lia.
  - exact Hb.
Qed.

Lemma sjf_loop_more less : forall fuel st st' extra,
  loop less fuel st = Some st' -> loop less (fuel + extra) st = Some st'.
Proof.
  induction fuel as [|fuel IH]; intros st st' extra; simpl;
    destruct (continues st) eqn:Hc; try discriminate.
  - intros [= <-]. destruct extra; simpl; rewrite Hc; reflexivity.
  - apply IH.
  - intros [= <-]. reflexivity.
Qed.

Section Comparator.

Variable less : Process -> Process -> bool.

(** One iteration either lets one unit of idle time pass, when no process
    still to be run has arrived, or selects a process that has arrived, a
    minimum for a comparator that is a strict weak order, and serves its
    whole burst. *)
Lemma sjf_body_cases B st :
  Inv B st -> continues st = true ->
  let st1 := body less st in
  Inv B st1 /\
  ((slices st1 = slices st
    /\ rows st1 = rows st
    /\ totalWait st1 = totalWait st
    /\ totalTurnaround st1 = totalTurnaround st
    /\ Permutation (pool st1) (pool st)
    /\ currentTime st1 = currentTime st + 1
    /\ (forall q, In q (pool st1) -> currentTime st < ArrivalTime q))
   \/
   (exists p,
      slices st1 = slices st ++ [slice_of (p, currentTime st)]
      /\ rows st1 = rows st ++ [row_of (p, currentTime st)]
      /\ totalWait st1
         = add (totalWait st) (of_int (rowWait (row_of (p, currentTime st))))
      /\ totalTurnaround st1
         = add (totalTurnaround st)
               (of_int (rowTurnaround (row_of (p, currentTime st))))
      /\ Permutation (p :: pool st1) (pool st)
      /\ currentTime st1 = currentTime st + BurstDuration p
      /\ valid_process p
      /\ ArrivalTime p <= currentTime st
      /\ (strict_weak_order less ->
          forall q, In q (pool st1) -> ArrivalTime q <= currentTime st ->
                    less q p = false))).
Proof.
  intros [Hval Harr Hn Ht Ha HB] Hc. apply sjf_continues_pool in Hc.
  pose proof (valid_burst_pos _ Hval) as Hb.
  unfold body.
  destruct (Slice.drain_all (ready (currentTime st)) (processes st) (h st))
    as [ps h1] eqn:Hd.
  apply drain_all_spec in Hd. destruct Hd as [Hview Hh1].
  set (now := currentTime st) in *.
  set (v := Slice.view (processes st)) in *.
  unfold pool in Hb, Hval, Ht, Ha, Hc. fold v in Hb, Hval, Ht, Ha, Hc.
  assert (Hperm : Permutation (h1 ++ Slice.view ps) (h st ++ v)).
  { rewrite Hview, Hh1, <- app_assoc.
    apply Permutation_app_head, filter_split_perm. }
  assert (Hsum : total_burst (h1 ++ Slice.view ps) = total_burst (h st ++ v)).
  { apply total_burst_perm, Hperm. }
  assert (Hall : Forall valid_process (h1 ++ Slice.view ps)).
  { eapply Permutation_Forall; [symmetry; exact Hperm|exact Hval]. }
  assert (Hin : forall p, In p (Slice.view ps) -> In p v /\ now < ArrivalTime p).
  { intros p Hp. rewrite Hview in Hp. apply filter_In in Hp.
    destruct Hp as [Hp Hw]. split; [exact Hp|].
    assert (Hpos : 0 < BurstDuration p).
    { rewrite Forall_forall in Hb. apply Hb, in_or_app. auto. }
    unfold waiting, ready in Hw. apply negb_true_iff in Hw.
    apply andb_false_iff in Hw. destruct Hw as [Hw|Hw].
    - apply Z.leb_gt in Hw. exact Hw.
    - apply Z.ltb_ge in Hw. lia. }
  assert (Harr1 : Forall (fun p => ArrivalTime p <= now) h1).
  { rewrite Hh1. apply Forall_app. split; [exact Harr|].
    rewrite Forall_forall. intros p Hp. apply filter_In in Hp.
    destruct Hp as [_ Hr]. unfold ready in Hr.
    apply andb_true_iff in Hr. destruct Hr as [Hr _].
    apply Z.leb_le in Hr. exact Hr. }
  unfold Int64.max_int in HB.
  pose proof (total_burst_nonneg _ Hb) as Hnn.
  destruct (Heap.Pop less h1) as [[p h2]|] eqn:Hpop.
  - (* a process is selected and runs its whole burst *)
    pose proof (Pop_perm _ _ _ _ Hpop) as Hp1.
    assert (Hperm2 : Permutation (p :: h2 ++ Slice.view ps) (h st ++ v)).
    { rewrite <- Hperm. change (p :: h2 ++ Slice.view ps)
        with ((p :: h2) ++ Slice.view ps).
      apply Permutation_app_tail. symmetry. exact Hp1. }
    assert (Hsum2 : BurstDuration p + total_burst (h2 ++ Slice.view ps)
                    = total_burst (h st ++ v)).
    { rewrite <- (total_burst_perm _ _ Hperm2). reflexivity. }
    assert (Hall2 : Forall valid_process (p :: h2 ++ Slice.view ps)).
    { eapply Permutation_Forall; [symmetry; exact Hperm2|exact Hval]. }
    pose proof (Forall_inv Hall2) as Hpv.
    destruct (Forall_inv Hall2) as [Hpa Hppos].
    pose proof (Forall_inv_tail Hall2) as Hrest.
    pose proof (total_burst_nonneg _ (valid_burst_pos _ Hrest)) as Hnn2.
    assert (Hparr : ArrivalTime p <= now).
    { rewrite Forall_forall in Harr1. apply Harr1.
      apply (Permutation_in _ (Permutation_sym Hp1)). left. reflexivity. }
    rewrite !(int64_add_small now)
      by (unfold Int64.in_range, Int64.min_int, Int64.max_int; lia).
    rewrite !int64_sub_small
      by (unfold Int64.in_range, Int64.min_int, Int64.max_int; lia).
    rewrite int64_add_small
      by (unfold Int64.in_range, Int64.min_int, Int64.max_int; lia).
    cbv zeta. split; [split|right; exists p];
      unfold pool; cbn [h processes currentTime slices rows totalWait
                        totalTurnaround].
    + exact Hrest.
    + rewrite Forall_forall in Harr1 |- *. intros q Hq.
      assert (In q h1) by (apply (Permutation_in _ (Permutation_sym Hp1)); right; exact Hq).
      specialize (Harr1 q H). lia.
    + lia.
    + lia.
    + intros y Hy. destruct (Hin y Hy) as [Hy' _]. specialize (Ha y Hy'). lia.
    + unfold Int64.max_int. lia.
    + repeat split; auto.
      intros Hswo q Hq Hqa. apply in_app_or in Hq. destruct Hq as [Hq|Hq].
      * apply (Pop_min _ _ Hswo _ _ Hpop).
        apply (Permutation_in _ (Permutation_sym Hp1)). right. exact Hq.
      * destruct (Hin q Hq) as [_ Hlate]. lia.
  - (* the heap is empty: the clock ticks *)
    apply Pop_None in Hpop. rewrite Hpop in *. clear Hpop.
    assert (Hv : exists x, In x (Slice.view ps)).
    { destruct (Slice.view ps) as [|x vs] eqn:Hvs.
      - exfalso. apply Hc. simpl in Hperm.
        apply Permutation_nil in Hperm. exact Hperm.
      - exists x. left. reflexivity. }
    destruct Hv as [x Hx]. destruct (Hin x Hx) as [Hxv Hlate].
    pose proof (Ha x Hxv) as Hax.
    rewrite int64_add_small
      by (unfold Int64.in_range, Int64.min_int, Int64.max_int; lia).
    cbv zeta. split; [split|left];
      unfold pool; cbn [h processes currentTime slices rows totalWait
                        totalTurnaround]; fold v;
      rewrite ?Hsum.
    + exact Hall.
    + constructor.
    + lia.
    + lia.
    + intros y Hy. destruct (Hin y Hy) as [Hy' _]. auto.
    + unfold Int64.max_int. lia.
    + repeat split; auto.
      intros q Hq. apply Hin. exact Hq.
Qed.

(** Enough fuel ends the loop; the rows and the timeline it leaves list a
    service order of the processes still to be run, each served after its
    arrival for its whole burst, the sums are the float64 sums over the
    rows, the clock stops at the last completion, and for a comparator
    that is a strict weak order the order is shortest-job-first. *)
Lemma sjf_loop_order B : forall fuel st,
  Inv B st -> B - currentTime st <= Z.of_nat fuel ->
  exists st' order,
    loop less fuel st = Some st'
    /\ slices st' = slices st ++ map slice_of order
    /\ rows st' = rows st ++ map row_of order
    /\ totalWait st'
       = fold_left (fun acc r => add acc (of_int (rowWait r)))
                   (map row_of order) (totalWait st)
    /\ totalTurnaround st'
       = fold_left (fun acc r => add acc (of_int (rowTurnaround r)))
                   (map row_of order) (totalTurnaround st)
    /\ Permutation (map fst order) (pool st)
    /\ Forall (fun e => valid_process (fst e)
                        /\ ArrivalTime (fst e) <= snd e
                        /\ currentTime st <= snd e) order
    /\ (strict_weak_order less -> sjf_order less (currentTime st) order)
    /\ currentTime st' = fold_left (fun _ r => rowExit r) (map row_of order)
                                   (currentTime st).
Proof.
  induction fuel as [|fuel IH]; intros st HI Hf.
  - simpl. destruct (continues st) eqn:Hc.
    + exfalso. apply sjf_continues_pool in Hc.
      pose proof (total_burst_pos _ (valid_burst_pos _ (inv_valid _ _ HI)) Hc).
      pose proof (inv_total _ _ HI). lia.
    + exists st, []. destruct (sjf_stops_empty _ Hc) as [Hh Hv].
      unfold pool. rewrite Hh, Hv. simpl. rewrite !app_nil_r.
      repeat split; constructor.
  - simpl. destruct (continues st) eqn:Hc.
    + destruct (sjf_body_cases B st HI Hc) as [HI1 Hcase].
      destruct Hcase as [(Hs & Hr & Hw & Htt & Hp & Hclk & Hlate)
                        | (p & Hs & Hr & Hw & Htt & Hp & Hclk & Hpv & Hparr & Hmin)].
      * destruct (IH _ HI1 ltac:(lia))
          as (st' & order & Hl & Hs' & Hr' & Hw' & Htt' & Hp' & Hf' & Ho & Hend).
        assert (Hlate' : forall q t, In (q, t) order ->
                                     currentTime st + 1 <= ArrivalTime q).
        { intros q t Hq.
          assert (In q (pool (body less st))).
          { apply (Permutation_in _ Hp').
            change q with (fst (q, t)). apply in_map. exact Hq. }
          specialize (Hlate q H). lia. }
        exists st', order. rewrite Hs', Hr', Hw', Htt', Hs, Hr, Hw, Htt.
        repeat split; auto.
        -- rewrite Hp'. exact Hp.
        -- eapply Forall_impl; [|exact Hf']. cbv beta.
           intros e (Hv1 & Hv2 & Hv3). split; [exact Hv1|lia].
        -- intros Hswo. eapply sjf_order_idle; [| |exact (Ho Hswo)]; [lia|].
           intros q t Hq. rewrite Hclk. eauto.
        -- rewrite Hend, Hclk. destruct order as [|[q t] order']; [|reflexivity].
           exfalso. apply Permutation_nil in Hp'.
           rewrite Hp' in Hp. apply Permutation_nil in Hp.
           apply sjf_continues_pool in Hc. congruence.
      * pose proof Hpv as [Hpa Hpos].
        destruct (IH _ HI1 ltac:(lia))
          as (st' & order & Hl & Hs' & Hr' & Hw' & Htt' & Hp' & Hf' & Ho & Hend).
        exists st', ((p, currentTime st) :: order).
        rewrite Hs', Hr', Hw', Htt', Hs, Hr, Hw, Htt, <- !app_assoc.
        cbn [map app fold_left].
        repeat split; auto.
        -- cbn [fst]. rewrite Hp'. exact Hp.
        -- constructor; [cbn [fst snd]; split; [exact Hpv|lia]|].
           eapply Forall_impl; [|exact Hf']. cbv beta.
           intros e (Hv1 & Hv2 & Hv3). split; [exact Hv1|lia].
        -- intros Hswo.
           constructor; [lia|exact Hparr|intros; lia|
                         |rewrite <- Hclk; exact (Ho Hswo)].
           intros q t Hq Hqa. apply (Hmin Hswo); [|exact Hqa].
           apply (Permutation_in _ Hp').
           change q with (fst (q, t)). apply in_map. exact Hq.
        -- rewrite Hend, Hclk. reflexivity.
    + exists st, []. destruct (sjf_stops_empty _ Hc) as [Hh Hv].
      unfold pool. rewrite Hh, Hv. simpl. rewrite !app_nil_r.
      repeat split; constructor.
Qed.

End Comparator.

End SJFFacts.

(** ** First-come, first-served on concrete process sets *)

(** C4: on the input [(1,5,0); (2,3,1); (3,1,2)] (id, burst, arrival)
    FCFSSchedule starts process 1 at 0 with wait 0, process 2 at 5 with
    wait 4 and process 3 at 8 with wait 6, and the average wait it reports
    is the float64 quotient (0+4+6)/3, which prints as 3.33. *)
Theorem FCFS_spec_example (mixed_add : Z -> float64 -> Z) :
  let r := FCFS.FCFSSchedule mixed_add spec_example in
  map (fun s => (PID s, Start s)) (gantt r) = [(1, 0); (2, 5); (3, 8)]
  /\ map (fun row => (rowID row, rowWait row)) (schedule r)
     = [(1, 0); (2, 4); (3, 6)]
  /\ aveWait r = div (of_int (0 + 4 + 6)) (of_int 3)
  /\ round2 (aveWait r) 333.
Proof. vm_compute. repeat split; reflexivity. Qed.

(** C3: FCFSSchedule does not follow the clock rule of the claim.  A
    second process that also arrives at 0 keeps the waiting time of the
    process before it (0) although the clock stands at 5, so it starts at
    0 and completes at 3, where the rule gives wait 5, start 5 and
    completion 8; a process that arrives at 5 on an idle processor gets
    the waiting time -5 and starts at 0, where the rule gives wait 0,
    start 5 and completion 6.  On the example set of the spec the two
    agree. *)
Theorem FCFS_wait_ignores_clock (mixed_add : Z -> float64 -> Z) :
  let code ps := services (FCFS.FCFSSchedule mixed_add ps) in
  code [proc 1 5 0; proc 2 3 0] = [mkService 1 0 0 5; mkService 2 0 0 3]
  /\ fcfs_clock_rule [proc 1 5 0; proc 2 3 0]
     = [mkService 1 0 0 5; mkService 2 5 5 8]
  /\ gantt (FCFS.FCFSSchedule mixed_add [proc 1 5 0; proc 2 3 0])
     = [mkTimeSlice 1 0 5; mkTimeSlice 2 0 8]
  /\ code [proc 1 1 5] = [mkService 1 (-5) 0 1]
  /\ fcfs_clock_rule [proc 1 1 5] = [mkService 1 0 5 6]
  /\ code spec_example = fcfs_clock_rule spec_example.
Proof. vm_compute. repeat split; reflexivity. Qed.

(** C6: under FCFSSchedule the slice of a fully served process can be
    longer than its burst: for [(1,5,0); (2,3,0)] the only slice of
    process 2 is [0, 8), eight units for a burst of three. *)
Theorem FCFS_slice_longer_than_burst (mixed_add : Z -> float64 -> Z) :
  let ps := [proc 1 5 0; proc 2 3 0] in
  let r := FCFS.FCFSSchedule mixed_add ps in
  map rowID (schedule r) = [1; 2]
  /\ slice_total 2 (gantt r) = 8
  /\ map BurstDuration (filter (fun p => ProcessID p =? 2) ps) = [3].
Proof. vm_compute. repeat split; reflexivity. Qed.

(** ** Shortest job first on concrete process sets *)

(** C1: rows break the invariant of the claim.  SJFSchedule on
    [(1,5,0); (2,3,1)] gives process 2 the row with wait 4, turnaround 7
    and burst column 7 (burst plus wait, where the source's comment says
    original burst), so wait is not turnaround minus burst; FCFSSchedule on
    [(1,1,5)] gives a row with the negative waiting time -5. *)
Theorem SJF_row_burst_column_adds_wait
  (less : Process -> Process -> bool) (mixed_add : Z -> float64 -> Z) :
  option_map (fun out => schedule (reported out))
             (SJF.SJFSchedule less 10 [proc 1 5 0; proc 2 3 1])
  = Some [mkRow 1 0 5 0 0 5 5; mkRow 2 0 7 1 4 7 8]
  /\ map row_ok [mkRow 1 0 5 0 0 5 5; mkRow 2 0 7 1 4 7 8] = [true; false]
  /\ map rowWait (schedule (FCFS.FCFSSchedule mixed_add [proc 1 1 5])) = [-5]
  /\ map row_ok (schedule (FCFS.FCFSSchedule mixed_add [proc 1 1 5])) = [false].
Proof. vm_compute. repeat split; reflexivity. Qed.

(** C9: SJFSchedule and RRSchedule write into the caller's backing
    array.  After SJFSchedule on [(1,5,0); (2,3,1)] the caller's slice
    reads [(2,3,1); (2,3,1)]; after RRSchedule on [(1,4,0); (2,2,0)] it
    reads [(2,2,0); (2,2,0)]. *)
Theorem SJF_overwrites_callers_slice (less : Process -> Process -> bool) :
  let before := [proc 1 5 0; proc 2 3 1] in
  option_map callers_slice (SJF.SJFSchedule less 10 before)
  = Some [proc 2 3 1; proc 2 3 1]
  /\ [proc 2 3 1; proc 2 3 1] <> before
  /\ option_map callers_slice (RR.RRSchedule 10 rr_example)
     = Some [proc 2 2 0; proc 2 2 0]
  /\ [proc 2 2 0; proc 2 2 0] <> rr_example.
Proof. vm_compute. repeat split; try reflexivity; discriminate. Qed.

(** The second example of section 8 of the spec: with the comparator of
    section 4.2 the service order on the example set is 1, 3, 2. *)
Example SJF_spec_example :
  option_map (fun out => gantt (reported out))
             (SJF.SJFSchedule Heap.sjf_less 10 spec_example)
  = Some [mkTimeSlice 1 0 5; mkTimeSlice 3 5 6; mkTimeSlice 2 6 9].
Proof. vm_compute. reflexivity. Qed.

(** ** Metrics *)

(** C5: the reported metrics are not the means of the claim.
    RRSchedule on [(1,4,0); (2,2,0)] reports +infinity, +infinity and 0
    for the average turnaround, the average wait and the throughput of two
    processes that finish at 6 and 4; FCFSSchedule on the example set
    reports the average turnaround 0 although its three rows exit 5, 7 and
    7 units after they arrive. *)
Theorem RR_and_FCFS_metrics_are_not_means (mixed_add : Z -> float64 -> Z) :
  option_map reported (RR.RRSchedule 10 rr_example)
  = Some (mkMetrics pinf pinf zero)
  /\ aveTurnaround (FCFS.FCFSSchedule mixed_add spec_example) = zero
  /\ map (fun row => rowExit row - rowArrival row)
         (schedule (FCFS.FCFSSchedule mixed_add spec_example)) = [5; 7; 7].
Proof. vm_compute. repeat split; reflexivity. Qed.

(** C8, as the claim states it, fails: for the empty process set the
    three metrics that RRSchedule reports, and the throughput that
    SJFSchedule reports, are NaN, the unguarded 0/0. *)
Lemma empty_set_throughput_is_nan :
  RR.RRSchedule 0 [] = Some (mkOutcome (mkMetrics nan nan nan) [])
  /\ is_nan (throughput (mkMetrics nan nan nan)) = true
  /\ exists out,
       SJF.SJFSchedule Heap.sjf_less 0 [] = Some out
       /\ is_nan (aveThroughput (reported out)) = true.
Proof.
  split; [vm_compute; reflexivity|]. split; [reflexivity|].
  eexists. split; [vm_compute; reflexivity|reflexivity].
Qed.

(** C8, amended: for the empty process set FCFSSchedule and
    SJFSchedule return no row and no slice, RRSchedule returns (it keeps
    neither rows nor slices), and every metric of the three policies is
    the unguarded float64 quotient 0/0, NaN. *)
Theorem empty_set_reports
  (mixed_add : Z -> float64 -> Z) (less : Process -> Process -> bool)
  (fuel : nat) :
  FCFS.FCFSSchedule mixed_add [] = mkReport [] [] nan nan nan
  /\ SJF.SJFSchedule less fuel [] = Some (mkOutcome (mkReport [] [] nan nan nan) [])
  /\ RR.RRSchedule fuel [] = Some (mkOutcome (mkMetrics nan nan nan) [])
  /\ div zero zero = nan.
Proof. destruct fuel; vm_compute; repeat split; reflexivity. Qed.

(** ** The unit-stepping declaration of SJFSchedule *)

Lemma unit_step_heap_never_drains less : forall n st,
  SJFUnitStep.h st <> [] -> 0 <= SJFUnitStep.currentTime st ->
  SJFUnitStep.currentTime st + Z.of_nat n <= Int64.max_int ->
  SJFUnitStep.loop less [proc 1 2 0] n st = None.
Proof.
  induction n as [|n IH]; intros st Hh Hn Hb; simpl.
  - unfold SJFUnitStep.continues.
    destruct (SJFUnitStep.h st); [congruence|]. simpl.
    rewrite orb_true_r. reflexivity.
  - unfold SJFUnitStep.continues at 1.
    destruct (SJFUnitStep.h st) as [|x hs] eqn:Hhs; [congruence|]. simpl length.
    cbn [Nat.eqb negb]. rewrite orb_true_r.
    assert (Hadd : Int64.add (SJFUnitStep.currentTime st) 1
                   = SJFUnitStep.currentTime st + 1).
    { apply int64_add_small.
      unfold Int64.in_range, Int64.min_int, Int64.max_int in *. lia. }
    apply IH; unfold SJFUnitStep.body; rewrite Hhs; cbn [fold_left];
      unfold SJFUnitStep.ready at 1; cbn [ArrivalTime BurstDuration proc];
      replace (0 <=? SJFUnitStep.currentTime st) with true
        by (symmetry; apply Z.leb_le; exact Hn);
      cbn [andb Z.ltb Z.compare];
      destruct (Heap.Pop less (Heap.Push (x :: hs) (proc 1 2 0)))
        as [[q h2]|] eqn:Hpop;
      try (apply Pop_None in Hpop; destruct hs; discriminate);
      pose proof (Permutation_length (Pop_perm _ _ _ _ Hpop)) as Hlen;
      unfold Heap.Push in Hlen; rewrite length_app in Hlen; simpl in Hlen;
      destruct (BurstDuration (SJFUnitStep.tick q) =? 0);
      cbn [SJFUnitStep.h SJFUnitStep.currentTime]; rewrite ?Hadd.
    all: try lia.
    + destruct h2; [simpl in Hlen; lia|discriminate].
    + unfold Heap.Push. destruct h2; discriminate.
Qed.

(** On the single process (id 1, burst 2, arrival 0) the loop of the
    unit-stepping declaration is still running after any number of
    iterations that an [int64] can count: every iteration pushes the
    process again, so the heap is never empty once it has been filled. *)
Lemma unit_step_keeps_running less fuel :
  Z.of_nat fuel <= Int64.max_int ->
  SJFUnitStep.run less [proc 1 2 0] fuel = None.
Proof.
  intros Hf. unfold SJFUnitStep.run.
  destruct fuel as [|fuel]; [reflexivity|].
  change (SJFUnitStep.loop less [proc 1 2 0] (S fuel) SJFUnitStep.init)
    with (SJFUnitStep.loop less [proc 1 2 0] fuel
            (SJFUnitStep.body less [proc 1 2 0] SJFUnitStep.init)).
  rewrite unit_step_heap_never_drains; [reflexivity| | |].
  - vm_compute. discriminate.
  - vm_compute. discriminate.
  - change (SJFUnitStep.currentTime
              (SJFUnitStep.body less [proc 1 2 0] SJFUnitStep.init)) with 1.
    lia.
Qed.

(** ** Round robin on every valid process set *)

Lemma RR_loop_more quantum : forall fuel st st' extra,
  RR.loop quantum fuel st = Some st' ->
  RR.loop quantum (fuel + extra) st = Some st'.
Proof.
  induction fuel as [|fuel IH]; intros st st' extra; simpl;
    destruct (RR.continues st) eqn:Hc; try discriminate.
  - intros [= <-]. destruct extra; simpl; rewrite Hc; reflexivity.
  - apply IH.
  - intros [= <-]. reflexivity.
Qed.

(** With a positive quantum the loop of RRSchedule ends on every valid
    process set, within as many iterations as the horizon of the set. *)
Lemma RR_run_ends quantum ps :
  0 < quantum -> valid_processes ps -> horizon ps <= Int64.max_int ->
  forall fuel, (Z.to_nat (horizon ps) <= fuel)%nat ->
  exists st,
    RR.loop quantum fuel (RR.init ps) = Some st
    /\ RR.continues st = false
    /\ (ps <> [] -> 0 < RR.currentTime st).
Proof.
  intros Hq Hv Hb fuel Hf.
  pose proof (RRFacts.rr_init_inv ps Hv Hb) as HI.
  destruct (RRFacts.rr_loop_ends quantum Hq (horizon ps) (Z.to_nat (horizon ps))
              (RR.init ps) HI) as [st Hst].
  { cbn [RR.init RR.currentTime]. lia. }
  exists st. split; [|split].
  - replace fuel with (Z.to_nat (horizon ps) + (fuel - Z.to_nat (horizon ps)))%nat
      by lia.
    apply RR_loop_more. exact Hst.
  - eapply RRFacts.rr_loop_stops. exact Hst.
  - intros Hne.
    destruct (RRFacts.rr_loop_clock quantum Hq _ _ _ _ HI Hst) as [_ Hlt].
    cbn [RR.init RR.currentTime] in Hlt. apply Hlt.
    apply RRFacts.rr_continues_pool. unfold RRState.pool.
    cbn [RR.init RR.queue RR.processes Slice.of_list Slice.view app]. exact Hne.
Qed.

(** With the quantum 0 the loop never ends once a process is queued: the
    iteration leaves the state as it found it. *)
Lemma RR_zero_quantum_never_ends fuel : RR.run 0 fuel [proc 1 1 0] = None.
Proof.
  unfold RR.run.
  assert (H : forall n, RR.loop 0 n (RR.body 0 (RR.init [proc 1 1 0])) = None).
  { induction n as [|n IH]; [reflexivity|]. exact IH. }
  destruct fuel as [|fuel]; [reflexivity|].
  change (RR.loop 0 (S fuel) (RR.init [proc 1 1 0]))
    with (RR.loop 0 fuel (RR.body 0 (RR.init [proc 1 1 0]))).
  rewrite H. reflexivity.
Qed.

(** C7, as the claim states it, fails: nothing in RRSchedule tests the
    quantum.  Its body run with the quantum 0 is not turned away: on the
    empty set it reports its metrics, on a one-process set it starts and is
    still running after 1000 iterations; and RRSchedule itself can only
    run with the quantum 2. *)
Lemma RR_quantum_is_never_checked :
  RR.run 0 0 [] = Some (mkOutcome (mkMetrics nan nan nan) [])
  /\ RR.run 0 1000 [proc 1 1 0] = None
  /\ RR.RRSchedule 1000 [proc 1 1 0] = RR.run 2 1000 [proc 1 1 0].
Proof.
  split; [vm_compute; reflexivity|].
  split; [apply RR_zero_quantum_never_ends|reflexivity].
Qed.

(** C7, amended: RRSchedule has no time-quantum parameter; its quantum is
    the constant 2, a positive integer set before the loop, and with it
    every run over a valid process set starts and ends: enough fuel gives
    the outcome, which is the outcome of the body run with the quantum 2. *)
Theorem RR_quantum_is_the_constant_two ps :
  valid_processes ps -> horizon ps <= Int64.max_int ->
  RR.timeQuantum = 2
  /\ 0 < RR.timeQuantum
  /\ forall fuel, (Z.to_nat (horizon ps) <= fuel)%nat ->
     exists out,
       RR.RRSchedule fuel ps = Some out /\ RR.run 2 fuel ps = Some out.
Proof.
  intros Hv Hb. split; [reflexivity|]. split; [reflexivity|].
  intros fuel Hf.
  destruct (RR_run_ends RR.timeQuantum ps eq_refl Hv Hb fuel Hf) as (st & Hst & _).
  unfold RR.RRSchedule, RR.run, RR.timeQuantum in *. rewrite Hst.
  eexists. split; reflexivity.
Qed.

Lemma spec_example_valid : valid_processes spec_example.
Proof. repeat constructor; simpl; lia. Qed.

Lemma rr_example_valid : valid_processes rr_example.
Proof. repeat constructor; simpl; lia. Qed.

Lemma RR_quantum_is_the_constant_two_witness :
  valid_processes rr_example
  /\ horizon rr_example <= Int64.max_int
  /\ RR.timeQuantum = 2
  /\ 0 < RR.timeQuantum
  /\ forall fuel, (Z.to_nat (horizon rr_example) <= fuel)%nat ->
     exists out,
       RR.RRSchedule fuel rr_example = Some out
       /\ RR.run 2 fuel rr_example = Some out.
Proof.
  split; [exact rr_example_valid|].
  split; [vm_compute; discriminate|].
  apply (RR_quantum_is_the_constant_two rr_example).
  - exact rr_example_valid.
  - vm_compute; discriminate.
Defined.

(** C10, as the claim states it, fails for the throughput: on the set
    [(1,2,0)] the loop ends at time 2 and the throughput is the float64
    quotient 0/2, the finite number 0; its divisor is the clock, and
    [len(processes) = 0] is its dividend. *)
Lemma RR_throughput_divides_by_the_clock :
  exists st,
    RR.loop RR.timeQuantum 5 (RR.init [proc 1 2 0]) = Some st
    /\ RR.currentTime st = 2
    /\ throughput (RR.metrics st) = div (of_int 0) (of_int 2)
    /\ throughput (RR.metrics st) = zero
    /\ is_finite (throughput (RR.metrics st)) = true.
Proof. eexists. split; [vm_compute; reflexivity|]. vm_compute. auto. Qed.

(** C10, amended: for every non-empty valid process set the loop of
    RRSchedule ends with [processes] empty, so the average turnaround and
    the average wait are float64 quotients by [float64(0)], infinite or
    NaN, and the throughput is [float64(0)] divided by the final clock,
    which is positive: it is zero, where the true throughput is positive.
    None of the three is guarded, and none is the true value. *)
Theorem RR_metrics_use_the_emptied_slice ps :
  ps <> [] -> valid_processes ps -> horizon ps <= Int64.max_int ->
  forall fuel, (Z.to_nat (horizon ps) <= fuel)%nat ->
  exists st out,
    RR.loop RR.timeQuantum fuel (RR.init ps) = Some st
    /\ RR.RRSchedule fuel ps = Some out
    /\ reported out = RR.metrics st
    /\ Slice.view (RR.processes st) = []
    /\ 0 < RR.currentTime st
    /\ avgTurnaround (reported out) = div (of_int (RR.turnaround st)) zero
    /\ avgWait (reported out) = div (of_int (RR.totalWait st)) zero
    /\ throughput (reported out) = div zero (of_int (RR.currentTime st))
    /\ is_finite (avgTurnaround (reported out)) = false
    /\ is_finite (avgWait (reported out)) = false
    /\ throughput (reported out) = zero.
Proof.
  intros Hne Hv Hb fuel Hf.
  destruct (RR_run_ends RR.timeQuantum ps eq_refl Hv Hb fuel Hf)
    as (st & Hst & Hstop & Hclk).
  destruct (RRFacts.rr_stops_empty _ Hstop) as [_ Hview].
  exists st. eexists. unfold RR.RRSchedule, RR.run. rewrite Hst.
  split; [reflexivity|]. split; [reflexivity|].
  cbn [reported]. unfold RR.metrics. rewrite Hview.
  cbn [length Z.of_nat avgTurnaround avgWait throughput].
  change (of_int 0) with zero.
  repeat split; auto.
  - apply float64_div_by_zero_not_finite.
  - apply float64_div_by_zero_not_finite.
  - apply float64_zero_div_positive. exact (Hclk Hne).
Qed.

Lemma RR_metrics_use_the_emptied_slice_witness :
  rr_example <> []
  /\ valid_processes rr_example
  /\ horizon rr_example <= Int64.max_int
  /\ exists st out,
    RR.loop RR.timeQuantum 6 (RR.init rr_example) = Some st
    /\ RR.RRSchedule 6 rr_example = Some out
    /\ reported out = RR.metrics st
    /\ Slice.view (RR.processes st) = []
    /\ 0 < RR.currentTime st
    /\ avgTurnaround (reported out) = div (of_int (RR.turnaround st)) zero
    /\ avgWait (reported out) = div (of_int (RR.totalWait st)) zero
    /\ throughput (reported out) = div zero (of_int (RR.currentTime st))
    /\ is_finite (avgTurnaround (reported out)) = false
    /\ is_finite (avgWait (reported out)) = false
    /\ throughput (reported out) = zero.
Proof.
  split; [discriminate|].
  split; [exact rr_example_valid|].
  split; [vm_compute; discriminate|].
  apply (RR_metrics_use_the_emptied_slice rr_example).
  - discriminate.
  - exact rr_example_valid.
  - vm_compute; discriminate.
  - vm_compute. repeat constructor.
Defined.

(** ** Shortest job first on every valid process set *)

(** C2: with the comparator of section 4.2 (smallest burst, then
    earliest arrival, then lowest processID) SJFSchedule serves every valid
    process set in a non-preemptive shortest-job-first order: there is a
    service order of all the processes, each with its start, such that with
    enough fuel the run returns, its timeline is one slice per process from
    the start to the start plus the whole burst, in that order; at each
    start the process selected had arrived and no process still to be run
    that had arrived comes before it in the comparator; hence of two
    processes that had both arrived at a decision point, one with a
    strictly smaller burst is never served after the one selected there. *)
Theorem SJF_serves_shortest_arrived_first ps :
  valid_processes ps -> horizon ps <= Int64.max_int ->
  exists order,
    Permutation (map fst order) ps
    /\ SJFOrder.sjf_order Heap.sjf_less 0 order
    /\ (forall fuel, (Z.to_nat (horizon ps) <= fuel)%nat ->
        exists out,
          SJF.SJFSchedule Heap.sjf_less fuel ps = Some out
          /\ gantt (reported out) = map SJFOrder.slice_of order
          /\ schedule (reported out) = map SJFOrder.row_of order)
    /\ (forall pre p start post q t,
          order = pre ++ (p, start) :: post ->
          In (q, t) post -> ArrivalTime q <= start ->
          ~ BurstDuration q < BurstDuration p).
Proof.
  intros Hv Hb.
  pose proof (SJFFacts.sjf_init_inv ps Hv Hb) as HI.
  destruct (SJFFacts.sjf_loop_order Heap.sjf_less (horizon ps)
              (Z.to_nat (horizon ps)) (SJF.init ps) HI)
    as (st & order & Hl & Hs & Hr & _ & _ & Hp & _ & Ho & _).
  { cbn [SJF.init SJF.currentTime]. lia. }
  specialize (Ho sjf_less_swo).
  exists order. split; [|split; [|split]].
  - rewrite Hp. unfold SJFOrder.pool.
    cbn [SJF.init SJF.h SJF.processes Slice.of_list Slice.view app].
    reflexivity.
  - exact Ho.
  - intros fuel Hf. unfold SJF.SJFSchedule.
    replace fuel with (Z.to_nat (horizon ps) + (fuel - Z.to_nat (horizon ps)))%nat
      by lia.
    rewrite (SJFFacts.sjf_loop_more _ _ _ _ _ Hl).
    eexists. split; [reflexivity|].
    cbn [reported SJF.report gantt schedule]. split.
    + rewrite Hs. reflexivity.
    + rewrite Hr. reflexivity.
  - intros pre p start post q t -> Hq Hqa Hlt.
    destruct (SJFFacts.sjf_order_suffix _ _ _ _ _ Ho) as [now' Ho'].
    inversion Ho' as [|? ? ? ? _ _ _ Hmin _]; subst.
    specialize (Hmin q t Hq Hqa).
    apply sjf_less_false in Hmin. apply Hmin.
    apply sjf_less_spec. left. exact Hlt.
Qed.

Lemma SJF_serves_shortest_arrived_first_witness :
  valid_processes spec_example
  /\ horizon spec_example <= Int64.max_int
  /\ exists order,
    Permutation (map fst order) spec_example
    /\ SJFOrder.sjf_order Heap.sjf_less 0 order
    /\ (forall fuel, (Z.to_nat (horizon spec_example) <= fuel)%nat ->
        exists out,
          SJF.SJFSchedule Heap.sjf_less fuel spec_example = Some out
          /\ gantt (reported out) = map SJFOrder.slice_of order
          /\ schedule (reported out) = map SJFOrder.row_of order)
    /\ (forall pre p start post q t,
          order = pre ++ (p, start) :: post ->
          In (q, t) post -> ArrivalTime q <= start ->
          ~ BurstDuration q < BurstDuration p).
Proof.
  split; [exact spec_example_valid|].
  split; [vm_compute; discriminate|].
  apply (SJF_serves_shortest_arrived_first spec_example).
  - exact spec_example_valid.
  - vm_compute; discriminate.
Defined.

(** ** Further properties of the policies *)

(** X1: the inner loop of SJFSchedule and RRSchedule (lines 196-203 and
    258-266) removes from [processes] exactly the processes that are
    ready and appends them, in their order, to the heap or queue; the
    others stay, in their order. *)
Theorem drain_all_moves_the_ready ready s out :
  Slice.view (fst (Slice.drain_all ready s out))
  = filter (waiting ready) (Slice.view s)
  /\ snd (Slice.drain_all ready s out) = out ++ filter ready (Slice.view s).
Proof.
  destruct (Slice.drain_all ready s out) as [s' out'] eqn:H.
  apply drain_all_spec in H. exact H.
Qed.

(** X2: for every positive value of its local quantum the body of
    RRSchedule ends on every valid process set, within as many iterations
    as the horizon of the set. *)
Theorem RR_ends_for_every_positive_quantum quantum ps :
  0 < quantum -> valid_processes ps -> horizon ps <= Int64.max_int ->
  forall fuel, (Z.to_nat (horizon ps) <= fuel)%nat ->
  exists out, RR.run quantum fuel ps = Some out.
Proof.
  intros Hq Hv Hb fuel Hf.
  destruct (RR_run_ends quantum ps Hq Hv Hb fuel Hf) as (st & Hst & _).
  unfold RR.run. rewrite Hst. eauto.
Qed.

Lemma RR_ends_for_every_positive_quantum_witness :
  0 < 3
  /\ valid_processes rr_example
  /\ horizon rr_example <= Int64.max_int
  /\ forall fuel, (Z.to_nat (horizon rr_example) <= fuel)%nat ->
     exists out, RR.run 3 fuel rr_example = Some out.
Proof.
  split; [reflexivity|].
  split; [exact rr_example_valid|].
  split; [vm_compute; discriminate|].
  apply (RR_ends_for_every_positive_quantum 3 rr_example).
  - reflexivity.
  - exact rr_example_valid.
  - vm_compute; discriminate.
Defined.

Lemma fold_left_map_row {A B C} (f : A -> B -> A) (g : C -> B) l : forall a,
  fold_left f (map g l) a = fold_left (fun acc r => f acc (g r)) l a.
Proof. induction l as [|x l IH]; intros a; simpl; [reflexivity|apply IH]. Qed.

(** What SJFSchedule reports for a valid process set, whatever the
    comparator of its heap: the rows and slices of a service order of the
    processes, each served after its arrival, the float64 means of the wait
    and turnaround columns, and the count over the last completion. *)
Lemma SJF_report_of_valid_set less ps :
  valid_processes ps -> horizon ps <= Int64.max_int ->
  exists order,
    Permutation (map fst order) ps
    /\ Forall (fun e => valid_process (fst e) /\ ArrivalTime (fst e) <= snd e)
              order
    /\ forall fuel, (Z.to_nat (horizon ps) <= fuel)%nat ->
       option_map reported (SJF.SJFSchedule less fuel ps)
       = Some (mkReport
                 (map SJFOrder.row_of order) (map SJFOrder.slice_of order)
                 (div (float_sum (map rowWait (map SJFOrder.row_of order)))
                      (of_int (Z.of_nat (length order))))
                 (div (float_sum (map rowTurnaround (map SJFOrder.row_of order)))
                      (of_int (Z.of_nat (length order))))
                 (div (of_int (Z.of_nat (length order)))
                      (of_int (last_exit (map SJFOrder.row_of order))))).
Proof.
  intros Hv Hb.
  pose proof (SJFFacts.sjf_init_inv ps Hv Hb) as HI.
  destruct (SJFFacts.sjf_loop_order less (horizon ps)
              (Z.to_nat (horizon ps)) (SJF.init ps) HI)
    as (st & order & Hl & Hs & Hr & Hw & Ht & Hp & Hf & _ & Hend).
  { cbn [SJF.init SJF.currentTime]. lia. }
  exists order. split; [|split].
  - rewrite Hp. unfold SJFOrder.pool.
    cbn [SJF.init SJF.h SJF.processes Slice.of_list Slice.view app].
    reflexivity.
  - eapply Forall_impl; [|exact Hf]. cbv beta. tauto.
  - intros fuel Hfu. unfold SJF.SJFSchedule.
    replace fuel with (Z.to_nat (horizon ps) + (fuel - Z.to_nat (horizon ps)))%nat
      by lia.
    rewrite (SJFFacts.sjf_loop_more _ _ _ _ _ Hl).
    unfold SJF.report. cbn [option_map reported].
    cbn [SJF.init SJF.rows SJF.slices SJF.totalWait SJF.totalTurnaround
         SJF.currentTime app] in Hs, Hr, Hw, Ht, Hend.
    rewrite Hs, Hr, Hw, Ht, Hend.
    unfold float_sum, last_exit. rewrite !fold_left_map_row, !length_map.
    reflexivity.
Qed.

Lemma slice_total_of_order pid order :
  slice_total pid (map SJFOrder.slice_of order) = pid_burst pid (map fst order).
Proof.
  induction order as [|[p t] order IH]; simpl; [reflexivity|].
  rewrite IH. destruct (ProcessID p =? pid); lia.
Qed.

Lemma pid_burst_perm pid l1 l2 :
  Permutation l1 l2 -> pid_burst pid l1 = pid_burst pid l2.
Proof.
  induction 1 as [|x l l' _ IH|x y l|l l' l'' _ IH1 _ IH2]; simpl.
  - reflexivity.
  - rewrite IH. reflexivity.
  - destruct (ProcessID x =? pid), (ProcessID y =? pid); lia.
  - congruence.
Qed.

Lemma pid_burst_absent pid l :
  ~ In pid (map ProcessID l) -> pid_burst pid l = 0.
Proof.
  induction l as [|x l IH]; simpl; [reflexivity|]. intros Hn.
  destruct (ProcessID x =? pid) eqn:He.
  - apply Z.eqb_eq in He. tauto.
  - apply IH. tauto.
Qed.

Lemma pid_burst_unique p l :
  NoDup (map ProcessID l) -> In p l ->
  pid_burst (ProcessID p) l = BurstDuration p.
Proof.
  induction l as [|x l IH]; simpl; [tauto|].
  intros Hnd [->|Hin]; inversion Hnd as [|? ? Hx Hl]; subst.
  - rewrite Z.eqb_refl, pid_burst_absent by exact Hx. lia.
  - destruct (ProcessID x =? ProcessID p) eqn:He.
    + apply Z.eqb_eq in He. exfalso. apply Hx. rewrite He.
      apply in_map. exact Hin.
    + apply IH; assumption.
Qed.

(** X5: under SJFSchedule (lines 205-229) every process of a valid set with
    distinct processIDs has slices whose durations sum to its burst,
    whatever the comparator of the heap. *)
Theorem SJF_slices_cover_bursts less ps :
  valid_processes ps -> horizon ps <= Int64.max_int ->
  NoDup (map ProcessID ps) ->
  forall fuel, (Z.to_nat (horizon ps) <= fuel)%nat ->
  exists out,
    SJF.SJFSchedule less fuel ps = Some out
    /\ length (gantt (reported out)) = length ps
    /\ forall p, In p ps ->
         slice_total (ProcessID p) (gantt (reported out)) = BurstDuration p.
Proof.
  intros Hv Hb Hnd fuel Hf.
  destruct (SJF_report_of_valid_set less ps Hv Hb) as (order & Hp & _ & Hrun).
  specialize (Hrun fuel Hf).
  destruct (SJF.SJFSchedule less fuel ps) as [out|]; [|discriminate].
  injection Hrun as Hrep. exists out. rewrite Hrep. cbn [gantt].
  split; [reflexivity|]. split.
  - rewrite length_map, <- (Permutation_length Hp), length_map. reflexivity.
  - intros p Hin. rewrite slice_total_of_order, (pid_burst_perm _ _ _ Hp).
    apply pid_burst_unique; assumption.
Qed.

Lemma spec_example_bounded : horizon spec_example <= Int64.max_int.
Proof. vm_compute. discriminate. Qed.

Lemma spec_example_distinct : NoDup (map ProcessID spec_example).
Proof.
  repeat constructor; simpl; intuition discriminate.
Qed.

Lemma SJF_slices_cover_bursts_witness :
  valid_processes spec_example
  /\ horizon spec_example <= Int64.max_int
  /\ NoDup (map ProcessID spec_example)
  /\ forall fuel, (Z.to_nat (horizon spec_example) <= fuel)%nat ->
     exists out,
       SJF.SJFSchedule Heap.sjf_less fuel spec_example = Some out
       /\ length (gantt (reported out)) = length spec_example
       /\ forall p, In p spec_example ->
            slice_total (ProcessID p) (gantt (reported out)) = BurstDuration p.
Proof.
  split; [exact spec_example_valid|].
  split; [exact spec_example_bounded|].
  split; [exact spec_example_distinct|].
  apply (SJF_slices_cover_bursts Heap.sjf_less spec_example).
  - exact spec_example_valid.
  - exact spec_example_bounded.
  - exact spec_example_distinct.
Defined.

Lemma Forall2_map_of {A B} (P : A -> B -> Prop) (f : A -> B) l :
  Forall (fun x => P x (f x)) l -> Forall2 P l (map f l).
Proof. induction 1; simpl; constructor; auto. Qed.

(** X4: the rows of SJFSchedule (lines 206-223) for a valid process
    set, whatever the comparator of the heap: there is one row per process,
    in service order; it carries the processID, priority and arrival of
    its process; its turnaround is the completion minus the arrival, its
    wait is the turnaround minus the burst of the process, the wait is not
    negative and the turnaround is positive. *)
Theorem SJF_rows_of_every_valid_set less ps :
  valid_processes ps -> horizon ps <= Int64.max_int ->
  exists order,
    Permutation (map fst order) ps
    /\ forall fuel, (Z.to_nat (horizon ps) <= fuel)%nat ->
       exists out,
         SJF.SJFSchedule less fuel ps = Some out
         /\ Forall2 (fun (e : Process * Z) r =>
                       rowID r = ProcessID (fst e)
                       /\ rowPriority r = Priority (fst e)
                       /\ rowArrival r = ArrivalTime (fst e)
                       /\ rowTurnaround r = rowExit r - rowArrival r
                       /\ rowWait r = rowTurnaround r - BurstDuration (fst e)
                       /\ 0 <= rowWait r
                       /\ 0 < rowTurnaround r)
                    order (schedule (reported out)).
Proof.
  intros Hv Hb.
  destruct (SJF_report_of_valid_set less ps Hv Hb) as (order & Hp & Hord & Hrun).
  exists order. split; [exact Hp|]. intros fuel Hf.
  specialize (Hrun fuel Hf).
  destruct (SJF.SJFSchedule less fuel ps) as [out|]; [|discriminate].
  injection Hrun as Hrep. exists out. rewrite Hrep. cbn [schedule].
  split; [reflexivity|].
  apply Forall2_map_of. eapply Forall_impl; [|exact Hord].
  intros [p t] [[Hpa Hpb] Harr]. cbn in *. repeat split; lia.
Qed.

Lemma SJF_rows_of_every_valid_set_witness :
  valid_processes spec_example
  /\ horizon spec_example <= Int64.max_int
  /\ exists order,
    Permutation (map fst order) spec_example
    /\ forall fuel, (Z.to_nat (horizon spec_example) <= fuel)%nat ->
       exists out,
         SJF.SJFSchedule Heap.sjf_less fuel spec_example = Some out
         /\ Forall2 (fun (e : Process * Z) r =>
                       rowID r = ProcessID (fst e)
                       /\ rowPriority r = Priority (fst e)
                       /\ rowArrival r = ArrivalTime (fst e)
                       /\ rowTurnaround r = rowExit r - rowArrival r
                       /\ rowWait r = rowTurnaround r - BurstDuration (fst e)
                       /\ 0 <= rowWait r
                       /\ 0 < rowTurnaround r)
                    order (schedule (reported out)).
Proof.
  split; [exact spec_example_valid|].
  split; [exact spec_example_bounded|].
  apply (SJF_rows_of_every_valid_set Heap.sjf_less spec_example).
  - exact spec_example_valid.
  - exact spec_example_bounded.
Defined.

(** X7: the metrics of SJFSchedule (lines 236-238) for a valid process set,
    whatever the comparator of the heap: the average wait and the average
    turnaround are the float64 sums of the wait and turnaround columns
    divided by the number of rows, and the throughput is the number of
    rows, which is the number of processes, divided by the completion time
    of the last row. *)
Theorem SJF_metrics_are_float_means less ps :
  valid_processes ps -> horizon ps <= Int64.max_int ->
  forall fuel, (Z.to_nat (horizon ps) <= fuel)%nat ->
  exists out,
    SJF.SJFSchedule less fuel ps = Some out
    /\ let rows := schedule (reported out) in
       let n := of_int (Z.of_nat (length rows)) in
       length rows = length ps
       /\ aveWait (reported out) = div (float_sum (map rowWait rows)) n
       /\ aveTurnaround (reported out)
          = div (float_sum (map rowTurnaround rows)) n
       /\ aveThroughput (reported out) = div n (of_int (last_exit rows)).
Proof.
  intros Hv Hb fuel Hf.
  destruct (SJF_report_of_valid_set less ps Hv Hb) as (order & Hp & _ & Hrun).
  specialize (Hrun fuel Hf).
  destruct (SJF.SJFSchedule less fuel ps) as [out|]; [|discriminate].
  injection Hrun as Hrep. exists out. rewrite Hrep.
  cbn [schedule aveWait aveTurnaround aveThroughput]. cbv zeta.
  rewrite !length_map.
  split; [reflexivity|]. split; [|auto].
  rewrite <- (Permutation_length Hp), length_map. reflexivity.
Qed.

Lemma SJF_metrics_are_float_means_witness :
  valid_processes spec_example
  /\ horizon spec_example <= Int64.max_int
  /\ forall fuel, (Z.to_nat (horizon spec_example) <= fuel)%nat ->
     exists out,
       SJF.SJFSchedule Heap.sjf_less fuel spec_example = Some out
       /\ let rows := schedule (reported out) in
          let n := of_int (Z.of_nat (length rows)) in
          length rows = length spec_example
          /\ aveWait (reported out) = div (float_sum (map rowWait rows)) n
          /\ aveTurnaround (reported out)
             = div (float_sum (map rowTurnaround rows)) n
          /\ aveThroughput (reported out) = div n (of_int (last_exit rows)).
Proof.
  split; [exact spec_example_valid|].
  split; [exact spec_example_bounded|].
  apply (SJF_metrics_are_float_means Heap.sjf_less spec_example).
  - exact spec_example_valid.
  - exact spec_example_bounded.
Defined.

(** ** First-come, first-served on every process list *)

Section FCFSFacts.

Variable mixed_add : Z -> float64 -> Z.

Lemma fcfs_service_time_in_range ps : forall st,
  Int64.in_range (FCFS.serviceTime st) ->
  Int64.in_range (FCFS.serviceTime (fold_left (FCFS.step mixed_add) ps st)).
Proof.
  induction ps as [|p ps IH]; intros st H; simpl; [exact H|].
  apply IH. cbn. apply int64_wrap_range.
Qed.

(** What the loop appends: one row and one slice per process, in order,
    carrying the fields of the process. *)
Lemma fcfs_fold_fields ps : forall st,
  let st' := fold_left (FCFS.step mixed_add) ps st in
  map rowID (FCFS.rows st') = map rowID (FCFS.rows st) ++ map ProcessID ps
  /\ map rowPriority (FCFS.rows st')
     = map rowPriority (FCFS.rows st) ++ map Priority ps
  /\ map rowBurst (FCFS.rows st')
     = map rowBurst (FCFS.rows st) ++ map BurstDuration ps
  /\ map rowArrival (FCFS.rows st')
     = map rowArrival (FCFS.rows st) ++ map ArrivalTime ps
  /\ map PID (FCFS.slices st') = map PID (FCFS.slices st) ++ map ProcessID ps.
Proof.
  induction ps as [|p ps IH]; intros st; cbn zeta.
  - simpl. rewrite !app_nil_r. auto.
  - simpl fold_left. destruct (IH (FCFS.step mixed_add st p)) as (H1 & H2 & H3 & H4 & H5).
    rewrite H1, H2, H3, H4, H5. cbn [FCFS.step FCFS.rows FCFS.slices].
    rewrite !map_app. cbn [map rowID rowPriority rowBurst rowArrival PID].
    rewrite <- !app_assoc. auto.
Qed.

(** The sums that the loop keeps. *)
Lemma fcfs_fold_sums ps : forall st,
  let st' := fold_left (FCFS.step mixed_add) ps st in
  exists new,
    FCFS.rows st' = FCFS.rows st ++ new
    /\ length new = length ps
    /\ FCFS.totalWait st'
       = fold_left (fun acc x => add acc (of_int x)) (map rowWait new)
                   (FCFS.totalWait st)
    /\ FCFS.turnaroundAcc st' = FCFS.turnaroundAcc st
    /\ FCFS.lastCompletion st'
       = fold_left (fun _ r => of_int (rowExit r)) new (FCFS.lastCompletion st).
Proof.
  induction ps as [|p ps IH]; intros st; cbn zeta.
  - exists []. simpl. rewrite app_nil_r. auto.
  - simpl fold_left.
    destruct (IH (FCFS.step mixed_add st p)) as (new & H1 & H2 & H3 & H4 & H5).
    rewrite H1, H3, H4, H5.
    cbn [FCFS.step FCFS.rows FCFS.totalWait FCFS.turnaroundAcc
         FCFS.lastCompletion].
    eexists (_ :: new). rewrite <- app_assoc. cbn [app length map fold_left].
    repeat split; auto.
Qed.

Lemma fold_last_exit_float new : forall z,
  fold_left (fun _ r => of_int (rowExit r)) new (of_int z)
  = of_int (fold_left (fun _ r => rowExit r) new z).
Proof. induction new as [|r new IH]; intros z; simpl; [reflexivity|apply IH]. Qed.

(** When every process after the first has a positive arrival time the
    loop serves back to back: each slice starts at the clock, where the one
    before it stopped, and the completion in the row is the stop of the
    slice. *)
Lemma fcfs_fold_back_to_back ps : forall st,
  Int64.in_range (FCFS.serviceTime st) ->
  Forall (fun p => 0 < ArrivalTime p) ps ->
  let st' := fold_left (FCFS.step mixed_add) ps st in
  FCFS.slices st' = FCFS.slices st ++ back_to_back (FCFS.serviceTime st) ps
  /\ map rowExit (FCFS.rows st')
     = map rowExit (FCFS.rows st)
       ++ map Stop (back_to_back (FCFS.serviceTime st) ps).
Proof.
  induction ps as [|p ps IH]; intros st Hr Hpos; cbn zeta.
  - simpl. rewrite !app_nil_r. auto.
  - simpl fold_left. inversion Hpos as [|? ? Hp Hps]; subst.
    destruct (IH (FCFS.step mixed_add st p)) as [H1 H2].
    { cbn. apply int64_wrap_range. }
    { exact Hps. }
    rewrite H1, H2. cbn [FCFS.step FCFS.rows FCFS.slices FCFS.serviceTime].
    apply Z.ltb_lt in Hp. rewrite Hp.
    rewrite int64_sub_add_cancel by exact Hr.
    rewrite int64_completion.
    rewrite !map_app. cbn [map rowExit back_to_back Stop].
    rewrite <- !app_assoc. auto.
Qed.

End FCFSFacts.

(** X6: FCFSSchedule (lines 88-118) writes one row and one slice per process,
    in input order, and copies processID, priority, burst and arrival into
    the row. *)
Theorem FCFS_rows_follow_input_order (mixed_add : Z -> float64 -> Z) ps :
  let r := FCFS.FCFSSchedule mixed_add ps in
  map rowID (schedule r) = map ProcessID ps
  /\ map rowPriority (schedule r) = map Priority ps
  /\ map rowBurst (schedule r) = map BurstDuration ps
  /\ map rowArrival (schedule r) = map ArrivalTime ps
  /\ map PID (gantt r) = map ProcessID ps.
Proof.
  exact (fcfs_fold_fields mixed_add ps FCFS.init).
Qed.

(** X10: the timeline of FCFSSchedule (lines 89-117) is back-to-back service
    in input order from time 0 whenever the first process arrives at 0 or
    later and every process after it has a positive arrival time: every
    slice lasts one burst (in wrapping int64 arithmetic), and the
    completion in each row is the stop of its slice. *)
Theorem FCFS_timeline_is_back_to_back (mixed_add : Z -> float64 -> Z) ps :
  Forall (fun p => 0 <= ArrivalTime p) (firstn 1 ps) ->
  Forall (fun p => 0 < ArrivalTime p) (tl ps) ->
  let r := FCFS.FCFSSchedule mixed_add ps in
  gantt r = back_to_back 0 ps
  /\ map rowExit (schedule r) = map Stop (gantt r).
Proof.
  intros Hfirst Hpos. cbv zeta.
  unfold FCFS.FCFSSchedule, FCFS.run. cbn [gantt schedule].
  destruct ps as [|p rest]; [auto|].
  cbn [tl] in Hpos. cbn [firstn] in Hfirst. apply Forall_inv in Hfirst.
  cbn [fold_left].
  destruct (fcfs_fold_back_to_back mixed_add rest
              (FCFS.step mixed_add FCFS.init p)) as [H1 H2].
  { cbn. apply int64_wrap_range. }
  { exact Hpos. }
  rewrite H1, H2.
  cbn [FCFS.step FCFS.init FCFS.rows FCFS.slices FCFS.serviceTime
       FCFS.waitingTime app map rowExit back_to_back Stop].
  assert (H0 : Int64.in_range 0) by (vm_compute; split; discriminate).
  destruct (0 <? ArrivalTime p) eqn:Ha.
  - rewrite int64_sub_add_cancel by exact H0. rewrite int64_completion.
    auto.
  - apply Z.ltb_ge in Ha. replace (ArrivalTime p) with 0 by lia.
    replace (Int64.add 0 0) with 0 by reflexivity.
    replace (Int64.add (Int64.add (BurstDuration p) 0) 0)
      with (Int64.add 0 (BurstDuration p)).
    + auto.
    + unfold Int64.add. rewrite Z.add_0_r, Z.add_0_r, Z.add_0_l.
      symmetry. apply int64_wrap_small, int64_wrap_range.
Qed.

Lemma FCFS_timeline_is_back_to_back_witness :
  Forall (fun p => 0 <= ArrivalTime p) (firstn 1 spec_example)
  /\ Forall (fun p => 0 < ArrivalTime p) (tl spec_example)
  /\ gantt (FCFS.FCFSSchedule (fun t _ => t) spec_example)
     = back_to_back 0 spec_example
  /\ map rowExit (schedule (FCFS.FCFSSchedule (fun t _ => t) spec_example))
     = map Stop (gantt (FCFS.FCFSSchedule (fun t _ => t) spec_example)).
Proof.
  split; [repeat constructor; discriminate|].
  split; [repeat constructor|].
  apply (FCFS_timeline_is_back_to_back (fun t _ => t) spec_example).
  - repeat constructor; discriminate.
  - repeat constructor.
Defined.

(** X9: the metrics of FCFSSchedule (lines 120-123): the average wait is the
    float64 sum of the wait column divided by the number of processes, and
    the throughput is that number divided by the completion time in the
    last row. *)
Theorem FCFS_wait_and_throughput_metrics (mixed_add : Z -> float64 -> Z) ps :
  let r := FCFS.FCFSSchedule mixed_add ps in
  let count := of_int (Z.of_nat (length ps)) in
  length (schedule r) = length ps
  /\ aveWait r = div (float_sum (map rowWait (schedule r))) count
  /\ aveThroughput r = div count (of_int (last_exit (schedule r))).
Proof.
  cbv zeta. unfold FCFS.FCFSSchedule, FCFS.run.
  cbn [schedule aveWait aveThroughput].
  destruct (fcfs_fold_sums mixed_add ps FCFS.init)
    as (new & H1 & H2 & H3 & H4 & H5).
  rewrite H1, H3, H5. cbn [FCFS.init FCFS.rows FCFS.totalWait
                           FCFS.lastCompletion app].
  change zero with (of_int 0) at 2. rewrite fold_last_exit_float.
  auto.
Qed.

(** The average turnaround of FCFSSchedule (lines 82, 96-97 and 122): no
    statement of the loop assigns the accumulator of line 82, so the
    average reported is 0 divided by the number of processes. *)
Theorem FCFS_average_turnaround_is_zero_over_count
  (mixed_add : Z -> float64 -> Z) ps :
  aveTurnaround (FCFS.FCFSSchedule mixed_add ps)
  = div zero (of_int (Z.of_nat (length ps))).
Proof.
  unfold FCFS.FCFSSchedule, FCFS.run. cbn [aveTurnaround].
  destruct (fcfs_fold_sums mixed_add ps FCFS.init)
    as (new & _ & _ & _ & H4 & _).
  rewrite H4. reflexivity.
Qed.

(** The declaration of SJFSchedule at lines 130-180, on the single
    process (id 1, burst 2, arrival 0): its loop has not ended after any
    number of iterations an int64 can count, whatever the comparator. *)
Theorem unit_step_declaration_keeps_running less fuel :
  Z.of_nat fuel <= Int64.max_int ->
  SJFUnitStep.run less [proc 1 2 0] fuel = None.
Proof. apply unit_step_keeps_running. Qed.

Lemma unit_step_declaration_keeps_running_witness :
  Z.of_nat 1000 <= Int64.max_int
  /\ SJFUnitStep.run Heap.sjf_less [proc 1 2 0] 1000 = None.
Proof.
  split; [vm_compute; discriminate|].
  apply (unit_step_declaration_keeps_running Heap.sjf_less 1000).
  vm_compute; discriminate.
Defined.

(** ** First-come, first-served against the clock rule of the spec *)

Lemma combine_snoc {A B} (l1 : list A) (l2 : list B) x y :
  length l1 = length l2 ->
  combine (l1 ++ [x]) (l2 ++ [y]) = combine l1 l2 ++ [(x, y)].
Proof.
  revert l2. induction l1 as [|a l1 IH]; intros [|b l2] H; simpl in *;
    try discriminate; [reflexivity|].
  rewrite IH by congruence. reflexivity.
Qed.

(** The clock rule serves a list without idle time back to back. *)
Lemma clock_rule_without_idle ps : forall clock acc,
  no_idle clock ps ->
  fold_left
    (fun (acc : Z * list Service) p =>
       let clock := fst acc in
       let waitingTime :=
         if ArrivalTime p <? clock then clock - ArrivalTime p else 0 in
       let clock := if ArrivalTime p <? clock then clock else ArrivalTime p in
       let start := waitingTime + ArrivalTime p in
       let clock := clock + BurstDuration p in
       (clock, snd acc ++ [mkService (ProcessID p) waitingTime start clock]))
    ps (clock, acc)
  = (clock + total_burst ps, acc ++ served clock ps).
Proof.
  induction ps as [|p ps IH]; intros clock acc Hi; simpl.
  - rewrite Z.add_0_r, app_nil_r. reflexivity.
  - destruct Hi as [Ha Hi].
    destruct (ArrivalTime p <? clock) eqn:Hlt.
    + rewrite IH by exact Hi. rewrite <- app_assoc. simpl.
      f_equal; [lia|]. do 3 f_equal. lia.
    + apply Z.ltb_ge in Hlt. assert (He : ArrivalTime p = clock) by lia.
      rewrite He in *. rewrite IH by exact Hi. rewrite <- app_assoc. simpl.
      f_equal; [lia|]. do 3 f_equal. lia.
Qed.

Section FCFSClock.

Variable mixed_add : Z -> float64 -> Z.

(** The loop serves processes of positive arrival time that have arrived
    back to back, as long as the clock does not overflow. *)
Lemma fcfs_fold_served ps : forall st,
  0 <= FCFS.serviceTime st ->
  FCFS.serviceTime st + total_burst ps <= Int64.max_int ->
  Forall (fun p => 0 < ArrivalTime p /\ 0 < BurstDuration p) ps ->
  no_idle (FCFS.serviceTime st) ps ->
  length (FCFS.rows st) = length (FCFS.slices st) ->
  row_services (FCFS.rows (fold_left (FCFS.step mixed_add) ps st))
               (FCFS.slices (fold_left (FCFS.step mixed_add) ps st))
  = row_services (FCFS.rows st) (FCFS.slices st)
    ++ served (FCFS.serviceTime st) ps.
Proof.
  induction ps as [|p ps IH]; intros st Hn Hb Hv Hi Hlen; simpl.
  - rewrite app_nil_r. reflexivity.
  - inversion Hv as [|? ? [Hpa Hpb] Hv']; subst. destruct Hi as [Ha Hi].
    rewrite total_burst_cons in Hb.
    pose proof (total_burst_nonneg ps
                  (Forall_impl _ (fun q (H : _ /\ _) => proj2 H) Hv')) as Hnn.
    unfold Int64.max_int in Hb.
    assert (Hclk : FCFS.serviceTime (FCFS.step mixed_add st p)
                   = FCFS.serviceTime st + BurstDuration p).
    { cbn. apply int64_add_small.
      unfold Int64.in_range, Int64.min_int, Int64.max_int. lia. }
    rewrite IH.
    + rewrite Hclk. unfold row_services.
      cbn [FCFS.step FCFS.rows FCFS.slices].
      apply Z.ltb_lt in Hpa. rewrite Hpa.
      rewrite combine_snoc by exact Hlen. rewrite map_app.
      cbn [map fst snd rowID rowWait rowExit Start].
      rewrite int64_completion.
      rewrite int64_sub_add_cancel
        by (unfold Int64.in_range, Int64.min_int, Int64.max_int; lia).
      apply Z.ltb_lt in Hpa.
      rewrite int64_sub_small
        by (unfold Int64.in_range, Int64.min_int, Int64.max_int; lia).
      rewrite int64_add_small
        by (unfold Int64.in_range, Int64.min_int, Int64.max_int; lia).
      rewrite <- app_assoc. reflexivity.
    + rewrite Hclk. lia.
    + rewrite Hclk. unfold Int64.max_int. lia.
    + exact Hv'.
    + rewrite Hclk. exact Hi.
    + cbn [FCFS.step FCFS.rows FCFS.slices]. rewrite !length_app. simpl. lia.
Qed.

End FCFSClock.

(** X8: when the first process arrives at 0, every later process has a
    positive arrival time and has arrived by the time the clock reaches it
    (the processor is never idle), and the total burst fits an int64,
    FCFSSchedule (lines 88-118) serves every process as the clock rule of
    section 4.1 of the spec says: same waiting time, start and completion
    for each process, in input order. *)
Theorem FCFS_follows_clock_rule_without_idle
  (mixed_add : Z -> float64 -> Z) ps :
  valid_processes ps ->
  Forall (fun p => 0 < ArrivalTime p) (tl ps) ->
  no_idle 0 ps ->
  total_burst ps <= Int64.max_int ->
  services (FCFS.FCFSSchedule mixed_add ps) = fcfs_clock_rule ps.
Proof.
  intros Hv Hpos Hi Hb. unfold fcfs_clock_rule.
  rewrite clock_rule_without_idle by exact Hi. cbn [snd app].
  destruct ps as [|p rest]; [reflexivity|].
  cbn [tl] in Hpos. destruct Hi as [Ha Hi].
  inversion Hv as [|? ? [Hpa Hpb] Hv']; subst.
  assert (He : ArrivalTime p = 0) by lia.
  rewrite total_burst_cons in Hb.
  assert (Hrest : Forall (fun q => 0 < ArrivalTime q /\ 0 < BurstDuration q) rest).
  { rewrite Forall_forall in *. intros q Hq. split; [auto|apply Hv', Hq]. }
  pose proof (total_burst_nonneg rest
                (Forall_impl _ (fun q (H : _ /\ _) => proj2 H) Hrest)) as Hnn.
  unfold Int64.max_int in Hb.
  change (services (FCFS.FCFSSchedule mixed_add (p :: rest)))
    with (row_services
            (FCFS.rows (fold_left (FCFS.step mixed_add) rest
                                  (FCFS.step mixed_add FCFS.init p)))
            (FCFS.slices (fold_left (FCFS.step mixed_add) rest
                                    (FCFS.step mixed_add FCFS.init p)))).
  assert (Hclk : FCFS.serviceTime (FCFS.step mixed_add FCFS.init p)
                 = 0 + BurstDuration p).
  { cbn. apply int64_add_small.
    unfold Int64.in_range, Int64.min_int, Int64.max_int. lia. }
  rewrite fcfs_fold_served.
  - rewrite Hclk. unfold row_services.
    cbn [FCFS.step FCFS.init FCFS.rows FCFS.slices FCFS.serviceTime
         FCFS.waitingTime app combine map fst snd rowID rowWait rowExit Start
         served].
    rewrite He. cbn [Z.ltb Z.compare].
    replace (Int64.add 0 0) with 0 by reflexivity.
    replace (Int64.add (Int64.add (BurstDuration p) 0) 0)
      with (0 + BurstDuration p).
    + reflexivity.
    + unfold Int64.add. rewrite !Z.add_0_r, Z.add_0_l.
      rewrite !int64_wrap_small; [reflexivity| |];
        try (apply int64_wrap_range);
        unfold Int64.in_range, Int64.min_int, Int64.max_int; lia.
  - rewrite Hclk. lia.
  - rewrite Hclk. unfold Int64.max_int. lia.
  - exact Hrest.
  - rewrite Hclk. exact Hi.
  - reflexivity.
Qed.

Lemma FCFS_follows_clock_rule_without_idle_witness :
  valid_processes spec_example
  /\ Forall (fun p => 0 < ArrivalTime p) (tl spec_example)
  /\ no_idle 0 spec_example
  /\ total_burst spec_example <= Int64.max_int
  /\ services (FCFS.FCFSSchedule (fun t _ => t) spec_example)
     = fcfs_clock_rule spec_example.
Proof.
  split; [exact spec_example_valid|].
  split; [repeat constructor|].
  split; [simpl; lia|].
  split; [vm_compute; discriminate|].
  apply (FCFS_follows_clock_rule_without_idle (fun t _ => t) spec_example).
  - exact spec_example_valid.
  - repeat constructor.
  - simpl; lia.
  - vm_compute; discriminate.
Defined.

(** ** A burst that is not positive *)

(** The readiness test of line 197 never passes a process whose burst is
    not positive, so the inner loop never removes it. *)
Lemma sjf_body_keeps_unready less st p :
  In p (Slice.view (SJF.processes st)) -> BurstDuration p <= 0 ->
  In p (Slice.view (SJF.processes (SJF.body less st))).
Proof.
  intros Hin Hb. unfold SJF.body.
  destruct (Slice.drain_all (SJF.ready (SJF.currentTime st))
              (SJF.processes st) (SJF.h st)) as [ps h1] eqn:Hd.
  apply drain_all_spec in Hd. destruct Hd as [Hv _].
  assert (Hp : In p (Slice.view ps)).
  { rewrite Hv. apply filter_In. split; [exact Hin|].
    unfold waiting, SJF.ready.
    replace (0 <? BurstDuration p) with false
      by (symmetry; apply Z.ltb_ge; exact Hb).
    rewrite andb_false_r. reflexivity. }
  destruct (Heap.Pop less h1) as [[q h2]|]; cbn [SJF.processes]; exact Hp.
Qed.

Lemma sjf_loop_with_unready less p : forall fuel st,
  In p (Slice.view (SJF.processes st)) -> BurstDuration p <= 0 ->
  SJF.loop less fuel st = None.
Proof.
  induction fuel as [|fuel IH]; intros st Hin Hb; cbn [SJF.loop];
    assert (Hc : SJF.continues st = true)
      by (unfold SJF.continues;
          destruct (Slice.view (SJF.processes st)); [destruct Hin|];
          cbn [length Nat.eqb negb]; apply orb_true_r);
    rewrite Hc; [reflexivity|].
  apply IH; [apply sjf_body_keeps_unready; assumption|exact Hb].
Qed.

(** X12: SJFSchedule does not return when a process of its input has a burst
    that is zero or negative: the test of line 197 never lets it into the
    heap, [processes] never empties, and the loop of line 195 goes on
    whatever the number of iterations. *)
Theorem SJF_never_returns_on_a_nonpositive_burst less ps p fuel :
  In p ps -> BurstDuration p <= 0 ->
  SJF.SJFSchedule less fuel ps = None.
Proof.
  intros Hin Hb. unfold SJF.SJFSchedule.
  rewrite (sjf_loop_with_unready less p fuel (SJF.init ps)); auto.
Qed.

Lemma SJF_never_returns_on_a_nonpositive_burst_witness :
  In (proc 2 0 1) [proc 1 3 0; proc 2 0 1]
  /\ BurstDuration (proc 2 0 1) <= 0
  /\ SJF.SJFSchedule Heap.sjf_less 1000 [proc 1 3 0; proc 2 0 1] = None.
Proof.
  split; [right; left; reflexivity|].
  split; [cbn; lia|].
  apply (SJF_never_returns_on_a_nonpositive_burst
           Heap.sjf_less [proc 1 3 0; proc 2 0 1] (proc 2 0 1) 1000).
  - right; left; reflexivity.
  - cbn; lia.
Defined.

(** ** The caller's backing array *)

Lemma moved_down_refl l : moved_down l l.
Proof. split; [reflexivity|]. intros j. exists j. auto. Qed.

Lemma moved_down_trans l1 l2 l3 :
  moved_down l1 l2 -> moved_down l2 l3 -> moved_down l1 l3.
Proof.
  intros [H1 H2] [H3 H4]. split; [congruence|].
  intros j. destruct (H4 j) as (k & Hk & ->).
  destruct (H2 k) as (k' & Hk' & ->). exists k'. split; [lia|reflexivity].
Qed.

(** One removal: cell [j] keeps its content, or takes that of cell
    [j + 1]. *)
Lemma remove_at_moved_down i s :
  (i < length (Slice.view s))%nat ->
  moved_down (Slice.backing s) (Slice.backing (Slice.remove_at i s)).
Proof.
  destruct s as [v b]. unfold Slice.backing, Slice.remove_at.
  cbn [Slice.view Slice.beyond]. intros Hi. split.
  - rewrite !length_app, length_firstn, !length_skipn. lia.
  - intros j.
    rewrite (nth_error_app (firstn i v ++ skipn (S i) v)),
      (nth_error_app (firstn i v)), (nth_error_app (skipn (length v - 1) v)),
      nth_error_firstn, !nth_error_skipn, length_app, length_firstn,
      !length_skipn.
    replace (Nat.min i (length v)) with i by lia.
    destruct (Nat.ltb_spec j (i + (length v - S i))) as [H0|H0].
    + destruct (Nat.ltb_spec j i) as [H1|H1].
      * exists j. split; [lia|]. rewrite nth_error_app1 by lia. reflexivity.
      * exists (S j). split; [lia|]. rewrite nth_error_app1 by lia.
        f_equal. lia.
    + exists j. split; [lia|].
      destruct (Nat.ltb_spec (j - (i + (length v - S i)))
                             (length v - (length v - 1))) as [H3|H3].
      * rewrite nth_error_app1 by lia. f_equal. lia.
      * rewrite nth_error_app2 by lia. f_equal. lia.
Qed.

Lemma drain_moved_down ready k : forall i s out,
  moved_down (Slice.backing s)
             (Slice.backing (fst (Slice.drain ready k i s out))).
Proof.
  induction k as [|k IH]; intros i s out; cbn [Slice.drain fst].
  - apply moved_down_refl.
  - destruct (nth_error (Slice.view s) i) as [p|] eqn:Hnth;
      [|apply moved_down_refl].
    destruct (ready p); [|apply IH].
    eapply moved_down_trans; [|apply IH].
    apply remove_at_moved_down. apply nth_error_Some. congruence.
Qed.

Lemma sjf_body_processes less st :
  SJF.processes (SJF.body less st)
  = fst (Slice.drain_all (SJF.ready (SJF.currentTime st))
                         (SJF.processes st) (SJF.h st)).
Proof.
  unfold SJF.body.
  destruct (Slice.drain_all _ _ _) as [ps h1]. cbn [fst].
  destruct (Heap.Pop less h1) as [[q h2]|]; reflexivity.
Qed.

Lemma rr_body_processes quantum st :
  RR.processes (RR.body quantum st)
  = fst (Slice.drain_all (RR.ready (RR.currentTime st))
                         (RR.processes st) (RR.queue st)).
Proof.
  unfold RR.body.
  destruct (Slice.drain_all _ _ _) as [ps q]. cbn [fst].
  destruct q as [|p q]; [reflexivity|].
  destruct (quantum <? BurstDuration p); reflexivity.
Qed.

Lemma sjf_loop_moved_down less : forall fuel st st',
  SJF.loop less fuel st = Some st' ->
  moved_down (Slice.backing (SJF.processes st))
             (Slice.backing (SJF.processes st')).
Proof.
  induction fuel as [|fuel IH]; intros st st'; cbn [SJF.loop];
    destruct (SJF.continues st); try discriminate;
    try (intros [= <-]; apply moved_down_refl).
  intros Hl. eapply moved_down_trans; [|apply (IH _ _ Hl)].
  rewrite sjf_body_processes. apply drain_moved_down.
Qed.

Lemma rr_loop_moved_down quantum : forall fuel st st',
  RR.loop quantum fuel st = Some st' ->
  moved_down (Slice.backing (RR.processes st))
             (Slice.backing (RR.processes st')).
Proof.
  induction fuel as [|fuel IH]; intros st st'; cbn [RR.loop];
    destruct (RR.continues st); try discriminate;
    try (intros [= <-]; apply moved_down_refl).
  intros Hl. eapply moved_down_trans; [|apply (IH _ _ Hl)].
  rewrite rr_body_processes. apply drain_moved_down.
Qed.

(** What [moved_down] says of the slice the caller reads again. *)
Lemma moved_down_callers_slice ps b :
  moved_down (ps ++ []) b ->
  length (firstn (length ps) b) = length ps
  /\ (forall j, exists k,
        (j <= k)%nat /\ nth_error (firstn (length ps) b) j = nth_error ps k)
  /\ nth_error (firstn (length ps) b) (length ps - 1)
     = nth_error ps (length ps - 1).
Proof.
  rewrite app_nil_r. intros [Hlen Hcells].
  rewrite <- Hlen, firstn_all. split; [reflexivity|]. split; [exact Hcells|].
  destruct (Hcells (length b - 1)%nat) as (k & Hk & Heq). rewrite Heq.
  destruct (nth_error ps k) eqn:Hps.
  - assert (k < length ps)%nat by (apply nth_error_Some; congruence).
    replace k with (length b - 1)%nat in Hps by lia. congruence.
  - symmetry. apply nth_error_None.
    apply nth_error_None in Heq. lia.
Qed.

(** X13: SJFSchedule writes into the array of the caller's slice only by
    moving cells towards the front (line 199): when it returns, the
    slice the caller still holds has its length, each of its cells holds
    a process that was at the same index or further back, and its last
    cell is as it was. *)
Theorem SJF_moves_callers_cells_down less fuel ps out :
  SJF.SJFSchedule less fuel ps = Some out ->
  length (callers_slice out) = length ps
  /\ (forall j, exists k,
        (j <= k)%nat /\ nth_error (callers_slice out) j = nth_error ps k)
  /\ nth_error (callers_slice out) (length ps - 1)
     = nth_error ps (length ps - 1).
Proof.
  unfold SJF.SJFSchedule.
  destruct (SJF.loop less fuel (SJF.init ps)) as [st|] eqn:Hl; [|discriminate].
  intros [= <-]. cbn [callers_slice].
  apply moved_down_callers_slice.
  exact (sjf_loop_moved_down less fuel _ _ Hl).
Qed.

Lemma SJF_moves_callers_cells_down_witness :
  exists out,
    SJF.SJFSchedule Heap.sjf_less 10 spec_example = Some out
    /\ length (callers_slice out) = length spec_example
    /\ (forall j, exists k,
          (j <= k)%nat
          /\ nth_error (callers_slice out) j = nth_error spec_example k)
    /\ nth_error (callers_slice out) (length spec_example - 1)
       = nth_error spec_example (length spec_example - 1).
Proof.
  eexists. split; [vm_compute; reflexivity|].
  apply (SJF_moves_callers_cells_down Heap.sjf_less 10 spec_example).
  vm_compute. reflexivity.
Defined.

(** X14: RRSchedule, whatever its quantum, writes into the array of the
    caller's slice only by moving cells towards the front (line 262):
    when it returns, the slice the caller still holds has its length,
    each of its cells holds a process that was at the same index or
    further back, and its last cell is as it was. *)
Theorem RR_moves_callers_cells_down quantum fuel ps out :
  RR.run quantum fuel ps = Some out ->
  length (callers_slice out) = length ps
  /\ (forall j, exists k,
        (j <= k)%nat /\ nth_error (callers_slice out) j = nth_error ps k)
  /\ nth_error (callers_slice out) (length ps - 1)
     = nth_error ps (length ps - 1).
Proof.
  unfold RR.run.
  destruct (RR.loop quantum fuel (RR.init ps)) as [st|] eqn:Hl; [|discriminate].
  intros [= <-]. cbn [callers_slice].
  apply moved_down_callers_slice.
  exact (rr_loop_moved_down quantum fuel _ _ Hl).
Qed.

Lemma RR_moves_callers_cells_down_witness :
  exists out,
    RR.run RR.timeQuantum 10 rr_example = Some out
    /\ length (callers_slice out) = length rr_example
    /\ (forall j, exists k,
          (j <= k)%nat
          /\ nth_error (callers_slice out) j = nth_error rr_example k)
    /\ nth_error (callers_slice out) (length rr_example - 1)
       = nth_error rr_example (length rr_example - 1).
Proof.
  eexists. split; [vm_compute; reflexivity|].
  apply (RR_moves_callers_cells_down RR.timeQuantum 10 rr_example).
  vm_compute. reflexivity.
Defined.

Lemma skipn_last (d : Process) : forall v p,
  skipn (length v) (p :: v) = [last (p :: v) d].
Proof.
  induction v as [|q v IH]; intros p; [reflexivity|].
  change (skipn (length (q :: v)) (p :: q :: v)) with (skipn (length v) (q :: v)).
  rewrite IH. reflexivity.
Qed.

(** When every process is ready the inner loop empties [processes], and
    every cell of the array it leaves behind holds the last process. *)
Lemma drain_every_ready ready (d : Process) : forall v b out k,
  Forall (fun p => ready p = true) v -> (length v <= k)%nat ->
  Slice.drain ready k 0 (Slice.mk v b) out
  = (Slice.mk [] (repeat (last v d) (length v) ++ b), out ++ v).
Proof.
  induction v as [|p v IH]; intros b out k Hr Hk.
  - rewrite app_nil_r. destruct k; reflexivity.
  - destruct k as [|k]; [cbn in Hk; lia|].
    cbn [Slice.drain Slice.view nth_error].
    rewrite (Forall_inv Hr).
    unfold Slice.remove_at. cbn [Slice.view Slice.beyond firstn app].
    change (skipn 1 (p :: v)) with v.
    replace (length (p :: v) - 1)%nat with (length v) by (cbn; lia).
    rewrite (skipn_last d), IH; [|exact (Forall_inv_tail Hr)|cbn in Hk; lia].
    rewrite <- app_assoc. f_equal. f_equal.
    destruct v as [|q v]; [reflexivity|].
    change (last (p :: q :: v) d) with (last (q :: v) d).
    change (repeat (last (q :: v) d) (length (p :: q :: v)))
      with (last (q :: v) d :: repeat (last (q :: v) d) (length (q :: v))).
    rewrite repeat_cons, <- app_assoc. reflexivity.
Qed.

Lemma sjf_loop_empty_view less : forall fuel st st',
  Slice.view (SJF.processes st) = [] ->
  SJF.loop less fuel st = Some st' -> SJF.processes st' = SJF.processes st.
Proof.
  induction fuel as [|fuel IH]; intros st st' Hv; cbn [SJF.loop];
    destruct (SJF.continues st); try discriminate;
    try (intros [= <-]; reflexivity).
  intros Hl.
  assert (Hb : SJF.processes (SJF.body less st) = SJF.processes st).
  { rewrite sjf_body_processes. unfold Slice.drain_all. rewrite Hv.
    reflexivity. }
  rewrite <- Hb. apply IH; [rewrite Hb; exact Hv|exact Hl].
Qed.

Lemma rr_loop_empty_view quantum : forall fuel st st',
  Slice.view (RR.processes st) = [] ->
  RR.loop quantum fuel st = Some st' -> RR.processes st' = RR.processes st.
Proof.
  induction fuel as [|fuel IH]; intros st st' Hv; cbn [RR.loop];
    destruct (RR.continues st); try discriminate;
    try (intros [= <-]; reflexivity).
  intros Hl.
  assert (Hb : RR.processes (RR.body quantum st) = RR.processes st).
  { rewrite rr_body_processes. unfold Slice.drain_all. rewrite Hv.
    reflexivity. }
  rewrite <- Hb. apply IH; [rewrite Hb; exact Hv|exact Hl].
Qed.

(** X15: when every process has arrived by time 0 (and, for SJFSchedule, has a
    positive burst), the first pass of the inner loop removes them all:
    after the call every cell of the caller's slice holds the process that
    was last in it. *)
Theorem all_arrived_leaves_copies_of_the_last ps d :
  Forall (fun p => ArrivalTime p <= 0 /\ 0 < BurstDuration p) ps ->
  (forall less fuel out,
     SJF.SJFSchedule less fuel ps = Some out ->
     callers_slice out = repeat (last ps d) (length ps))
  /\ (forall quantum fuel out,
        RR.run quantum fuel ps = Some out ->
        callers_slice out = repeat (last ps d) (length ps)).
Proof.
  intros Hall.
  assert (Hfirst : forall l : Process, firstn (length ps)
                               (repeat l (length ps) ++ []) = repeat l (length ps)).
  { intros l. rewrite app_nil_r.
    rewrite <- (repeat_length l (length ps)) at 1. apply firstn_all. }
  split.
  - intros less fuel out. unfold SJF.SJFSchedule.
    destruct (SJF.loop less fuel (SJF.init ps)) as [st|] eqn:Hl; [|discriminate].
    intros [= <-]. cbn [callers_slice].
    destruct ps as [|p ps']; [destruct fuel; injection Hl as <-; reflexivity|].
    destruct fuel as [|fuel]; [discriminate|].
    change (SJF.loop less (S fuel) (SJF.init (p :: ps')))
      with (SJF.loop less fuel (SJF.body less (SJF.init (p :: ps')))) in Hl.
    assert (Hb : SJF.processes (SJF.body less (SJF.init (p :: ps')))
                 = Slice.mk [] (repeat (last (p :: ps') d)
                                       (length (p :: ps')) ++ [])).
    { rewrite sjf_body_processes. unfold Slice.drain_all, SJF.init.
      cbn [SJF.processes SJF.currentTime SJF.h Slice.of_list Slice.view].
      unfold Slice.of_list.
      rewrite (drain_every_ready _ d); [reflexivity| |lia].
      eapply Forall_impl; [|exact Hall].
      intros q [Ha Hq]. unfold SJF.ready.
      apply andb_true_intro. split; [apply Z.leb_le|apply Z.ltb_lt]; assumption. }
    rewrite (sjf_loop_empty_view less fuel _ _ ltac:(rewrite Hb; reflexivity) Hl), Hb.
    unfold Slice.backing. cbn [Slice.view Slice.beyond app].
    apply Hfirst.
  - intros quantum fuel out. unfold RR.run.
    destruct (RR.loop quantum fuel (RR.init ps)) as [st|] eqn:Hl; [|discriminate].
    intros [= <-]. cbn [callers_slice].
    destruct ps as [|p ps']; [destruct fuel; injection Hl as <-; reflexivity|].
    destruct fuel as [|fuel]; [discriminate|].
    change (RR.loop quantum (S fuel) (RR.init (p :: ps')))
      with (RR.loop quantum fuel (RR.body quantum (RR.init (p :: ps')))) in Hl.
    assert (Hb : RR.processes (RR.body quantum (RR.init (p :: ps')))
                 = Slice.mk [] (repeat (last (p :: ps') d)
                                       (length (p :: ps')) ++ [])).
    { rewrite rr_body_processes. unfold Slice.drain_all, RR.init.
      cbn [RR.processes RR.currentTime RR.queue Slice.of_list Slice.view].
      unfold Slice.of_list.
      rewrite (drain_every_ready _ d); [reflexivity| |lia].
      eapply Forall_impl; [|exact Hall].
      intros q [Ha Hq]. unfold RR.ready. apply Z.leb_le. exact Ha. }
    rewrite (rr_loop_empty_view quantum fuel _ _ ltac:(rewrite Hb; reflexivity) Hl), Hb.
    unfold Slice.backing. cbn [Slice.view Slice.beyond app].
    apply Hfirst.
Qed.

Lemma all_arrived_leaves_copies_of_the_last_witness :
  Forall (fun p => ArrivalTime p <= 0 /\ 0 < BurstDuration p) rr_example
  /\ (forall less fuel out,
        SJF.SJFSchedule less fuel rr_example = Some out ->
        callers_slice out = repeat (last rr_example (proc 0 0 0))
                                   (length rr_example))
  /\ (forall quantum fuel out,
        RR.run quantum fuel rr_example = Some out ->
        callers_slice out = repeat (last rr_example (proc 0 0 0))
                                   (length rr_example)).
Proof.
  assert (H : Forall (fun p => ArrivalTime p <= 0 /\ 0 < BurstDuration p)
                     rr_example).
  { repeat constructor; cbn; lia. }
  split; [exact H|].
  exact (all_arrived_leaves_copies_of_the_last rr_example (proc 0 0 0) H).
Defined.

(** ** The unit-stepping declaration on every input *)

(** The loop of lines 148-152 pushes a copy of every ready process. *)
Lemma unit_step_pushes now : forall processes h,
  fold_left (fun h p => if SJFUnitStep.ready now p then Heap.Push h p else h)
            processes h
  = h ++ filter (SJFUnitStep.ready now) processes.
Proof.
  induction processes as [|p ps IH]; intros h; cbn [fold_left filter].
  - rewrite app_nil_r. reflexivity.
  - rewrite IH. destruct (SJFUnitStep.ready now p); [|reflexivity].
    unfold Heap.Push. rewrite <- app_assoc. reflexivity.
Qed.

Lemma unit_step_heap_stays_filled less processes r :
  In r processes -> ArrivalTime r <= 0 -> 0 < BurstDuration r ->
  forall n st,
    SJFUnitStep.h st <> [] -> 0 <= SJFUnitStep.currentTime st ->
    SJFUnitStep.currentTime st + Z.of_nat n <= Int64.max_int ->
    SJFUnitStep.loop less processes n st = None.
Proof.
  intros Hin Ha Hb.
  induction n as [|n IH]; intros st Hh Hn Hf; cbn [SJFUnitStep.loop];
    assert (Hc : SJFUnitStep.continues processes st = true)
      by (unfold SJFUnitStep.continues; destruct (SJFUnitStep.h st);
          [congruence|]; cbn [length Nat.eqb negb]; apply orb_true_r);
    rewrite Hc; [reflexivity|].
  assert (Hadd : Int64.add (SJFUnitStep.currentTime st) 1
                 = SJFUnitStep.currentTime st + 1).
  { apply int64_add_small.
    unfold Int64.in_range, Int64.min_int, Int64.max_int in *. lia. }
  assert (Hr : In r (filter (SJFUnitStep.ready (SJFUnitStep.currentTime st))
                            processes)).
  { apply filter_In. split; [exact Hin|]. unfold SJFUnitStep.ready.
    apply andb_true_intro. split; [apply Z.leb_le; lia|apply Z.ltb_lt; exact Hb]. }
  apply IH; unfold SJFUnitStep.body; rewrite unit_step_pushes;
    destruct (Heap.Pop less (SJFUnitStep.h st ++
                filter (SJFUnitStep.ready (SJFUnitStep.currentTime st)) processes))
      as [[q h2]|] eqn:Hpop;
    try (apply Pop_None in Hpop; apply app_eq_nil in Hpop; tauto);
    pose proof (Permutation_length (Pop_perm _ _ _ _ Hpop)) as Hlen;
    rewrite length_app in Hlen; cbn [length] in Hlen;
    destruct (BurstDuration (SJFUnitStep.tick q) =? 0);
    cbn [SJFUnitStep.h SJFUnitStep.currentTime]; rewrite ?Hadd; try lia.
  - intros ->. destruct (SJFUnitStep.h st); [congruence|].
    destruct (filter _ processes); [destruct Hr|]. cbn in Hlen. lia.
  - unfold Heap.Push. intros He. apply app_eq_nil in He.
    destruct He as [_ He]. discriminate.
Qed.

(** X16: the declaration of SJFSchedule at lines 130-180 does not return when
    the processes ready at time 0 carry two units of burst or more (two
    processes, or one with a burst of 2 or more), whatever the order
    [sort.Slice] leaves and whatever the comparator of the heap: every
    iteration pushes the ready processes again, so the heap is never empty
    once it has been filled.  The loop is still running after any number
    of iterations an int64 can count. *)
Theorem unit_step_never_returns_with_two_units_ready less processes fuel :
  2 <= total_burst (filter (SJFUnitStep.ready 0) processes) ->
  Forall (fun p => BurstDuration p <= Int64.max_int) processes ->
  Z.of_nat fuel <= Int64.max_int ->
  SJFUnitStep.run less processes fuel = None.
Proof.
  intros Htwo Hmax Hf. unfold SJFUnitStep.run.
  destruct (filter (SJFUnitStep.ready 0) processes) as [|r F] eqn:HF;
    [cbn in Htwo; lia|].
  assert (Hr : In r processes /\ SJFUnitStep.ready 0 r = true).
  { apply filter_In. rewrite HF. left. reflexivity. }
  destruct Hr as [Hin Hready]. unfold SJFUnitStep.ready in Hready.
  apply andb_prop in Hready. destruct Hready as [Ha Hb].
  apply Z.leb_le in Ha. apply Z.ltb_lt in Hb.
  assert (Hc : SJFUnitStep.continues processes SJFUnitStep.init = true).
  { unfold SJFUnitStep.continues, SJFUnitStep.init.
    cbn [SJFUnitStep.completed]. destruct processes; [destruct Hin|].
    reflexivity. }
  destruct fuel as [|fuel]; cbn [SJFUnitStep.loop]; rewrite Hc; [reflexivity|].
  rewrite (unit_step_heap_stays_filled less processes r Hin Ha Hb);
    [reflexivity| | |].
  - unfold SJFUnitStep.body, SJFUnitStep.init.
    cbn [SJFUnitStep.h SJFUnitStep.currentTime].
    rewrite unit_step_pushes, HF. cbn [app].
    destruct (Heap.Pop less (r :: F)) as [[q h2]|] eqn:Hpop;
      [|apply Pop_None in Hpop; discriminate].
    pose proof (Pop_perm _ _ _ _ Hpop) as Hperm.
    destruct (BurstDuration (SJFUnitStep.tick q) =? 0) eqn:Hz;
      cbn [SJFUnitStep.h].
    + intros ->. apply Z.eqb_eq in Hz.
      rewrite (total_burst_perm _ _ Hperm) in Htwo. cbn in Htwo.
      assert (Hq : In q processes).
      { apply (proj1 (filter_In (SJFUnitStep.ready 0) q processes)).
        rewrite HF. apply (Permutation_in _ (Permutation_sym Hperm)).
        left. reflexivity. }
      pose proof (proj1 (Forall_forall _ _) Hmax q Hq) as Hqm. cbn beta in Hqm.
      unfold SJFUnitStep.tick in Hz. cbn [BurstDuration] in Hz.
      rewrite int64_sub_small in Hz; [lia|].
      unfold Int64.in_range, Int64.min_int, Int64.max_int in *. lia.
    + unfold Heap.Push. intros He. apply app_eq_nil in He.
      destruct He as [_ He]. discriminate.
  - unfold SJFUnitStep.body, SJFUnitStep.init.
    cbn [SJFUnitStep.h SJFUnitStep.currentTime].
    rewrite unit_step_pushes, HF. cbn [app].
    destruct (Heap.Pop less (r :: F)) as [[q h2]|];
      [destruct (BurstDuration (SJFUnitStep.tick q) =? 0)|];
      cbn [SJFUnitStep.currentTime]; vm_compute; discriminate.
  - unfold SJFUnitStep.body, SJFUnitStep.init.
    cbn [SJFUnitStep.h SJFUnitStep.currentTime].
    rewrite unit_step_pushes, HF. cbn [app].
    destruct (Heap.Pop less (r :: F)) as [[q h2]|];
      [destruct (BurstDuration (SJFUnitStep.tick q) =? 0)|];
      cbn [SJFUnitStep.currentTime];
      change (Int64.add 0 1) with 1; lia.
Qed.

Lemma unit_step_never_returns_with_two_units_ready_witness :
  2 <= total_burst (filter (SJFUnitStep.ready 0) spec_example)
  /\ Forall (fun p => BurstDuration p <= Int64.max_int) spec_example
  /\ Z.of_nat 1000 <= Int64.max_int
  /\ SJFUnitStep.run Heap.sjf_less spec_example 1000 = None.
Proof.
  split; [vm_compute; discriminate|].
  split; [repeat constructor; vm_compute; discriminate|].
  split; [vm_compute; discriminate|].
  apply (unit_step_never_returns_with_two_units_ready
           Heap.sjf_less spec_example 1000).
  - vm_compute; discriminate.
  - repeat constructor; vm_compute; discriminate.
  - vm_compute; discriminate.
Defined.

(** ** Decimal text *)

Lemma string_append_assoc (a b c : string) :
  ((a ++ b) ++ c = a ++ (b ++ c))%string.
Proof. induction a as [|x a IH]; cbn; [reflexivity|]. rewrite IH. reflexivity. Qed.

Lemma string_length_append (a b : string) :
  String.length (a ++ b) = (String.length a + String.length b)%nat.
Proof. induction a as [|x a IH]; cbn; [reflexivity|]. rewrite IH. reflexivity. Qed.

Lemma string_append_nil_r (a : string) : (a ++ EmptyString)%string = a.
Proof. induction a as [|x a IH]; cbn; [reflexivity|]. rewrite IH. reflexivity. Qed.

(** The ten digit bytes: each reads back as its digit, and none is a sign. *)
Lemma digit_spec d :
  0 <= d <= 9 ->
  Strconv.is_digit (Text.digit d) = true
  /\ Z.of_nat (nat_of_ascii (Text.digit d)) - 48 = d
  /\ Ascii.eqb (Text.digit d) "-" = false
  /\ Ascii.eqb (Text.digit d) "+" = false.
Proof.
  intros Hd.
  assert (H : d = 0 \/ d = 1 \/ d = 2 \/ d = 3 \/ d = 4 \/ d = 5 \/ d = 6
              \/ d = 7 \/ d = 8 \/ d = 9) by lia.
  repeat (destruct H as [->|H]; [vm_compute; auto|]). subst d. vm_compute. auto.
Qed.

Lemma digits_append : forall fuel n acc,
  Text.digits fuel n acc = (Text.digits fuel n EmptyString ++ acc)%string.
Proof.
  induction fuel as [|fuel IH]; intros n acc; cbn [Text.digits]; [reflexivity|].
  destruct (n <? 10); [reflexivity|].
  rewrite (IH _ (String _ acc)), (IH _ (String _ EmptyString)), string_append_assoc.
  reflexivity.
Qed.

(** The text starts with a digit. *)
Lemma digits_head : forall fuel n acc,
  0 <= n ->
  exists d s, 0 <= d <= 9 /\ Text.digits fuel n acc = String (Text.digit d) s.
Proof.
  induction fuel as [|fuel IH]; intros n acc Hn; cbn [Text.digits].
  - exists (n mod 10), acc. split; [|reflexivity].
    pose proof (Z.mod_pos_bound n 10). lia.
  - destruct (n <? 10) eqn:Hlt.
    + exists (n mod 10), acc. split; [|reflexivity].
      pose proof (Z.mod_pos_bound n 10). lia.
    + apply IH. apply Z.div_pos; lia.
Qed.

(** Reading the digits of [n] gives [n] back. *)
Lemma ParseUint_loop_digits : forall fuel n s,
  0 <= n <= Strconv.maxUint64 -> n < 10 ^ Z.of_nat (S fuel) ->
  Strconv.ParseUint_loop (Text.digits fuel n s) 0 = Strconv.ParseUint_loop s n.
Proof.
  assert (Hstep : forall m d s,
            0 <= m -> 0 <= d <= 9 -> m * 10 + d <= Strconv.maxUint64 ->
            Strconv.ParseUint_loop (String (Text.digit d) s) m
            = Strconv.ParseUint_loop s (m * 10 + d)).
  { intros m d s Hm Hd Hmax. cbn [Strconv.ParseUint_loop].
    destruct (digit_spec d Hd) as (-> & -> & _).
    unfold Strconv.maxUint64 in *.
    replace (_ <=? m) with false
      by (symmetry; apply Z.leb_gt;
          change ((2 ^ 64 - 1) / 10 + 1) with 1844674407370955162; lia).
    cbv zeta.
    replace (_ <? m * 10 + d) with false by (symmetry; apply Z.ltb_ge; lia).
    reflexivity. }
  induction fuel as [|fuel IH]; intros n s Hn Hlt.
  - change (10 ^ Z.of_nat 1) with 10 in Hlt. cbn [Text.digits].
    rewrite Z.mod_small by lia. apply (Hstep 0 n s); lia.
  - cbn [Text.digits]. destruct (n <? 10) eqn:H10.
    + apply Z.ltb_lt in H10. rewrite Z.mod_small by lia.
      apply (Hstep 0 n s); lia.
    + apply Z.ltb_ge in H10.
      pose proof (Z.mod_pos_bound n 10 ltac:(lia)) as Hmod.
      pose proof (Z.div_mod n 10 ltac:(lia)) as Hdm.
      rewrite IH.
      * rewrite Hstep; [f_equal; lia|apply Z.div_pos; lia|lia|lia].
      * split; [apply Z.div_pos; lia|]. lia.
      * apply Z.div_lt_upper_bound; [lia|].
        rewrite <- Z.pow_succ_r by lia. rewrite <- Nat2Z.inj_succ. exact Hlt.
Qed.

Lemma ParseUint_digits n :
  0 <= n <= 2 ^ 63 ->
  Strconv.ParseUint (Text.digits 19 n EmptyString) = inl n.
Proof.
  intros Hn. unfold Strconv.ParseUint.
  destruct (digits_head 19 n EmptyString ltac:(lia)) as (d & s & _ & Hs).
  rewrite Hs, <- Hs. apply ParseUint_loop_digits.
  - unfold Strconv.maxUint64. lia.
  - change (10 ^ Z.of_nat 20) with 100000000000000000000. lia.
Qed.

(** What [fmt.Sprint] writes for an [int64], [strconv.ParseInt] reads
    back. *)
Lemma ParseInt_Sprint i :
  Int64.in_range i -> Strconv.ParseInt (Text.Sprint i) = inl i.
Proof.
  unfold Int64.in_range, Int64.min_int, Int64.max_int. intros Hi.
  unfold Text.Sprint. destruct (i <? 0) eqn:Hneg.
  - apply Z.ltb_lt in Hneg. unfold Strconv.ParseInt.
    change (Ascii.eqb "-" "-") with true. change (Ascii.eqb "-" "+") with false.
    cbn [orb negb andb]. rewrite ParseUint_digits by lia.
    replace (2 ^ 63 <? - i) with false by (symmetry; apply Z.ltb_ge; lia).
    f_equal. lia.
  - apply Z.ltb_ge in Hneg.
    destruct (digits_head 19 i EmptyString Hneg) as (d & s & Hd & Hs).
    pose proof (ParseUint_digits i ltac:(lia)) as Hp.
    rewrite Hs in *. unfold Strconv.ParseInt.
    destruct (digit_spec d Hd) as (_ & _ & -> & ->). cbn [orb negb andb].
    rewrite Hp.
    replace (2 ^ 63 <=? i) with false by (symmetry; apply Z.leb_gt; lia).
    reflexivity.
Qed.

(** ** Reading integers *)

Lemma ParseUint_loop_range : forall s n u,
  0 <= n <= Strconv.maxUint64 -> Strconv.ParseUint_loop s n = inl u ->
  0 <= u <= Strconv.maxUint64.
Proof.
  induction s as [|c s IH]; intros n u Hn; cbn [Strconv.ParseUint_loop].
  - intros [= <-]. exact Hn.
  - destruct (Strconv.is_digit c) eqn:Hd; [|discriminate].
    destruct (_ <=? n); [discriminate|]. cbv zeta.
    destruct (Strconv.maxUint64 <? _) eqn:Hmax; [discriminate|].
    apply Z.ltb_ge in Hmax.
    unfold Strconv.is_digit in Hd. apply andb_prop in Hd.
    destruct Hd as [H1 H2]. apply Nat.leb_le in H1, H2.
    apply IH. split; [lia|exact Hmax].
Qed.

(** [strconv.ParseInt] only returns values of [int64]. *)
Lemma ParseInt_in_range s i :
  Strconv.ParseInt s = inl i -> Int64.in_range i.
Proof.
  unfold Strconv.ParseInt. destruct s as [|c rest]; [discriminate|].
  set (s1 := if (Ascii.eqb c "+" || Ascii.eqb c "-")%bool then rest
             else String c rest).
  destruct (Strconv.ParseUint s1) as [u|[|]] eqn:Hp; try discriminate.
  - assert (Hu : 0 <= u).
    { unfold Strconv.ParseUint in Hp. destruct s1 as [|c1 r1]; [discriminate|].
      apply (ParseUint_loop_range _ 0 u) in Hp; [lia|].
      unfold Strconv.maxUint64. lia. }
    unfold Int64.in_range, Int64.min_int, Int64.max_int.
    destruct (Ascii.eqb c "-"); cbn [negb andb].
    + destruct (2 ^ 63 <? u) eqn:Hc; [discriminate|].
      apply Z.ltb_ge in Hc. intros [= <-]. lia.
    + destruct (2 ^ 63 <=? u) eqn:Hc; [discriminate|].
      apply Z.leb_gt in Hc. intros [= <-]. lia.
  - destruct (Ascii.eqb c "-"); cbn [negb andb].
    + change (2 ^ 63 <? Strconv.maxUint64) with true. discriminate.
    + change (2 ^ 63 <=? Strconv.maxUint64) with true. discriminate.
Qed.

(** X19: mustStrToInt (lines 362-370): it returns the [int64] written in [s],
    so it reads back what [fmt.Sprint] writes; it never panics, and
    when the text is not a number it ends the program with code 1 after
    printing the error of [strconv.ParseInt] for [s]. *)
Theorem mustStrToInt_reads_decimal_text :
  (forall i, Int64.in_range i -> mustStrToInt (Text.Sprint i) = Returns i)
  /\ (forall s i, mustStrToInt s = Returns i ->
        Int64.in_range i /\ Strconv.ParseInt s = inl i)
  /\ (forall s p, mustStrToInt s <> Panics p)
  /\ (forall s e c, mustStrToInt s = Exits e c ->
        c = 1 /\ exists cause,
          e = NumErr (Strconv.mkNumError "ParseInt" s cause)).
Proof.
  unfold mustStrToInt. split; [|split; [|split]].
  - intros i Hi. rewrite ParseInt_Sprint by assumption. reflexivity.
  - intros s i. destruct (Strconv.ParseInt s) eqn:Hp; [|discriminate].
    intros [= <-]. split; [eapply ParseInt_in_range, Hp|reflexivity].
  - intros s p. destruct (Strconv.ParseInt s); discriminate.
  - intros s e c.
    destruct (Strconv.ParseInt s) as [z|ne] eqn:Hp; [discriminate|].
    intros [= <- <-]. split; [reflexivity|]. revert Hp.
    unfold Strconv.ParseInt.
    destruct s as [|ch rest]; [intros [= <-]; eauto|].
    destruct (Strconv.ParseUint _) as [u|[|]];
      repeat match goal with
             | |- context [if ?b then _ else _] => destruct b
             end; intros [= <-]; eauto.
Qed.

(** ** Loading processes *)

Lemma field_returns row j i :
  (s <- index row j ;; mustStrToInt s) = Returns i <-> field_reads row j i.
Proof.
  unfold index, mustStrToInt, field_reads, bind.
  destruct (nth_error row j) as [s|].
  - destruct (Strconv.ParseInt s) as [z|ne] eqn:Hp; split.
    + intros [= <-]. eauto.
    + intros (s' & [= <-] & Hs). congruence.
    + discriminate.
    + intros (s' & [= <-] & Hs). congruence.
  - split; [discriminate|]. intros (s & Hs & _). discriminate.
Qed.

Lemma loadRow_returns row p : loadRow row = Returns p <-> reads_as row p.
Proof.
  unfold loadRow, reads_as.
  rewrite <- !field_returns.
  destruct (s <- index row 0 ;; mustStrToInt s) as [id| |];
    [|split; [discriminate|intros (H & _); discriminate]..].
  destruct (s <- index row 1 ;; mustStrToInt s) as [burst| |];
    [|split; [discriminate|intros (_ & H & _); discriminate]..].
  destruct (s <- index row 2 ;; mustStrToInt s) as [arrival| |];
    [|split; [discriminate|intros (_ & _ & H & _); discriminate]..].
  cbn [bind]. destruct (Nat.eqb (length row) 4).
  - rewrite <- field_returns.
    destruct (s <- index row 3 ;; mustStrToInt s) as [priority| |];
      [|split; [discriminate|intros (_ & _ & _ & H); discriminate]..].
    cbn [bind]. destruct p as [a b c d]; cbn. split.
    + intros [= <- <- <- <-]. auto.
    + intros ([= <-] & [= <-] & [= <-] & [= <-]). reflexivity.
  - destruct p as [a b c d]; cbn. split.
    + intros [= <- <- <- <-]. auto.
    + intros ([= <-] & [= <-] & [= <-] & <-). reflexivity.
Qed.

Lemma loadRows_returns : forall rows ps,
  loadRows rows = Returns ps <-> Forall2 reads_as rows ps.
Proof.
  induction rows as [|row rows IH]; intros ps; cbn [loadRows].
  - split; [intros [= <-]; constructor|]. intros H. inversion H. reflexivity.
  - split.
    + destruct (loadRow row) as [p| |] eqn:Hr; try discriminate. cbn [bind].
      destruct (loadRows rows) as [ps'| |] eqn:Hrs; try discriminate.
      intros [= <-]. constructor; [apply loadRow_returns, Hr|].
      apply IH. reflexivity.
    + intros H. inversion H as [|? p ? ps' Hp Hps]; subst.
      apply loadRow_returns in Hp. apply IH in Hps. rewrite Hp. cbn [bind].
      rewrite Hps. reflexivity.
Qed.

Lemma reads_as_int64 row p : reads_as row p -> int64_process p.
Proof.
  intros ((s0 & _ & H0) & (s1 & _ & H1) & (s2 & _ & H2) & H3).
  apply ParseInt_in_range in H0, H1, H2.
  split; [exact H0|split; [exact H2|split; [exact H1|]]].
  destruct (Nat.eqb (length row) 4).
  - destruct H3 as (s3 & _ & H3). apply ParseInt_in_range in H3. exact H3.
  - rewrite H3. vm_compute. split; discriminate.
Qed.

(** X20: loadProcesses (lines 343-360), when the CSV reader gave the records
    [rows], returns a slice and no error exactly when every record reads
    as a process: one process per record, in order, with processID, burst
    and arrival taken from the first three fields in this order, and the
    priority from the fourth field when the record has exactly four fields
    (0 otherwise, whatever the record holds past the third field).  The
    numbers are any [int64]: nothing is checked about their sign. *)
Theorem loadProcesses_returns_what_the_rows_read_as rows ps :
  (loadProcesses (inl rows) = Returns (ps, None)
   <-> Forall2 reads_as rows ps)
  /\ (Forall2 reads_as rows ps ->
      length ps = length rows /\ Forall int64_process ps).
Proof.
  split.
  - unfold loadProcesses. rewrite <- loadRows_returns.
    destruct (loadRows rows) as [ps'| |]; cbn [bind]; split;
      try discriminate; intros [= <-]; reflexivity.
  - intros H. split; [symmetry; eapply Forall2_length, H|].
    induction H as [|row p rows ps Hp _ IH]; constructor; [|exact IH].
    eapply reads_as_int64, Hp.
Qed.

Lemma loadRow_csv_record p :
  int64_process p -> loadRow (csv_record p) = Returns p.
Proof.
  intros (H1 & H2 & H3 & H4). apply loadRow_returns.
  unfold reads_as, field_reads, csv_record. cbn [length Nat.eqb nth_error].
  repeat split; eexists; (split; [reflexivity|apply ParseInt_Sprint; assumption]).
Qed.

Lemma loadRows_csv_records ps :
  Forall int64_process ps -> loadRows (map csv_record ps) = Returns ps.
Proof.
  intros Hps. apply loadRows_returns.
  induction Hps as [|p ps Hp _ IH]; cbn [map]; constructor; [|exact IH].
  apply loadRow_returns, loadRow_csv_record, Hp.
Qed.

(** X21: the round trip of the loader: the records that hold the four fields of each process,
    written by [fmt.Sprint] in the order processID, burst, arrival,
    priority, load as these processes, whatever [int64] values the fields
    have. *)
Theorem loadProcesses_reads_back_what_Sprint_writes ps :
  Forall int64_process ps ->
  loadProcesses (inl (map csv_record ps)) = Returns (ps, None).
Proof.
  intros Hps. unfold loadProcesses.
  rewrite loadRows_csv_records by exact Hps. reflexivity.
Qed.

Lemma loadProcesses_reads_back_what_Sprint_writes_witness :
  Forall int64_process [mkProcess 7 0 (-3) 2; mkProcess (-1) 4 5 0]
  /\ loadProcesses
       (inl [["7"; "-3"; "0"; "2"]; ["-1"; "5"; "4"; "0"]]%string)
     = Returns ([mkProcess 7 0 (-3) 2; mkProcess (-1) 4 5 0], None).
Proof.
  assert (H : Forall int64_process [mkProcess 7 0 (-3) 2; mkProcess (-1) 4 5 0]).
  { repeat constructor; vm_compute; discriminate. }
  split; [exact H|].
  exact (loadProcesses_reads_back_what_Sprint_writes _ H).
Defined.

Lemma field_fails row j :
  (forall pn, (s <- index row j ;; mustStrToInt s) = Panics pn ->
     (length row <= j)%nat /\ pn = IndexOutOfRange j (length row))
  /\ (forall e c, (s <- index row j ;; mustStrToInt s) = Exits e c ->
        c = 1 /\ exists s ne,
          nth_error row j = Some s /\ Strconv.ParseInt s = inr ne
          /\ e = NumErr ne)
  /\ (forall i, (s <- index row j ;; mustStrToInt s) = Returns i ->
        (j < length row)%nat).
Proof.
  unfold index, mustStrToInt, bind.
  destruct (nth_error row j) as [s|] eqn:Hn.
  - assert (j < length row)%nat by (apply nth_error_Some; congruence).
    destruct (Strconv.ParseInt s) as [z|ne] eqn:Hp;
      (split; [discriminate|split; [|auto]]); [discriminate|].
    intros e c [= <- <-]. eauto 6.
  - apply nth_error_None in Hn.
    split; [intros pn [= <-]; auto|]. split; discriminate.
Qed.

(** How reading one record fails. *)
Lemma loadRow_fails row :
  (forall pn, loadRow row = Panics pn ->
     (length row < 3)%nat /\ pn = IndexOutOfRange (length row) (length row))
  /\ (forall e c, loadRow row = Exits e c ->
        c = 1 /\ exists s ne,
          In s (firstn 4 row) /\ Strconv.ParseInt s = inr ne /\ e = NumErr ne).
Proof.
  assert (Hin : forall j s, (j < 4)%nat -> nth_error row j = Some s ->
                            In s (firstn 4 row)).
  { intros j s Hj Hs. apply (nth_error_In _ j).
    rewrite nth_error_firstn.
    destruct (Nat.ltb_spec j 4); [exact Hs|lia]. }
  unfold loadRow.
  destruct (field_fails row 0) as (P0 & E0 & R0).
  destruct (field_fails row 1) as (P1 & E1 & R1).
  destruct (field_fails row 2) as (P2 & E2 & R2).
  destruct (field_fails row 3) as (P3 & E3 & R3).
  destruct (s <- index row 0 ;; mustStrToInt s) as [id|pn0|e0 c0]; cbn [bind].
  2:{ split; [|discriminate]. intros pn [= <-].
      destruct (P0 _ eq_refl) as [Hl ->]. split; [lia|f_equal; lia]. }
  2:{ split; [discriminate|]. intros e c [= <- <-].
      destruct (E0 _ _ eq_refl) as (-> & s & ne & Hs & Hp & ->).
      split; [reflexivity|]. exists s, ne.
      split; [apply (Hin 0%nat); [lia|exact Hs]|auto]. }
  specialize (R0 _ eq_refl).
  destruct (s <- index row 1 ;; mustStrToInt s) as [burst|pn1|e1 c1]; cbn [bind].
  2:{ split; [|discriminate]. intros pn [= <-].
      destruct (P1 _ eq_refl) as [Hl ->]. split; [lia|f_equal; lia]. }
  2:{ split; [discriminate|]. intros e c [= <- <-].
      destruct (E1 _ _ eq_refl) as (-> & s & ne & Hs & Hp & ->).
      split; [reflexivity|]. exists s, ne.
      split; [apply (Hin 1%nat); [lia|exact Hs]|auto]. }
  specialize (R1 _ eq_refl).
  destruct (s <- index row 2 ;; mustStrToInt s) as [arrival|pn2|e2 c2]; cbn [bind].
  2:{ split; [|discriminate]. intros pn [= <-].
      destruct (P2 _ eq_refl) as [Hl ->]. split; [lia|f_equal; lia]. }
  2:{ split; [discriminate|]. intros e c [= <- <-].
      destruct (E2 _ _ eq_refl) as (-> & s & ne & Hs & Hp & ->).
      split; [reflexivity|]. exists s, ne.
      split; [apply (Hin 2%nat); [lia|exact Hs]|auto]. }
  specialize (R2 _ eq_refl).
  destruct (Nat.eqb_spec (length row) 4) as [H4|H4]; [|split; discriminate].
  destruct (s <- index row 3 ;; mustStrToInt s) as [priority|pn3|e3 c3]; cbn [bind].
  - split; discriminate.
  - split; [|discriminate]. intros pn [= <-].
    destruct (P3 _ eq_refl) as [Hl _]. lia.
  - split; [discriminate|]. intros e c [= <- <-].
    destruct (E3 _ _ eq_refl) as (-> & s & ne & Hs & Hp & ->).
    split; [reflexivity|]. exists s, ne.
    split; [apply (Hin 3%nat); [lia|exact Hs]|auto].
Qed.

Lemma loadRows_fails : forall rows,
  (forall pn, loadRows rows = Panics pn ->
     exists row, In row rows /\ (length row < 3)%nat
                 /\ pn = IndexOutOfRange (length row) (length row))
  /\ (forall e c, loadRows rows = Exits e c ->
        c = 1 /\ exists row s ne,
          In row rows /\ In s (firstn 4 row)
          /\ Strconv.ParseInt s = inr ne /\ e = NumErr ne).
Proof.
  induction rows as [|row rows [IHp IHe]]; cbn [loadRows];
    [split; discriminate|].
  destruct (loadRow_fails row) as [Pr Er].
  destruct (loadRow row) as [p|pn0|e0 c0]; cbn [bind].
  - destruct (loadRows rows) as [ps|pn1|e1 c1]; cbn [bind].
    + split; discriminate.
    + split; [|discriminate]. intros pn [= <-].
      destruct (IHp _ eq_refl) as (r & Hr & H). exists r. split; [right|]; auto.
    + split; [discriminate|]. intros e c [= <- <-].
      destruct (IHe _ _ eq_refl) as (-> & r & s & ne & Hr & H).
      split; [reflexivity|]. exists r, s, ne. split; [right|]; auto.
  - split; [|discriminate]. intros pn [= <-].
    exists row. split; [left; reflexivity|]. apply Pr. reflexivity.
  - split; [discriminate|]. intros e c [= <- <-].
    destruct (Er _ _ eq_refl) as (-> & s & ne & H).
    split; [reflexivity|]. exists row, s, ne. split; [left; reflexivity|]. exact H.
Qed.

(** X22: loadProcesses returns an error only when the CSV reader failed, and
    then it returns no process and wraps the reader's error with [%w], so
    that [Unwrap] and [errors.Is] reach it.  Records that were read never
    make it return an error. *)
Theorem loadProcesses_returns_only_the_readers_error :
  (forall read ps err,
     loadProcesses read = Returns (ps, Some err) ->
     ps = [] /\ exists cause,
       read = inr cause /\ Unwrap err = Some cause
       /\ forall target, Is err target = Is cause target)
  /\ (forall cause, exists err,
        loadProcesses (inr cause) = Returns ([], Some err)).
Proof.
  split.
  - intros read ps err. unfold loadProcesses.
    destruct read as [rows|cause].
    + destruct (loadRows rows); discriminate.
    + intros [= <- <-]. split; [reflexivity|]. exists cause.
      split; [reflexivity|]. split; reflexivity.
  - intros cause. eexists. reflexivity.
Qed.

(** X23: records that do not read as processes end the program instead:
    loadProcesses panics exactly on an index out of range, at the length
    of a record with fewer than three fields, and otherwise exits with
    code 1 on one of the first four fields of a record, which
    [strconv.ParseInt] refused.  When every record has three fields or
    more it cannot panic. *)
Theorem loadProcesses_stops_on_bad_records rows :
  (forall pn, loadProcesses (inl rows) = Panics pn ->
     exists row, In row rows /\ (length row < 3)%nat
                 /\ pn = IndexOutOfRange (length row) (length row))
  /\ (forall e c, loadProcesses (inl rows) = Exits e c ->
        c = 1 /\ exists row s ne,
          In row rows /\ In s (firstn 4 row)
          /\ Strconv.ParseInt s = inr ne /\ e = NumErr ne)
  /\ (Forall (fun row => (3 <= length row)%nat) rows ->
      forall pn, loadProcesses (inl rows) <> Panics pn).
Proof.
  destruct (loadRows_fails rows) as [Hp He]. unfold loadProcesses.
  assert (H1 : forall pn, (processes <- loadRows rows ;;
                           Returns (processes, @None error)) = Panics pn ->
               loadRows rows = Panics pn).
  { intros pn. destruct (loadRows rows); cbn [bind]; congruence. }
  split; [|split].
  - intros pn H. apply Hp, H1, H.
  - intros e c H. apply He. destruct (loadRows rows); cbn [bind] in *; congruence.
  - intros Hall pn H. destruct (Hp _ (H1 _ H)) as (row & Hin & Hlt & _).
    pose proof (proj1 (Forall_forall _ _) Hall row Hin) as Hge. cbn beta in Hge.
    lia.
Qed.

(** ** The width of decimal text *)

Lemma digits_length_gt : forall fuel n s,
  (String.length s < String.length (Text.digits fuel n s))%nat.
Proof.
  induction fuel as [|fuel IH]; intros n s; cbn [Text.digits]; [cbn; lia|].
  destruct (n <? 10); [cbn; lia|].
  eapply Nat.lt_trans; [|apply IH]. cbn. lia.
Qed.

Lemma pow10_succ k : 10 ^ Z.of_nat (S k) = 10 * 10 ^ Z.of_nat k.
Proof. rewrite Nat2Z.inj_succ, Z.pow_succ_r by lia. reflexivity. Qed.

Lemma pow10_pos k : 0 < 10 ^ Z.of_nat k.
Proof. apply Z.pow_pos_nonneg; lia. Qed.

(** A number below [10 ^ (k + 1)] has [k + 1] digits at most. *)
Lemma digits_length_le : forall fuel n s k,
  0 <= n < 10 ^ Z.of_nat (S k) ->
  (String.length (Text.digits fuel n s) <= S k + String.length s)%nat.
Proof.
  induction fuel as [|fuel IH]; intros n s k Hn; cbn [Text.digits];
    [cbn; lia|].
  destruct (n <? 10) eqn:H10; [cbn; lia|]. apply Z.ltb_ge in H10.
  destruct k as [|k]; [change (10 ^ Z.of_nat 1) with 10 in Hn; lia|].
  eapply Nat.le_trans; [apply (IH _ _ k)|cbn; lia].
  split; [apply Z.div_pos; lia|].
  apply Z.div_lt_upper_bound; [lia|]. rewrite <- pow10_succ. apply Hn.
Qed.

(** A number from [10 ^ k] on has more than [k] digits. *)
Lemma digits_length_ge : forall fuel n s k,
  10 ^ Z.of_nat k <= n < 10 ^ Z.of_nat (S fuel) ->
  (S k + String.length s <= String.length (Text.digits fuel n s))%nat.
Proof.
  induction fuel as [|fuel IH]; intros n s k Hn.
  - destruct k as [|k]; [cbn; lia|].
    rewrite pow10_succ in Hn. change (10 ^ Z.of_nat 1) with 10 in Hn.
    pose proof (pow10_pos k). lia.
  - destruct k as [|k]; [pose proof (digits_length_gt (S fuel) n s); lia|].
    cbn [Text.digits].
    rewrite (pow10_succ k) in Hn. pose proof (pow10_pos k).
    destruct (n <? 10) eqn:H10; [apply Z.ltb_lt in H10; lia|].
    eapply Nat.le_trans; [|apply (IH _ _ k)]; [cbn; lia|].
    split; [apply Z.div_le_lower_bound; lia|].
    apply Z.div_lt_upper_bound; [lia|]. rewrite <- pow10_succ. apply Hn.
Qed.

(** The text of an [int64] has 9 bytes at most exactly when the number
    lies strictly between [-10^8] and [10^9]. *)
Lemma Sprint_narrow i :
  Int64.in_range i -> (Text.len (Text.Sprint i) <= 9 <-> narrow i).
Proof.
  unfold Int64.in_range, Int64.min_int, Int64.max_int, narrow, Text.len,
    Text.Sprint.
  intros Hi.
  assert (H20 : 2 ^ 63 < 10 ^ Z.of_nat 20) by (vm_compute; reflexivity).
  destruct (i <? 0) eqn:Hneg; cbn [String.length].
  - apply Z.ltb_lt in Hneg. split.
    + intros Hlen. split; [|lia].
      destruct (Z_lt_le_dec (- i) (10 ^ 8)) as [H|H]; [lia|].
      pose proof (digits_length_ge 19 (- i) EmptyString 8) as Hge.
      change (10 ^ Z.of_nat 8) with (10 ^ 8) in Hge.
      specialize (Hge ltac:(lia)). cbn [String.length] in Hge. lia.
    + intros [Hlo _].
      pose proof (digits_length_le 19 (- i) EmptyString 7) as Hle.
      change (10 ^ Z.of_nat 8) with (10 ^ 8) in Hle.
      specialize (Hle ltac:(lia)). cbn [String.length] in Hle. lia.
  - apply Z.ltb_ge in Hneg. split.
    + intros Hlen. split; [lia|].
      destruct (Z_lt_le_dec i (10 ^ 9)) as [H|H]; [lia|].
      pose proof (digits_length_ge 19 i EmptyString 9) as Hge.
      change (10 ^ Z.of_nat 9) with (10 ^ 9) in Hge.
      specialize (Hge ltac:(lia)). cbn [String.length] in Hge. lia.
    + intros [_ Hhi].
      pose proof (digits_length_le 19 i EmptyString 8) as Hle.
      change (10 ^ Z.of_nat 9) with (10 ^ 9) in Hle.
      specialize (Hle ltac:(lia)). cbn [String.length] in Hle. lia.
Qed.

Lemma Sprint_not_empty i : 1 <= Text.len (Text.Sprint i).
Proof.
  unfold Text.len, Text.Sprint. destruct (i <? 0); cbn [String.length].
  - lia.
  - pose proof (digits_length_gt 19 i EmptyString). lia.
Qed.

(** ** Repeating, and the quotient that truncates *)

Lemma quot2_spec a :
  (0 <= a -> 2 * Z.quot a 2 <= a < 2 * Z.quot a 2 + 2)
  /\ (a <= 0 -> 2 * Z.quot a 2 - 2 < a <= 2 * Z.quot a 2).
Proof.
  pose proof (Z.quot_rem' a 2) as Hq. split; intros Ha.
  - pose proof (Z.rem_bound_pos_pos a 2 ltac:(lia) Ha). lia.
  - pose proof (Z.rem_bound_pos_neg a 2 ltac:(lia) Ha). lia.
Qed.

Lemma iter_append_length s : forall n,
  String.length (Nat.iter n (String.append s) EmptyString)
  = (n * String.length s)%nat.
Proof.
  induction n as [|n IH]; [reflexivity|].
  rewrite Nat.iter_succ, string_length_append, IH. lia.
Qed.

Lemma Repeat_spec s count :
  (count < 0 -> Repeat s count = (EmptyString, Panics NegativeRepeatCount))
  /\ (0 <= count -> exists r,
        Repeat s count = (EmptyString, Returns r)
        /\ Text.len r = count * Text.len s).
Proof.
  unfold Repeat, Text.Repeat. split; intros Hc.
  - replace (count <? 0) with true by (symmetry; apply Z.ltb_lt; exact Hc).
    reflexivity.
  - replace (count <? 0) with false by (symmetry; apply Z.ltb_ge; exact Hc).
    eexists. split; [reflexivity|].
    unfold Text.len. rewrite iter_append_length. lia.
Qed.

(** ** The output helpers *)

Lemma outputTitle_returns title :
  exists text, outputTitle title = (text, Returns tt).
Proof.
  assert (Hn : 0 <= Text.len title) by (unfold Text.len; lia).
  destruct (Repeat_spec "-" (Text.len title * 2)) as [_ Hr].
  destruct (Hr ltac:(lia)) as (rule & Hrule & _).
  destruct (quot2_spec (Text.len title)) as [Hq _]. specialize (Hq Hn).
  destruct (Repeat_spec " " (Z.quot (Text.len title) 2)) as [_ Hi].
  destruct (Hi ltac:(lia)) as (indent & Hindent & _).
  unfold outputTitle. rewrite Hrule, Hindent. unfold wbind, Fprint.
  eexists. reflexivity.
Qed.

(** X24: outputTitle (lines 301-305) never panics: it writes a rule of
    dashes twice as long as the title, the title after [len(title)/2]
    spaces and one more (the separator of [Fprintln]), and the rule
    again.  The title line is not longer than the rules unless the title
    is empty. *)
Theorem outputTitle_writes_a_banner title :
  exists rule indent,
    outputTitle title
    = ((rule ++ Text.newline ++ indent ++ " " ++ title ++ Text.newline
        ++ rule ++ Text.newline)%string, Returns tt)
    /\ Text.len rule = 2 * Text.len title
    /\ 2 * Text.len indent <= Text.len title < 2 * Text.len indent + 2
    /\ (1 <= Text.len title ->
        Text.len (indent ++ " " ++ title) <= Text.len rule).
Proof.
  assert (Hn : 0 <= Text.len title) by (unfold Text.len; lia).
  destruct (Repeat_spec "-" (Text.len title * 2)) as [_ Hr].
  destruct (Hr ltac:(lia)) as (rule & Hrule & Hlr).
  destruct (quot2_spec (Text.len title)) as [Hq _]. specialize (Hq Hn).
  destruct (Repeat_spec " " (Z.quot (Text.len title) 2)) as [_ Hi].
  destruct (Hi ltac:(lia)) as (indent & Hindent & Hli).
  change (Text.len "-") with 1 in Hlr. change (Text.len " ") with 1 in Hli.
  exists rule, indent. split; [|split; [lia|split; [lia|]]].
  - unfold outputTitle. rewrite Hrule, Hindent. unfold wbind, Fprint.
    repeat (rewrite ?string_append_assoc; cbn [String.append]).
    reflexivity.
  - intros H1. unfold Text.len in *.
    rewrite !string_length_append. cbn [String.length]. lia.
Qed.

Lemma cell_width_spec pid :
  Text.len (Text.Sprint pid) <= 9 ->
  2 * Z.quot (8 - Text.len (Text.Sprint pid)) 2 + Text.len (Text.Sprint pid) + 1
  = cell_width pid
  /\ 0 <= Z.quot (8 - Text.len (Text.Sprint pid)) 2.
Proof.
  unfold cell_width. pose proof (Sprint_not_empty pid) as H1.
  set (n := Text.len (Text.Sprint pid)) in *. intros H9.
  destruct (Z.eqb_spec n 9) as [->|Hne]; [vm_compute; split; [reflexivity|discriminate]|].
  destruct (quot2_spec (8 - n)) as [Hq _]. specialize (Hq ltac:(lia)).
  destruct (Z.even n) eqn:He.
  - apply Z.even_spec in He. destruct He as [k Hk]. lia.
  - rewrite <- Z.negb_odd in He. apply negb_false_iff, Z.odd_spec in He.
    destruct He as [k Hk]. lia.
Qed.

(** The first line of the chart, slice by slice. *)
Lemma gantt_cells_spec : forall g,
  Forall (fun s => Int64.in_range (PID s)) g ->
  (Forall (fun s => narrow (PID s)) g ->
   snd (gantt_cells g) = Returns tt
   /\ Text.len (fst (gantt_cells g))
      = fold_right (fun s acc => cell_width (PID s) + acc) 0 g)
  /\ (snd (gantt_cells g) = Returns tt ->
      Forall (fun s => narrow (PID s)) g)
  /\ (snd (gantt_cells g) = Returns tt
      \/ snd (gantt_cells g) = Panics NegativeRepeatCount).
Proof.
  induction g as [|s rest IH]; intros Hr.
  - cbn. repeat split; auto.
  - pose proof (Forall_inv Hr) as Hs.
    destruct (IH (Forall_inv_tail Hr)) as (IH1 & IH2 & IH3).
    pose proof (Sprint_narrow (PID s) Hs) as Hw.
    cbn [gantt_cells].
    set (pid := Text.Sprint (PID s)) in *.
    destruct (Z_le_gt_dec (Text.len pid) 9) as [H9|H9].
    + destruct (cell_width_spec (PID s) H9) as [Hcw Hq]. fold pid in Hcw, Hq.
      destruct (Repeat_spec " " (Z.quot (8 - Text.len pid) 2)) as [_ Hrep].
      destruct (Hrep Hq) as (padding & -> & Hlp).
      change (Text.len " ") with 1 in Hlp.
      unfold wbind, Fprint.
      destruct (gantt_cells rest) as [out c]. cbn [fst snd] in *.
      cbn [String.append]. split; [|split].
      * intros Hall. destruct (IH1 (Forall_inv_tail Hall)) as [-> Hlen].
        split; [reflexivity|]. cbn [fold_right]. rewrite <- Hlen, <- Hcw.
        unfold Text.len in *. rewrite !string_length_append.
        cbn [String.length]. lia.
      * intros Hc. constructor; [apply Hw, H9|apply IH2, Hc].
      * exact IH3.
    + destruct (quot2_spec (8 - Text.len pid)) as [_ Hq].
      specialize (Hq ltac:(lia)).
      destruct (Repeat_spec " " (Z.quot (8 - Text.len pid) 2)) as [Hrep _].
      rewrite (Hrep ltac:(lia)). cbn [wbind fst snd]. split; [|split].
      * intros Hall. apply Forall_inv in Hall. apply Hw in Hall. lia.
      * discriminate.
      * right. reflexivity.
Qed.

Lemma outputGantt_snd gantt :
  snd (outputGantt gantt) = snd (gantt_cells gantt).
Proof.
  unfold outputGantt, wbind, Fprint.
  destruct (gantt_cells gantt) as [cells [[]|p|e c]]; reflexivity.
Qed.

(** X25: outputGantt (lines 307-323) returns exactly when the text of every
    processID has 9 bytes at most, that is when every processID lies
    strictly between -10^8 and 10^9.  Otherwise [strings.Repeat] gets a
    negative count at line 312 and the helper panics, having written the
    chart up to the cell before. *)
Theorem outputGantt_panics_on_a_wide_id gantt :
  Forall (fun s => Int64.in_range (PID s)) gantt ->
  (snd (outputGantt gantt) = Returns tt
   <-> Forall (fun s => narrow (PID s)) gantt)
  /\ (snd (outputGantt gantt) = Returns tt
      \/ snd (outputGantt gantt) = Panics NegativeRepeatCount).
Proof.
  intros Hr. rewrite outputGantt_snd.
  destruct (gantt_cells_spec gantt Hr) as (H1 & H2 & H3).
  split; [split; [exact H2|apply H1]|exact H3].
Qed.

Lemma outputGantt_panics_on_a_wide_id_witness :
  Forall (fun s => Int64.in_range (PID s))
         [mkTimeSlice 1 0 5; mkTimeSlice 1234567890 5 8]
  /\ (snd (outputGantt [mkTimeSlice 1 0 5; mkTimeSlice 1234567890 5 8])
      = Returns tt
      <-> Forall (fun s => narrow (PID s))
                 [mkTimeSlice 1 0 5; mkTimeSlice 1234567890 5 8])
  /\ (snd (outputGantt [mkTimeSlice 1 0 5; mkTimeSlice 1234567890 5 8])
      = Returns tt
      \/ snd (outputGantt [mkTimeSlice 1 0 5; mkTimeSlice 1234567890 5 8])
         = Panics NegativeRepeatCount).
Proof.
  assert (H : Forall (fun s => Int64.in_range (PID s))
                     [mkTimeSlice 1 0 5; mkTimeSlice 1234567890 5 8]).
  { repeat constructor; vm_compute; discriminate. }
  split; [exact H|].
  exact (outputGantt_panics_on_a_wide_id _ H).
Defined.

(** X26: the cells of the first line of the chart do not all have one width:
    when outputGantt returns, the cell of a slice, its bar included, has
    8 bytes for a processID whose text has an odd number of bytes, 9 for
    an even number, and 10 for a text of 9 bytes. *)
Theorem outputGantt_cell_widths gantt :
  Forall (fun s => Int64.in_range (PID s)) gantt ->
  Forall (fun s => narrow (PID s)) gantt ->
  Text.len (fst (gantt_cells gantt))
  = fold_right (fun s acc => cell_width (PID s) + acc) 0 gantt
  /\ Forall (fun s => 8 <= cell_width (PID s) <= 10) gantt.
Proof.
  intros Hr Hn. destruct (gantt_cells_spec gantt Hr) as (H1 & _).
  split; [apply H1, Hn|].
  apply Forall_forall. intros s _. unfold cell_width.
  destruct (_ =? 9); [lia|]. destruct (Z.even _); lia.
Qed.

Lemma outputGantt_cell_widths_witness :
  Forall (fun s => Int64.in_range (PID s))
         [mkTimeSlice 1 0 5; mkTimeSlice 22 5 8]
  /\ Forall (fun s => narrow (PID s)) [mkTimeSlice 1 0 5; mkTimeSlice 22 5 8]
  /\ Text.len (fst (gantt_cells [mkTimeSlice 1 0 5; mkTimeSlice 22 5 8]))
     = fold_right (fun s acc => cell_width (PID s) + acc) 0
                  [mkTimeSlice 1 0 5; mkTimeSlice 22 5 8]
  /\ Forall (fun s => 8 <= cell_width (PID s) <= 10)
            [mkTimeSlice 1 0 5; mkTimeSlice 22 5 8].
Proof.
  assert (H1 : Forall (fun s => Int64.in_range (PID s))
                      [mkTimeSlice 1 0 5; mkTimeSlice 22 5 8]).
  { repeat constructor; vm_compute; discriminate. }
  assert (H2 : Forall (fun s => narrow (PID s))
                      [mkTimeSlice 1 0 5; mkTimeSlice 22 5 8]).
  { repeat constructor; vm_compute; reflexivity. }
  split; [exact H1|]. split; [exact H2|].
  exact (outputGantt_cell_widths _ H1 H2).
Defined.

Lemma gantt_cells_ids : forall g g',
  map PID g = map PID g' -> gantt_cells g = gantt_cells g'.
Proof.
  induction g as [|s g IH]; intros [|s' g'] H; try discriminate;
    [reflexivity|].
  cbn [map] in H. injection H as Hs Hg. cbn [gantt_cells].
  rewrite Hs, (IH _ Hg). reflexivity.
Qed.

Lemma gantt_times_starts : forall g g',
  map Start g = map Start g' ->
  last (map Stop g) 0 = last (map Stop g') 0 ->
  gantt_times g = gantt_times g'.
Proof.
  induction g as [|s g IH]; intros [|s' g'] H Hl; try discriminate;
    [reflexivity|].
  cbn [map] in H. injection H as Hs Hg. cbn [gantt_times]. rewrite Hs.
  destruct g as [|x g]; destruct g' as [|x' g']; try discriminate.
  - cbn in Hl. rewrite Hl. reflexivity.
  - rewrite (IH (x' :: g') Hg); [reflexivity|]. exact Hl.
Qed.

(** X27: outputGantt prints the stop of the last slice only: two timelines
    with the same processIDs, the same starts and the same last stop give
    the same chart, so a gap or an overlap between two slices does not
    show. *)
Theorem outputGantt_shows_only_the_last_stop g g' :
  map PID g = map PID g' -> map Start g = map Start g' ->
  last (map Stop g) 0 = last (map Stop g') 0 ->
  outputGantt g = outputGantt g'.
Proof.
  intros Hp Hs Hl. unfold outputGantt.
  rewrite (gantt_cells_ids _ _ Hp), (gantt_times_starts _ _ Hs Hl).
  reflexivity.
Qed.

Lemma outputGantt_shows_only_the_last_stop_witness :
  map PID [mkTimeSlice 1 0 5; mkTimeSlice 2 0 8]
  = map PID [mkTimeSlice 1 0 3; mkTimeSlice 2 0 8]
  /\ map Start [mkTimeSlice 1 0 5; mkTimeSlice 2 0 8]
     = map Start [mkTimeSlice 1 0 3; mkTimeSlice 2 0 8]
  /\ last (map Stop [mkTimeSlice 1 0 5; mkTimeSlice 2 0 8]) 0
     = last (map Stop [mkTimeSlice 1 0 3; mkTimeSlice 2 0 8]) 0
  /\ outputGantt [mkTimeSlice 1 0 5; mkTimeSlice 2 0 8]
     = outputGantt [mkTimeSlice 1 0 3; mkTimeSlice 2 0 8].
Proof.
  split; [reflexivity|]. split; [reflexivity|]. split; [reflexivity|].
  apply (outputGantt_shows_only_the_last_stop
           [mkTimeSlice 1 0 5; mkTimeSlice 2 0 8]
           [mkTimeSlice 1 0 3; mkTimeSlice 2 0 8]); reflexivity.
Defined.

(** ** The program around the policies *)

(** X28: openProcessingFile (lines 40-56): without exactly two arguments it
    opens nothing and returns an error that wraps [ErrInvalidArgs]
    (with [%w]); when [os.Open] fails on the second argument it returns
    an error made with [%v], which carries the text of the cause but
    does not wrap it: [Unwrap] gives nothing and [errors.Is] finds no
    target; otherwise it returns the file opened and the function that
    closes it. *)
Theorem openProcessingFile_errors W args :
  (length args <> 2%nat ->
   exists err,
     openProcessingFile W args = inr err
     /\ Unwrap err = Some ErrInvalidArgs /\ Is err ErrInvalidArgs = true)
  /\ (forall prog path cause,
        args = [prog; path] -> os_Open W path = inr cause ->
        exists err,
          openProcessingFile W args = inr err
          /\ Unwrap err = None /\ forall target, Is err target = false)
  /\ (forall prog path f,
        args = [prog; path] -> os_Open W path = inl f ->
        openProcessingFile W args = inl (f, closeFn W f)).
Proof.
  split; [|split].
  - intros Hlen.
    destruct args as [|a [|b [|c args]]]; cbn in Hlen; try lia;
      (eexists; split; [reflexivity|split; reflexivity]).
  - intros prog path cause -> Ho. cbn [openProcessingFile]. rewrite Ho.
    eexists. split; [reflexivity|]. split; [reflexivity|].
    intros target. destruct target; reflexivity.
  - intros prog path f -> Ho. cbn [openProcessingFile]. rewrite Ho.
    reflexivity.
Qed.

Lemma openProcessingFile_cases W args :
  (exists err,
     openProcessingFile W args = inr err
     /\ ((length args <> 2%nat /\ Is err ErrInvalidArgs = true)
         \/ exists prog path cause,
              args = [prog; path] /\ os_Open W path = inr cause))
  \/ (exists prog path f,
        args = [prog; path] /\ os_Open W path = inl f
        /\ openProcessingFile W args = inl (f, closeFn W f)).
Proof.
  destruct args as [|a [|b [|c args]]];
    try (left; eexists; split; [reflexivity|];
         left; split; [cbn; lia|reflexivity]).
  cbn [openProcessingFile].
  destruct (os_Open W b) as [f|cause] eqn:Ho.
  - right. exists a, b, f. auto.
  - left. eexists. split; [reflexivity|]. right. exists a, b, cause. auto.
Qed.


Lemma output_snd W title r :
  snd (output W title r) = snd (outputGantt (gantt r)).
Proof.
  unfold output. destruct (outputTitle_returns title) as (text & ->).
  unfold wbind at 1.
  destruct (outputGantt (gantt r)) as [o [[]|p|e c]]; reflexivity.
Qed.

Lemma output_returns W title r :
  Forall Int64.in_range (map PID (gantt r)) ->
  Forall narrow (map PID (gantt r)) ->
  output W title r = (fst (output W title r), Returns tt).
Proof.
  rewrite !Forall_map. intros Hr Hn.
  destruct (gantt_cells_spec (gantt r) Hr) as (H1 & _).
  destruct (H1 Hn) as [Hc _].
  pose proof (output_snd W title r) as Hs.
  rewrite outputGantt_snd, Hc in Hs.
  destruct (output W title r) as [out c]. cbn [fst snd] in *. congruence.
Qed.

Lemma Forall_perm_map {A B} (P : B -> Prop) (f : A -> B) l1 l2 :
  Permutation l1 l2 -> Forall P (map f l2) -> Forall P (map f l1).
Proof.
  intros Hp H. rewrite Forall_map in *. rewrite Forall_forall in *.
  intros x Hx. apply H. eapply Permutation_in; eauto.
Qed.

(** X29: main (lines 16-38) end to end: called with one argument that names
    a file which opens, closes, and holds the records of a valid process
    set whose processIDs lie strictly between -10^8 and 10^9, main returns
    after writing the report of FCFSSchedule and then the report of
    SJFSchedule, both for the process set of the file: [FCFSSchedule]
    leaves the slice as loaded, and [SJFSchedule] ends on it. *)
Theorem main_prints_both_schedules W mixed_add less ps prog path f :
  os_Open W path = inl f ->
  ReadAll W f = inl (map csv_record ps) ->
  Close W f = None ->
  Forall int64_process ps ->
  valid_processes ps -> horizon ps <= Int64.max_int ->
  Forall (fun p => narrow (ProcessID p)) ps ->
  forall fuel, (Z.to_nat (horizon ps) <= fuel)%nat ->
  exists sjf,
    SJF.SJFSchedule less fuel ps = Some sjf
    /\ main W mixed_add less fuel [prog; path]
       = Some ((fst (output W "First-come, first-serve"
                            (FCFS.FCFSSchedule mixed_add ps))
                ++ fst (output W "Shortest-job-first" (reported sjf)))%string,
               Returns tt).
Proof.
  intros Ho Hread Hclose Hint Hv Hb Hnarrow fuel Hf.
  assert (Hids : Forall Int64.in_range (map ProcessID ps)
                 /\ Forall narrow (map ProcessID ps)).
  { rewrite !Forall_map. split; [|exact Hnarrow].
    eapply Forall_impl; [|exact Hint]. intros p Hp. apply Hp. }
  destruct Hids as [Hr Hn].
  destruct (SJF_report_of_valid_set less ps Hv Hb) as (order & Hperm & _ & Hrep).
  specialize (Hrep fuel Hf).
  destruct (SJF.SJFSchedule less fuel ps) as [sjf|] eqn:Hsjf; [|discriminate].
  cbn [option_map] in Hrep. injection Hrep as Hrep.
  exists sjf. split; [reflexivity|].
  unfold main. cbn [openProcessingFile]. rewrite Ho, Hread.
  unfold loadProcesses. rewrite loadRows_csv_records by exact Hint.
  cbn [bind].
  assert (Hf1 : map PID (gantt (FCFS.FCFSSchedule mixed_add ps))
                = map ProcessID ps).
  { unfold FCFS.FCFSSchedule, FCFS.run. cbn [gantt].
    destruct (fcfs_fold_fields mixed_add ps FCFS.init) as (_ & _ & _ & _ & H).
    exact H. }
  rewrite (output_returns W "First-come, first-serve"
             (FCFS.FCFSSchedule mixed_add ps))
    by (rewrite Hf1; assumption).
  rewrite Hsjf.
  assert (Hf2 : map PID (gantt (reported sjf))
                = map ProcessID (map fst order)).
  { rewrite Hrep. cbn [gantt]. rewrite !map_map. reflexivity. }
  rewrite (output_returns W "Shortest-job-first" (reported sjf)).
  - unfold deferred, closeFn. rewrite Hclose. reflexivity.
  - rewrite Hf2. eapply Forall_perm_map; [exact Hperm|exact Hr].
  - rewrite Hf2. eapply Forall_perm_map; [exact Hperm|exact Hn].
Qed.

Lemma main_prints_both_schedules_witness :
  exists sjf,
    SJF.SJFSchedule Heap.sjf_less 20 spec_example = Some sjf
    /\ main (example_world spec_example) (fun t _ => t) Heap.sjf_less 20
            ["schedule"; "processes.csv"]%string
       = Some ((fst (output (example_world spec_example)
                            "First-come, first-serve"
                            (FCFS.FCFSSchedule (fun t _ => t) spec_example))
                ++ fst (output (example_world spec_example)
                               "Shortest-job-first" (reported sjf)))%string,
               Returns tt).
Proof.
  apply (main_prints_both_schedules (example_world spec_example)
           (fun t _ => t) Heap.sjf_less
           spec_example "schedule"%string "processes.csv"%string tt);
    try reflexivity.
  - repeat constructor; vm_compute; discriminate.
  - exact spec_example_valid.
  - vm_compute; discriminate.
  - repeat constructor; vm_compute; reflexivity.
  - vm_compute. repeat constructor.
Defined.

(** X30: main writes nothing on the standard output unless the file was
    opened and its records were loaded as processes.  Without exactly two
    arguments it opens nothing and [log.Fatal] ends it with code 1 on an
    error that wraps [ErrInvalidArgs]. *)
Theorem main_writes_nothing_unless_loaded W mixed_add less fuel args :
  (length args <> 2%nat ->
   exists err,
     main W mixed_add less fuel args = Some (EmptyString, Exits err 1)
     /\ Is err ErrInvalidArgs = true)
  /\ (forall out c,
        main W mixed_add less fuel args = Some (out, c) ->
        out <> EmptyString ->
        exists prog path f ps,
          args = [prog; path] /\ os_Open W path = inl f
          /\ loadProcesses (ReadAll W f) = Returns (ps, None)).
Proof.
  split.
  - intros Hlen. unfold main.
    destruct (openProcessingFile_cases W args) as [(err & -> & H)|H].
    + eexists. split; [reflexivity|].
      destruct H as [[_ H]|(prog & path & cause & -> & _)]; [exact H|].
      cbn in Hlen. congruence.
    + destruct H as (prog & path & f & -> & _). cbn in Hlen. congruence.
  - intros out c. unfold main.
    destruct (openProcessingFile_cases W args) as [(err & -> & _)|H].
    + intros [= <- <-] Hne. congruence.
    + destruct H as (prog & path & f & -> & Ho & ->).
      destruct (loadProcesses (ReadAll W f)) as [[ps [err|]]|p|e code] eqn:Hl.
      * intros [= <- <-] Hne. congruence.
      * intros _ _. exists prog, path, f, ps. auto.
      * intros [= <- <-] Hne. congruence.
      * intros [= <- <-] Hne. congruence.
Qed.

(** ** Round robin: the accounts of a run *)

Lemma last_slices_app q l1 l2 :
  last_slices q (l1 ++ l2) = last_slices q l1 + last_slices q l2.
Proof. induction l1 as [|p l1 IH]; simpl; lia. Qed.

Lemma last_slices_perm q l1 l2 :
  Permutation l1 l2 -> last_slices q l1 = last_slices q l2.
Proof. induction 1; simpl; lia. Qed.

(** An addition that moved the clock forward did not wrap. *)
Lemma int64_add_forward x d :
  0 <= x <= Int64.max_int -> 0 < d <= Int64.max_int ->
  x < Int64.add x d -> Int64.add x d = x + d.
Proof.
  unfold Int64.add, Int64.wrap, Int64.modulus, Int64.max_int.
  intros Hx Hd Hlt.
  destruct (Z_le_gt_dec (x + d) (2 ^ 63 - 1)) as [H|H].
  - rewrite Z.mod_small by lia. lia.
  - exfalso. revert Hlt.
    replace (x + d + 2 ^ 63) with (x + d - 2 ^ 63 + 1 * 2 ^ 64) by lia.
    rewrite Z_mod_plus_full, Z.mod_small by lia. lia.
Qed.

(** One iteration of the loop of RRSchedule, on a state of a run over a
    valid set: the clock ticks while nothing is ready; or the process at
    the head of the queue runs a full quantum and goes back to the tail;
    or it runs what is left of its burst and is accounted for. *)
Lemma rr_body_cases quantum B st :
  0 < quantum -> RRState.Inv B st -> RR.continues st = true ->
  Forall (fun p => 0 <= ArrivalTime p) (RRState.pool st) ->
  Forall (fun p => ArrivalTime p <= RR.currentTime st) (RR.queue st) ->
  let st' := RR.body quantum st in
  RRState.Inv B st'
  /\ Forall (fun p => 0 <= ArrivalTime p) (RRState.pool st')
  /\ Forall (fun p => ArrivalTime p <= RR.currentTime st') (RR.queue st')
  /\ ((Permutation (RRState.pool st) (RRState.pool st')
       /\ RR.currentTime st' = RR.currentTime st + 1
       /\ RR.totalWait st' = RR.totalWait st
       /\ RR.turnaround st' = RR.turnaround st)
      \/ (exists p rest,
            Permutation (RRState.pool st) (p :: rest)
            /\ Permutation (RRState.pool st') (RR.spend quantum p :: rest)
            /\ quantum < BurstDuration p
            /\ BurstDuration (RR.spend quantum p) = BurstDuration p - quantum
            /\ RR.currentTime st' = RR.currentTime st + quantum
            /\ RR.totalWait st' = RR.totalWait st
            /\ RR.turnaround st' = RR.turnaround st)
      \/ (exists p rest,
            Permutation (RRState.pool st) (p :: rest)
            /\ Permutation (RRState.pool st') rest
            /\ 0 < BurstDuration p <= quantum
            /\ 0 <= ArrivalTime p <= RR.currentTime st
            /\ RR.currentTime st' = RR.currentTime st + BurstDuration p
            /\ RR.totalWait st'
               = Int64.add (RR.totalWait st)
                           (RR.currentTime st - ArrivalTime p)
            /\ RR.turnaround st'
               = Int64.add (RR.turnaround st)
                   (RR.currentTime st + BurstDuration p - ArrivalTime p))).
Proof.
  intros Hq HI Hc Harr Hqa. cbv zeta.
  destruct (RRFacts.rr_body_inv quantum Hq B st HI Hc) as [HI' Hlt].
  split; [exact HI'|].
  pose proof (RRState.inv_now _ _ HI) as Hn.
  pose proof (RRState.inv_total _ _ HI) as Ht.
  pose proof (RRState.inv_bound _ _ HI) as HB.
  pose proof (RRState.inv_burst _ _ HI) as Hb.
  pose proof (RRState.inv_now _ _ HI') as Hn'.
  pose proof (RRState.inv_total _ _ HI') as Ht'.
  pose proof (RRState.inv_burst _ _ HI') as Hb'.
  pose proof (total_burst_nonneg _ Hb) as Hnn.
  pose proof (total_burst_nonneg _ Hb') as Hnn'.
  revert Hlt Hn' Ht' Hb' Hnn'. clear HI'. unfold RR.body, RRState.pool.
  destruct (Slice.drain_all (RR.ready (RR.currentTime st)) (RR.processes st)
                            (RR.queue st)) as [ps q] eqn:Hd.
  apply drain_all_spec in Hd. destruct Hd as [Hview Hq'].
  set (now := RR.currentTime st) in *.
  set (v := Slice.view (RR.processes st)) in *.
  assert (Hperm : Permutation (RRState.pool st) (q ++ Slice.view ps)).
  { unfold RRState.pool. fold v. rewrite Hview, Hq', <- app_assoc.
    apply Permutation_app_head. symmetry. apply filter_split_perm. }
  assert (Harr' : Forall (fun p => 0 <= ArrivalTime p) (q ++ Slice.view ps)).
  { eapply Permutation_Forall; [exact Hperm|exact Harr]. }
  assert (Hqa' : Forall (fun p => ArrivalTime p <= now) q).
  { rewrite Hq'. apply Forall_app. split; [exact Hqa|].
    apply Forall_forall. intros p Hp. apply filter_In in Hp.
    destruct Hp as [_ Hp]. unfold RR.ready in Hp. apply Z.leb_le. exact Hp. }
  assert (Hrange : 0 <= now <= Int64.max_int) by lia.
  destruct q as [|p q'].
  - cbn [RR.queue RR.processes RR.currentTime RR.totalWait RR.turnaround app].
    intros Hlt Hn' Ht' Hb' Hnn'.
    rewrite (int64_add_forward now 1) in * by (unfold Int64.max_int in *; lia).
    split; [exact Harr'|]. split; [constructor|].
    left. split; [exact Hperm|]. auto.
  - cbn [app] in Hperm, Harr'.
    pose proof (Forall_inv Hqa') as Hpa.
    pose proof (Forall_inv Harr') as Hp0. cbn beta in Hpa, Hp0.
    assert (Hpb : 0 < BurstDuration p <= B).
    { pose proof (Permutation_Forall Hperm Hb) as Hall.
      pose proof (Forall_inv Hall) as Hp. cbn beta in Hp.
      pose proof (total_burst_perm _ _ Hperm) as Hs.
      rewrite total_burst_cons in Hs.
      pose proof (total_burst_nonneg _ (Forall_inv_tail Hall)). lia. }
    destruct (quantum <? BurstDuration p) eqn:Hcmp.
    + apply Z.ltb_lt in Hcmp.
      cbn [RR.queue RR.processes RR.currentTime RR.totalWait RR.turnaround].
      intros Hlt Hn' Ht' Hb' Hnn'.
      rewrite (int64_add_forward now quantum) in * by lia.
      assert (Hsp : BurstDuration (RR.spend quantum p)
                    = BurstDuration p - quantum).
      { unfold RR.spend. cbn [BurstDuration]. apply int64_sub_small.
        unfold Int64.in_range, Int64.min_int, Int64.max_int in *. lia. }
      split; [|split].
      * pose proof (Forall_inv_tail Harr') as Hrest.
        apply Forall_app in Hrest. destruct Hrest as [H1 H2].
        rewrite <- app_assoc. apply Forall_app. split; [exact H1|].
        constructor; [exact Hp0|exact H2].
      * apply Forall_app. split.
        -- eapply Forall_impl; [|exact (Forall_inv_tail Hqa')].
           cbn beta. intros; lia.
        -- constructor; [cbn; lia|constructor].
      * right. left. exists p, (q' ++ Slice.view ps).
        split; [exact Hperm|]. split; [|auto 10].
        change (RR.spend quantum p :: q' ++ Slice.view ps)
          with ((RR.spend quantum p :: q') ++ Slice.view ps).
        apply Permutation_app_tail. symmetry.
        apply Permutation_cons_append.
    + apply Z.ltb_ge in Hcmp.
      cbn [RR.queue RR.processes RR.currentTime RR.totalWait RR.turnaround].
      intros Hlt Hn' Ht' Hb' Hnn'.
      rewrite !(int64_add_forward now (BurstDuration p)) in *
        by (unfold Int64.max_int in *; lia).
      assert (H1 : Int64.sub (now + BurstDuration p) (ArrivalTime p)
                   = now + BurstDuration p - ArrivalTime p).
      { apply int64_sub_small.
        unfold Int64.in_range, Int64.min_int, Int64.max_int in *. lia. }
      assert (H2 : Int64.sub (now + BurstDuration p - ArrivalTime p)
                             (BurstDuration p)
                   = now - ArrivalTime p).
      { rewrite int64_sub_small; [lia|].
        unfold Int64.in_range, Int64.min_int, Int64.max_int in *. lia. }
      rewrite H1, H2.
      split; [exact (Forall_inv_tail Harr')|]. split.
      * eapply Forall_impl; [|exact (Forall_inv_tail Hqa')].
        cbn beta. intros; lia.
      * right. right. exists p, (q' ++ Slice.view ps).
        split; [exact Hperm|]. split; [reflexivity|].
        split; [lia|]. split; [lia|]. auto.
Qed.

(** A property that every iteration keeps holds when the loop ends. *)
Lemma rr_loop_invariant quantum B (P : RR.State -> Prop) :
  0 < quantum ->
  (forall st,
     RRState.Inv B st ->
     Forall (fun p => 0 <= ArrivalTime p) (RRState.pool st) ->
     Forall (fun p => ArrivalTime p <= RR.currentTime st) (RR.queue st) ->
     RR.continues st = true -> P st -> P (RR.body quantum st)) ->
  forall fuel st st',
    RRState.Inv B st ->
    Forall (fun p => 0 <= ArrivalTime p) (RRState.pool st) ->
    Forall (fun p => ArrivalTime p <= RR.currentTime st) (RR.queue st) ->
    P st -> RR.loop quantum fuel st = Some st' ->
    P st' /\ RRState.Inv B st' /\ RRState.pool st' = [].
Proof.
  intros Hq Hstep.
  assert (Hend : forall st, RR.continues st = false -> RRState.pool st = []).
  { intros st Hc. destruct (RRFacts.rr_stops_empty _ Hc) as [H1 H2].
    unfold RRState.pool. rewrite H1, H2. reflexivity. }
  induction fuel as [|fuel IH]; intros st st' HI H1 H2 HP; cbn [RR.loop];
    destruct (RR.continues st) eqn:Hc; try discriminate;
    try (intros [= <-]; auto).
  destruct (rr_body_cases quantum B st Hq HI Hc H1 H2) as (HI' & H1' & H2' & _).
  apply IH; auto.
Qed.

Lemma rr_init_accounts ps :
  valid_processes ps ->
  Forall (fun p => 0 <= ArrivalTime p) (RRState.pool (RR.init ps))
  /\ Forall (fun p => ArrivalTime p <= RR.currentTime (RR.init ps))
            (RR.queue (RR.init ps))
  /\ RRState.pool (RR.init ps) = ps.
Proof.
  intros Hv. unfold RRState.pool, RR.init.
  cbn [RR.queue RR.processes Slice.of_list Slice.view app].
  split; [|split; [constructor|reflexivity]].
  eapply Forall_impl; [|exact Hv]. intros p [H _]. exact H.
Qed.

(** The clock of RRSchedule when its loop ends. *)
Lemma rr_final_clock quantum ps :
  0 < quantum -> valid_processes ps -> horizon ps <= Int64.max_int ->
  forall fuel st, RR.loop quantum fuel (RR.init ps) = Some st ->
  total_burst ps <= RR.currentTime st <= horizon ps.
Proof.
  intros Hq Hv Hb fuel st Hl.
  destruct (rr_init_accounts ps Hv) as (H1 & H2 & H3).
  destruct (rr_loop_invariant quantum (horizon ps)
              (fun st => total_burst ps
                         <= RR.currentTime st + total_burst (RRState.pool st))
              Hq) with (fuel := fuel) (st := RR.init ps) (st' := st)
    as (HP & HI & Hend); auto.
  - clear - Hq. intros st HI H1 H2 Hc HP.
    destruct (rr_body_cases quantum _ st Hq HI Hc H1 H2)
      as (_ & _ & _ & [Hc1|[Hc2|Hc3]]).
    + destruct Hc1 as (Hp & -> & _).
      rewrite <- (total_burst_perm _ _ Hp). lia.
    + destruct Hc2 as (p & rest & Hp & Hp' & _ & Hsp & -> & _).
      rewrite (total_burst_perm _ _ Hp) in HP.
      rewrite (total_burst_perm _ _ Hp'), !total_burst_cons, Hsp in *. lia.
    + destruct Hc3 as (p & rest & Hp & Hp' & _ & _ & -> & _).
      rewrite (total_burst_perm _ _ Hp) in HP.
      rewrite (total_burst_perm _ _ Hp'). rewrite total_burst_cons in HP. lia.
  - apply RRFacts.rr_init_inv; assumption.
  - rewrite H3. cbn [RR.init RR.currentTime]. lia.
  - pose proof (RRState.inv_total _ _ HI) as Ht. rewrite Hend in *.
    cbn in HP, Ht. lia.
Qed.

Lemma last_slice_spend quantum b :
  0 < quantum -> last_slice quantum (b - quantum) = last_slice quantum b.
Proof.
  intros Hq. unfold last_slice.
  replace (b - quantum - 1) with (b - 1 + (-1) * quantum) by lia.
  rewrite Z_mod_plus_full. reflexivity.
Qed.

Lemma last_slice_whole quantum b :
  0 < b <= quantum -> last_slice quantum b = b.
Proof. intros Hb. unfold last_slice. rewrite Z.mod_small; lia. Qed.

(** The totals of RRSchedule when its loop ends. *)
Lemma rr_final_totals quantum ps :
  0 < quantum -> valid_processes ps -> horizon ps <= Int64.max_int ->
  Z.of_nat (length ps) * horizon ps <= Int64.max_int ->
  forall fuel st, RR.loop quantum fuel (RR.init ps) = Some st ->
  RR.turnaround st - RR.totalWait st = last_slices quantum ps
  /\ 0 <= RR.totalWait st.
Proof.
  intros Hq Hv Hb Hnb fuel st Hl.
  destruct (rr_init_accounts ps Hv) as (H1 & H2 & H3).
  assert (HB0 : 0 <= horizon ps).
  { pose proof (max_arrival_nonneg ps).
    pose proof (total_burst_nonneg ps (valid_burst_pos ps Hv)).
    unfold horizon. lia. }
  destruct (rr_loop_invariant quantum (horizon ps)
              (fun st =>
                 RR.turnaround st - RR.totalWait st
                 + last_slices quantum (RRState.pool st)
                 = last_slices quantum ps
                 /\ 0 <= RR.totalWait st <= RR.turnaround st
                 /\ RR.turnaround st
                    <= (Z.of_nat (length ps)
                        - Z.of_nat (length (RRState.pool st))) * horizon ps)
              Hq) with (fuel := fuel) (st := RR.init ps) (st' := st)
    as (HP & HI & Hend); auto.
  - clear - Hq Hnb HB0. intros st HI H1 H2 Hc (HL & Hw & Hta).
    pose proof (RRState.inv_total _ _ HI) as Ht.
    pose proof (RRState.inv_burst _ _ HI) as Hbp.
    destruct (rr_body_cases quantum _ st Hq HI Hc H1 H2)
      as (_ & _ & _ & [Hc1|[Hc2|Hc3]]).
    + destruct Hc1 as (Hp & _ & -> & ->).
      rewrite <- (last_slices_perm _ _ _ Hp), <- (Permutation_length Hp). auto.
    + destruct Hc2 as (p & rest & Hp & Hp' & _ & Hsp & _ & -> & ->).
      rewrite (last_slices_perm _ _ _ Hp'), (Permutation_length Hp').
      rewrite (last_slices_perm _ _ _ Hp), (Permutation_length Hp) in *.
      cbn [last_slices fold_right length] in *.
      rewrite Hsp, last_slice_spend by exact Hq. auto.
    + destruct Hc3 as (p & rest & Hp & Hp' & Hpb & Hpa & _ & -> & ->).
      rewrite (last_slices_perm _ _ _ Hp'), (Permutation_length Hp').
      rewrite (last_slices_perm _ _ _ Hp), (Permutation_length Hp) in *.
      rewrite (total_burst_perm _ _ Hp) in Ht.
      pose proof (total_burst_nonneg _
                    (Forall_inv_tail (Permutation_Forall Hp Hbp))) as Hrest.
      rewrite total_burst_cons in Ht.
      cbn [last_slices fold_right length] in *.
      fold (last_slices quantum rest) in *.
      rewrite last_slice_whole in HL by exact Hpb.
      rewrite Nat2Z.inj_succ in Hta.
      set (c := Z.of_nat (length ps) - Z.of_nat (length rest)) in *.
      assert (Hc1 : c * horizon ps <= Z.of_nat (length ps) * horizon ps).
      { apply Z.mul_le_mono_nonneg_r; [exact HB0|]. unfold c. lia. }
      assert (Hc2 : (c - 1) * horizon ps + horizon ps = c * horizon ps) by lia.
      replace (Z.of_nat (length ps) - Z.succ (Z.of_nat (length rest)))
        with (c - 1) in Hta by (unfold c; lia).
      rewrite !int64_add_small
        by (unfold Int64.in_range, Int64.min_int, Int64.max_int in *; lia).
      repeat split; lia.
  - apply RRFacts.rr_init_inv; assumption.
  - rewrite H3. cbn [RR.init RR.turnaround RR.totalWait].
    rewrite Z.sub_diag. repeat split; lia.
  - destruct HP as (HL & Hw & _). rewrite Hend in HL. cbn in HL. lia.
Qed.

(** X17: RRSchedule, for any positive quantum and any valid process set,
    ends its loop with the clock between the total burst and the latest
    arrival plus the total burst: it loses no unit of service and idles
    only while nothing has arrived.  When every process arrives at 0 the
    clock ends at the total burst. *)
Theorem RR_clock_ends_after_the_total_burst quantum ps :
  0 < quantum -> valid_processes ps -> horizon ps <= Int64.max_int ->
  forall fuel, (Z.to_nat (horizon ps) <= fuel)%nat ->
  exists st,
    RR.loop quantum fuel (RR.init ps) = Some st
    /\ total_burst ps <= RR.currentTime st <= max_arrival ps + total_burst ps
    /\ (max_arrival ps = 0 -> RR.currentTime st = total_burst ps).
Proof.
  intros Hq Hv Hb fuel Hf.
  destruct (RR_run_ends quantum ps Hq Hv Hb fuel Hf) as (st & Hl & _).
  exists st. split; [exact Hl|].
  pose proof (rr_final_clock quantum ps Hq Hv Hb fuel st Hl) as Hc.
  unfold horizon in Hc. split; [exact Hc|]. intros H0. lia.
Qed.

Lemma RR_clock_ends_after_the_total_burst_witness :
  0 < RR.timeQuantum
  /\ valid_processes rr_example
  /\ horizon rr_example <= Int64.max_int
  /\ exists st,
       RR.loop RR.timeQuantum 6 (RR.init rr_example) = Some st
       /\ total_burst rr_example <= RR.currentTime st
          <= max_arrival rr_example + total_burst rr_example
       /\ (max_arrival rr_example = 0 ->
           RR.currentTime st = total_burst rr_example).
Proof.
  split; [reflexivity|]. split; [exact rr_example_valid|].
  split; [vm_compute; discriminate|].
  apply (RR_clock_ends_after_the_total_burst RR.timeQuantum rr_example).
  - reflexivity.
  - exact rr_example_valid.
  - vm_compute; discriminate.
  - vm_compute. repeat constructor.
Defined.

(** X18: the two totals of RRSchedule (lines 278-279) when its loop ends, for
    any positive quantum and any valid process set small enough for an
    int64 to hold the sum of the turnarounds: the total wait is the total
    turnaround minus, for each process, the length of its last slice
    only (what was left of its burst when it completed), not minus its
    whole burst. *)
Theorem RR_wait_subtracts_only_the_last_slice quantum ps :
  0 < quantum -> valid_processes ps ->
  Z.of_nat (length ps) * horizon ps <= Int64.max_int ->
  forall fuel, (Z.to_nat (horizon ps) <= fuel)%nat ->
  exists st,
    RR.loop quantum fuel (RR.init ps) = Some st
    /\ RR.totalWait st = RR.turnaround st - last_slices quantum ps
    /\ 0 <= RR.totalWait st.
Proof.
  intros Hq Hv Hnb fuel Hf.
  assert (Hb : horizon ps <= Int64.max_int).
  { pose proof (max_arrival_nonneg ps).
    pose proof (total_burst_nonneg ps (valid_burst_pos ps Hv)).
    destruct ps as [|p ps']; [vm_compute; discriminate|].
    unfold horizon in *. cbn [length] in Hnb. rewrite Nat2Z.inj_succ in Hnb.
    nia. }
  destruct (RR_run_ends quantum ps Hq Hv Hb fuel Hf) as (st & Hl & _).
  exists st. split; [exact Hl|].
  destruct (rr_final_totals quantum ps Hq Hv Hb Hnb fuel st Hl) as [H1 H2].
  split; [lia|exact H2].
Qed.

Lemma RR_wait_subtracts_only_the_last_slice_witness :
  0 < RR.timeQuantum
  /\ valid_processes rr_example
  /\ Z.of_nat (length rr_example) * horizon rr_example <= Int64.max_int
  /\ exists st,
       RR.loop RR.timeQuantum 6 (RR.init rr_example) = Some st
       /\ RR.totalWait st
          = RR.turnaround st - last_slices RR.timeQuantum rr_example
       /\ 0 <= RR.totalWait st.
Proof.
  split; [reflexivity|]. split; [exact rr_example_valid|].
  split; [vm_compute; discriminate|].
  apply (RR_wait_subtracts_only_the_last_slice RR.timeQuantum rr_example).
  - reflexivity.
  - exact rr_example_valid.
  - vm_compute; discriminate.
  - vm_compute. repeat constructor.
Defined.

(** ** First-come, first-served: the average turnaround *)

(** X11: FCFSSchedule reports the average turnaround 0 for every process set
    that is not empty: the accumulator of line 82 is never assigned,
    because line 96 declares a loop-local variable of the same name. *)
Theorem FCFS_average_turnaround_is_always_zero
  (mixed_add : Z -> float64 -> Z) ps :
  ps <> [] -> aveTurnaround (FCFS.FCFSSchedule mixed_add ps) = zero.
Proof.
  intros Hne. unfold FCFS.FCFSSchedule, FCFS.run. cbn [aveTurnaround].
  destruct (fcfs_fold_sums mixed_add ps FCFS.init)
    as (new & _ & _ & _ & H4 & _).
  rewrite H4. cbn [FCFS.init FCFS.turnaroundAcc].
  apply float64_zero_div_positive. destruct ps; [congruence|]. cbn [length]. lia.
Qed.

Lemma FCFS_average_turnaround_is_always_zero_witness :
  spec_example <> []
  /\ aveTurnaround (FCFS.FCFSSchedule (fun t _ => t) spec_example) = zero.
Proof.
  split; [discriminate|].
  apply (FCFS_average_turnaround_is_always_zero (fun t _ => t) spec_example).
  discriminate.
Defined.

(** ** Shortest job first: the timeline *)

Lemma sjf_order_in_sequence less : forall now order,
  SJFOrder.sjf_order less now order ->
  Forall (fun e => valid_process (fst e)) order ->
  in_sequence now (map SJFOrder.slice_of order).
Proof.
  induction 1 as [|now p start rest Hnow _ _ _ _ IH]; intros Hv;
    [exact I|].
  cbn [map in_sequence SJFOrder.slice_of Start Stop fst snd].
  destruct (Forall_inv Hv) as [_ Hb]. cbn [fst] in Hb.
  split; [exact Hnow|]. split; [lia|].
  apply IH. exact (Forall_inv_tail Hv).
Qed.

(** X3: the timeline of SJFSchedule is sequential for every valid process
    set, when the comparator of the heap is a strict weak order: no slice
    starts before the slice before it stops, and every slice lasts a
    positive time, so no two slices overlap. *)
Theorem SJF_timeline_is_sequential less ps :
  strict_weak_order less ->
  valid_processes ps -> horizon ps <= Int64.max_int ->
  forall fuel, (Z.to_nat (horizon ps) <= fuel)%nat ->
  exists out,
    SJF.SJFSchedule less fuel ps = Some out
    /\ in_sequence 0 (gantt (reported out)).
Proof.
  intros Hswo Hv Hb fuel Hf.
  pose proof (SJFFacts.sjf_init_inv ps Hv Hb) as HI.
  destruct (SJFFacts.sjf_loop_order less (horizon ps)
              (Z.to_nat (horizon ps)) (SJF.init ps) HI)
    as (st & order & Hl & Hs & _ & _ & _ & _ & Hall & Hord & _).
  { cbn [SJF.init SJF.currentTime]. lia. }
  unfold SJF.SJFSchedule.
  replace fuel with (Z.to_nat (horizon ps) + (fuel - Z.to_nat (horizon ps)))%nat
    by lia.
  rewrite (SJFFacts.sjf_loop_more _ _ _ _ _ Hl).
  eexists. split; [reflexivity|].
  cbn [reported SJF.report gantt]. rewrite Hs.
  cbn [SJF.init SJF.slices app].
  apply (sjf_order_in_sequence less).
  - exact (Hord Hswo).
  - eapply Forall_impl; [|exact Hall]. cbn beta. tauto.
Qed.

Lemma SJF_timeline_is_sequential_witness :
  strict_weak_order Heap.sjf_less
  /\ valid_processes spec_example
  /\ horizon spec_example <= Int64.max_int
  /\ exists out,
       SJF.SJFSchedule Heap.sjf_less 20 spec_example = Some out
       /\ in_sequence 0 (gantt (reported out)).
Proof.
  split; [exact sjf_less_swo|]. split; [exact spec_example_valid|].
  split; [vm_compute; discriminate|].
  apply (SJF_timeline_is_sequential Heap.sjf_less spec_example
           sjf_less_swo spec_example_valid spec_example_bounded 20%nat).
  vm_compute. repeat constructor.
Defined.
